(** * QUEST+ (questplus/qp.py): a shallow embedding and its verified properties

    The engine of [qp.py] keeps a posterior over a gridded parameter space,
    updates it by Bayes' rule after each trial and picks the next stimulus by
    minimising the expected posterior entropy.

    Modelling choices.
    - Floating point numbers are exact rationals ([Qc]) extended with the IEEE
      special values +inf, -inf and NaN, with the IEEE rules for them
      (0/0 = NaN, x/0 = +-inf, 0 * inf = NaN, NaN absorbing).  Rounding and
      signed zeros are not modelled.
    - [np.log] is a parameter [ln] on the positive rationals; the special
      cases of [np.log] (log 0 = -inf, log of a negative number = NaN) are
      written out.
    - An [xr.DataArray] is a list of named axes with their coordinate values
      and a cell function from index environments (axis name -> position).
      Arithmetic broadcasts by axis name as xarray does; [sum] skips NaN as
      xarray's default [skipna] does for floats.
    - Python dictionaries are association lists in insertion order.
    - Exceptions are explicit: a method is a function from the engine state
      to a result (value or exception) and the state at that point.
    - The module [psychometric_function] is a parameter: a function from
      the stimulus and parameter grids to a tensor of probabilities over the
      stimulus axes followed by the parameter axes.  The call itself is
      modelled: the axes are passed as keyword arguments next to [scale], so
      a name given twice is a TypeError.
    - A prior weight is a Python int or a float: numpy gives a list of ints
      an integer dtype, and an integer array cannot be divided in place.
    - numpy and xarray calls follow the library versions for which the
      source runs: [np.prod] on a list of arrays of different shapes
      multiplies the arrays with broadcasting. *)

From Stdlib Require Import List String ZArith QArith Qcanon Lia Lqa Bool Arith.
From Stdlib Require Import FunctionalExtensionality.
Import ListNotations.
Open Scope string_scope.
Open Scope list_scope.
Open Scope Qc_scope.

(* ================================================================== *)
(** ** Numbers: rationals with the IEEE special values *)
(* ================================================================== *)

Inductive num : Type :=
| Fin (q : Qc)
| PInf
| NInf
| NaN.

Definition Qc_ltb (a b : Qc) : bool :=
  match a ?= b with Lt => true | _ => false end.

Definition is_zero (q : Qc) : bool := Qc_eq_bool q 0.

Definition isnan (x : num) : bool :=
  match x with NaN => true | _ => false end.

Definition num_eqb (x y : num) : bool :=
  match x, y with
  | Fin a, Fin b => Qc_eq_bool a b
  | PInf, PInf | NInf, NInf | NaN, NaN => true
  | _, _ => false
  end.

(** sign of a number, used for the products and quotients with infinities *)
Inductive sign := Neg | Zero | Pos.

Definition sgn (x : num) : option sign :=
  match x with
  | Fin q => Some (if is_zero q then Zero else if Qc_ltb q 0 then Neg else Pos)
  | PInf => Some Pos
  | NInf => Some Neg
  | NaN => None
  end.

Definition inf_of (s : sign) : num :=
  match s with Pos => PInf | Neg => NInf | Zero => NaN end.

Definition sign_mul (s t : sign) : sign :=
  match s, t with
  | Zero, _ | _, Zero => Zero
  | Pos, Pos | Neg, Neg => Pos
  | _, _ => Neg
  end.

Definition nneg (x : num) : num :=
  match x with
  | Fin q => Fin (- q)
  | PInf => NInf
  | NInf => PInf
  | NaN => NaN
  end.

Definition nadd (x y : num) : num :=
  match x, y with
  | NaN, _ | _, NaN => NaN
  | Fin a, Fin b => Fin (a + b)
  | PInf, NInf | NInf, PInf => NaN
  | PInf, _ | _, PInf => PInf
  | NInf, _ | _, NInf => NInf
  end.

Definition nsub (x y : num) : num := nadd x (nneg y).

Definition nmul (x y : num) : num :=
  match x, y with
  | Fin a, Fin b => Fin (a * b)
  | _, _ =>
      match sgn x, sgn y with
      | Some s, Some t => inf_of (sign_mul s t)
      | _, _ => NaN
      end
  end.

Definition ndiv (x y : num) : num :=
  match x, y with
  | NaN, _ | _, NaN => NaN
  | Fin a, Fin b =>
      if is_zero b
      then (if is_zero a then NaN else if Qc_ltb a 0 then NInf else PInf)
      else Fin (a / b)
  | Fin _, _ => Fin 0
  | _, Fin b => if Qc_ltb b 0 then nneg x else x
  | _, _ => NaN
  end.

(** [a < b] in the IEEE order; false as soon as one side is NaN *)
Definition nltb (x y : num) : bool :=
  match x, y with
  | NaN, _ | _, NaN => false
  | Fin a, Fin b => Qc_ltb a b
  | NInf, NInf | PInf, _ => false
  | NInf, _ => true
  | Fin _, PInf => true
  | Fin _, NInf => false
  end.

(** [np.nansum]: NaN cells are replaced by 0, then everything is added *)
Definition nan_to_zero (x : num) : num := if isnan x then Fin 0 else x.

Definition nansum (l : list num) : num :=
  fold_left (fun acc x => nadd acc (nan_to_zero x)) l (Fin 0).

(** [np.sum]: plain sum, NaN propagates *)
Definition npsum (l : list num) : num := fold_left nadd l (Fin 0).

Definition npprod (l : list num) : num := fold_left nmul l (Fin 1).

(** position of the first minimum of a list, by strict comparison
    ([np.argmin]); [None] on the empty list *)
Fixpoint argmin_from (best : nat) (bv : num) (i : nat) (l : list num) : nat :=
  match l with
  | [] => best
  | x :: l' =>
      if nltb x bv then argmin_from i x (S i) l'
      else argmin_from best bv (S i) l'
  end.

Definition np_argmin (l : list num) : option nat :=
  match l with
  | [] => None
  | x :: l' => Some (argmin_from 0%nat x 1%nat l')
  end.

Definition nan_to_pinf (x : num) : num := if isnan x then PInf else x.

Definition all_nan (l : list num) : bool := forallb isnan l.

(** [np.nanargmin]: NaN is replaced by +inf before [argmin]; an empty or an
    all-NaN input raises, which [None] stands for *)
Definition np_nanargmin (l : list num) : option nat :=
  if all_nan l then None else np_argmin (map nan_to_pinf l).

(** [np.nanmin]: the minimum after the same replacement; NaN when every cell
    is NaN *)
Definition np_nanmin (l : list num) : num :=
  if all_nan l then NaN
  else match map nan_to_pinf l with
       | [] => NaN
       | x :: l' => fold_left (fun m y => if nltb y m then y else m) l' x
       end.

(** position of the first maximum of a list, by strict comparison
    ([np.argmax]); [None] on the empty list *)
Fixpoint argmax_from (best : nat) (bv : num) (i : nat) (l : list num) : nat :=
  match l with
  | [] => best
  | x :: l' =>
      if nltb bv x then argmax_from i x (S i) l'
      else argmax_from best bv (S i) l'
  end.

Definition np_argmax (l : list num) : option nat :=
  match l with
  | [] => None
  | x :: l' => Some (argmax_from 0%nat x 1%nat l')
  end.

Definition nan_to_ninf (x : num) : num := if isnan x then NInf else x.

(** [np.nanargmax]: NaN is replaced by -inf before [argmax]; an empty or an
    all-NaN input raises, which [None] stands for *)
Definition np_nanargmax (l : list num) : option nat :=
  if all_nan l then None else np_argmax (map nan_to_ninf l).

(* ================================================================== *)
(** ** Python values, dictionaries and exceptions *)
(* ================================================================== *)

(** Axis values: stimulus and parameter levels are numbers, outcome labels
    are strings. *)
Inductive pyval : Type :=
| VNum (q : Qc)
| VStr (s : string).

Definition pyval_eqb (a b : pyval) : bool :=
  match a, b with
  | VNum x, VNum y => Qc_eq_bool x y
  | VStr x, VStr y => String.eqb x y
  | _, _ => false
  end.

(** A prior weight as the caller writes it: a Python int or a float. *)
Inductive pynum : Type :=
| PyInt (z : Z)
| PyFloat (q : Qc).

Definition qnum (x : pynum) : Qc :=
  match x with
  | PyInt z => Q2Qc (inject_Z z)
  | PyFloat q => q
  end.

Definition num_of (x : pynum) : num := Fin (qnum x).

Definition is_int (x : pynum) : bool :=
  match x with PyInt _ => true | PyFloat _ => false end.

(** [np.asanyarray(l)] has an integer dtype when [l] is a non-empty list of
    ints; one float makes it a float array, and so is the empty array *)
Definition int_array (l : list pynum) : bool :=
  match l with
  | [] => false
  | _ :: _ => forallb is_int l
  end.

(** A dictionary in insertion order. *)
Definition dict (V : Type) : Type := list (string * V).

Definition keys {V} (d : dict V) : list string := map fst d.
Definition values {V} (d : dict V) : list V := map snd d.

Definition mem (k : string) (ks : list string) : bool :=
  existsb (String.eqb k) ks.

Fixpoint get {V} (d : dict V) (k : string) : option V :=
  match d with
  | [] => None
  | (k', v) :: d' => if String.eqb k k' then Some v else get d' k
  end.

Fixpoint nodupb (ks : list string) : bool :=
  match ks with
  | [] => true
  | k :: ks' => negb (mem k ks') && nodupb ks'
  end.

Inductive exn : Type := KeyError | ValueError | IndexError | TypeError.

Inductive result (A : Type) : Type :=
| OK (a : A)
| Raise (e : exn).
Arguments OK {A} a.
Arguments Raise {A} e.

Definition rbind {A B} (r : result A) (k : A -> result B) : result B :=
  match r with
  | OK a => k a
  | Raise e => Raise e
  end.

Notation "'let!' x ':=' r 'in' k" := (rbind r (fun x => k))
  (at level 10, x name, r at level 100, k at level 200).

(** position of a label in an axis (first occurrence) *)
Fixpoint index_of (v : pyval) (l : list pyval) : option nat :=
  match l with
  | [] => None
  | x :: l' => if pyval_eqb x v then Some 0%nat
               else option_map S (index_of v l')
  end.

(* ================================================================== *)
(** ** Index spaces *)
(* ================================================================== *)

(** All positions of an array of the given shape, in row-major (C) order:
    the last axis varies fastest. *)
Fixpoint indices (shape : list nat) : list (list nat) :=
  match shape with
  | [] => [[]]
  | n :: s => flat_map (fun i => map (cons i) (indices s)) (seq 0 n)
  end.

Definition size_of (shape : list nat) : nat := fold_right Nat.mul 1%nat shape.

(** [np.unravel_index(i, shape)] for the default C order *)
Fixpoint unravel (i : nat) (shape : list nat) : list nat :=
  match shape with
  | [] => []
  | n :: s => (i / size_of s)%nat :: unravel (i mod size_of s)%nat s
  end.

Definition np_unravel_index (i : nat) (shape : list nat) : result (list nat) :=
  if (i <? size_of shape)%nat then OK (unravel i shape) else Raise ValueError.

(** An index environment gives a position to every axis name. *)
Definition env : Type := string -> nat.

Definition env0 : env := fun _ => 0%nat.

Definition upd (e : env) (k : string) (i : nat) : env :=
  fun k' => if String.eqb k' k then i else e k'.

Fixpoint bind_env (e : env) (ks : list string) (idx : list nat) : env :=
  match ks, idx with
  | k :: ks', i :: idx' => upd (bind_env e ks' idx') k i
  | _, _ => e
  end.

(* ================================================================== *)
(** ** numpy arrays (as far as [_gen_prior] uses them) *)
(* ================================================================== *)

Record ndarray : Type := {
  nd_shape : list nat;
  nd_get : list nat -> num
}.

Definition nd_values (a : ndarray) : list num :=
  map (nd_get a) (indices (nd_shape a)).

(** a numpy scalar is a 0-d array *)
Definition nd_scalar (x : num) : ndarray :=
  {| nd_shape := []; nd_get := fun _ => x |}.

Definition np_ones (shape : list nat) : ndarray :=
  {| nd_shape := shape; nd_get := fun _ => Fin 1 |}.

(** [np.meshgrid] with [sparse=True, indexing='ij']: the i-th array has the
    length of [xs[i]] on axis i and 1 on every other axis. *)
Definition sparse_shape (k i n : nat) : list nat :=
  map (fun j => if (j =? i)%nat then n else 1%nat) (seq 0 k).

(** the array of axis [i] among [k]; a position outside the array, which the
    engine never reads, is given the value 0 *)
Definition mesh_array (k i : nat) (x : list num) : ndarray :=
  {| nd_shape := sparse_shape k i (List.length x);
     nd_get := fun idx => nth (nth i idx 0%nat) x (Fin 0) |}.

Definition np_meshgrid (xs : list (list num)) : list ndarray :=
  map (fun ix => mesh_array (List.length xs) (fst ix) (snd ix))
      (combine (seq 0 (List.length xs)) xs).

(** broadcasting of two shapes of the same rank, and the position read in an
    operand: an axis of length 1 is read at position 0 *)
Definition bshape (s t : list nat) : list nat :=
  map (fun nm => if (fst nm =? 1)%nat then snd nm else fst nm) (combine s t).

Definition bidx (idx s : list nat) : list nat :=
  map (fun im => if (snd im =? 1)%nat then 0%nat else fst im) (combine idx s).

Definition nd_mul (a b : ndarray) : ndarray :=
  {| nd_shape := bshape (nd_shape a) (nd_shape b);
     nd_get := fun idx => nmul (nd_get a (bidx idx (nd_shape a)))
                               (nd_get b (bidx idx (nd_shape b))) |}.

Definition shape_eqb (s t : list nat) : bool :=
  if list_eq_dec Nat.eq_dec s t then true else false.

Definition same_shapes (l : list ndarray) : bool :=
  match l with
  | [] => true
  | a :: l' => forallb (fun b => shape_eqb (nd_shape b) (nd_shape a)) l'
  end.

Definition same_leading (l : list ndarray) : bool :=
  match l with
  | [] => true
  | a :: l' => forallb (fun b => (hd 0 (nd_shape b) =? hd 0 (nd_shape a))%nat) l'
  end.

(** [np.prod(l)] on a Python list [l] of arrays is
    [np.multiply.reduce(np.asarray(l), axis=None)].
    - Arrays of one common shape stack into a numeric array and EVERY element
      is multiplied into one scalar.
    - Arrays of different shapes whose leading lengths differ become a 1-d
      object array of arrays, and the reduction multiplies the arrays
      themselves, with broadcasting.
    - Arrays of different shapes with a common leading length cannot be
      converted (numpy: "could not broadcast input array"). *)
Definition np_prod (l : list ndarray) : result ndarray :=
  if same_shapes l then OK (nd_scalar (npprod (flat_map nd_values l)))
  else if same_leading l then Raise ValueError
  else match l with
       | [] => OK (nd_scalar (Fin 1))
       | a :: l' => OK (fold_left nd_mul l' a)
       end.

(** [a /= a.sum()] on a numpy array *)
Definition nd_normalize (a : ndarray) : ndarray :=
  let s := npsum (nd_values a) in
  {| nd_shape := nd_shape a; nd_get := fun idx => ndiv (nd_get a idx) s |}.

(* ================================================================== *)
(** ** xarray DataArrays *)
(* ================================================================== *)

Record DataArray : Type := {
  coords : dict (list pyval);
  data : env -> num
}.

Definition dims (a : DataArray) : list string := keys (coords a).

Definition shape (a : DataArray) : list nat :=
  map (@List.length pyval) (values (coords a)).

(** the cells in row-major order over the array's own axes *)
Definition da_values (a : DataArray) : list num :=
  map (fun idx => data a (bind_env env0 (dims a) idx)) (indices (shape a)).

(** [xr.DataArray(data=a, dims=keys, coords=c)]: a scalar (0-d) [data] is
    broadcast over the coordinates; otherwise the shape must fit them. *)
Definition DataArray_new (a : ndarray) (c : dict (list pyval))
  : result DataArray :=
  match nd_shape a with
  | [] => OK {| coords := c; data := fun _ => nd_get a [] |}
  | s => if shape_eqb s (map (@List.length pyval) (values c))
         then OK {| coords := c; data := fun e => nd_get a (map e (keys c)) |}
         else Raise ValueError
  end.

Definition da_map (f : num -> num) (a : DataArray) : DataArray :=
  {| coords := coords a; data := fun e => f (data a e) |}.

(** [a * b]: axes of [a], then the axes of [b] that [a] lacks; cells are
    matched by axis name.  The coordinates of a shared axis are taken to be
    the same in both operands, as they are between the engine's tensors. *)
Definition da_mul (a b : DataArray) : DataArray :=
  {| coords := coords a ++
               filter (fun kv => negb (mem (fst kv) (dims a))) (coords b);
     data := fun e => nmul (data a e) (data b e) |}.

(** [a /= b] (in place: the result keeps the axes of [a]) *)
Definition da_idiv (a b : DataArray) : DataArray :=
  {| coords := coords a; data := fun e => ndiv (data a e) (data b e) |}.

(** the lengths of the named axes of [a] *)
Definition axis_sizes (a : DataArray) (dim : list string) : list nat :=
  map (fun k => match get (coords a) k with
                | Some l => List.length l
                | None => 0%nat
                end) dim.

(** [a.sum(dim=dim)]: NaN cells are skipped; an unknown axis name raises *)
Definition da_sum (dim : list string) (a : DataArray) : result DataArray :=
  if forallb (fun k => mem k (dims a)) dim
  then OK {| coords := filter (fun kv => negb (mem (fst kv) dim)) (coords a);
             data := fun e =>
               nansum (map (fun idx => data a (bind_env e dim idx))
                           (indices (axis_sizes a dim))) |}
  else Raise ValueError.

(** [a.sum()]: over all axes, a 0-d array *)
Definition da_sum_all (a : DataArray) : DataArray :=
  {| coords := [];
     data := fun e =>
       nansum (map (fun idx => data a (bind_env e (dims a) idx))
                   (indices (shape a))) |}.

(** [a.sel(k=v)]: the axis [k] is dropped and fixed at the position of the
    label [v]; an unknown axis raises ValueError, an unknown label KeyError *)
Definition da_sel1 (a : DataArray) (k : string) (v : pyval)
  : result DataArray :=
  match get (coords a) k with
  | None => Raise ValueError
  | Some l =>
      match index_of v l with
      | None => Raise KeyError
      | Some i =>
          OK {| coords := filter (fun kv => negb (String.eqb (fst kv) k))
                                 (coords a);
                data := fun e => data a (upd e k i) |}
      end
  end.

Fixpoint da_sel (a : DataArray) (kw : dict pyval) : result DataArray :=
  match kw with
  | [] => OK a
  | (k, v) :: kw' => let! a' := da_sel1 a k v in da_sel a' kw'
  end.

(** [a.argmin()]: flat position of the first minimum, NaN skipped *)
Definition da_argmin (a : DataArray) : result nat :=
  match np_nanargmin (da_values a) with
  | Some i => OK i
  | None => Raise ValueError
  end.

(** [a.min().item()] *)
Definition da_min (a : DataArray) : num := np_nanmin (da_values a).

(** [a[index].coords], each coordinate read with [.item()] *)
Fixpoint coords_at (c : dict (list pyval)) (index : list nat)
  : result (dict pyval) :=
  match c, index with
  | [], [] => OK []
  | (k, l) :: c', i :: index' =>
      match nth_error l i with
      | Some v => let! r := coords_at c' index' in OK ((k, v) :: r)
      | None => Raise IndexError
      end
  | _, _ => Raise IndexError
  end.

(** [a.argmax()]: flat position of the first maximum, NaN skipped *)
Definition da_argmax (a : DataArray) : result nat :=
  match np_nanargmax (da_values a) with
  | Some i => OK i
  | None => Raise ValueError
  end.

(** the values of an axis as a float array in arithmetic: an axis that holds
    a string is an array of strings, which cannot be multiplied *)
Fixpoint as_floats (l : list pyval) : result (list num) :=
  match l with
  | [] => OK []
  | VNum q :: l' => let! r := as_floats l' in OK (Fin q :: r)
  | VStr _ :: _ => Raise TypeError
  end.

(** [a * v] for a 1-d numpy array [v]: numpy matches [v] with the LAST axis
    of [a], by position.  The lengths must agree, or [v] has one element.
    (An axis of length 1 against a longer [v] does not occur: the axes of
    the posterior have the lengths of the parameter domain.) *)
Definition da_mul_array (a : DataArray) (v : list num) : result DataArray :=
  match rev (coords a) with
  | [] => Raise ValueError
  | (k, l) :: _ =>
      if (List.length v =? List.length l)%nat
      then OK {| coords := coords a;
                 data := fun e => nmul (data a e) (nth (e k) v NaN) |}
      else if (List.length v =? 1)%nat
      then OK {| coords := coords a;
                 data := fun e => nmul (data a e) (nth 0 v NaN) |}
      else Raise ValueError
  end.

(* ================================================================== *)
(** ** The engine: class [QuestPlus] *)
(* ================================================================== *)

(** What a caller may pass as the values of an axis. *)
Inductive array_like : Type :=
| Scalar (v : pyval)
| Sequence (l : list pyval).

Definition np_atleast_1d (v : array_like) : list pyval :=
  match v with
  | Scalar x => [x]
  | Sequence l => l
  end.

Record QuestPlus : Type := {
  func : string;
  stim_scale : string;
  stim_domain : dict (list pyval);
  param_domain : dict (list pyval);
  outcome_domain : dict (list pyval);
  prior : DataArray;
  posterior : DataArray;
  likelihoods : DataArray;
  stim_selection : string;
  stim_selection_options : option (dict pyval);
  param_estimation_method : string;
  resp_history : list (dict pyval);
  stim_history : dict (list pyval);
  entropy : num
}.

Definition set_posterior (self : QuestPlus) (p : DataArray) : QuestPlus :=
  {| func := func self; stim_scale := stim_scale self;
     stim_domain := stim_domain self; param_domain := param_domain self;
     outcome_domain := outcome_domain self; prior := prior self;
     posterior := p; likelihoods := likelihoods self;
     stim_selection := stim_selection self;
     stim_selection_options := stim_selection_options self;
     param_estimation_method := param_estimation_method self;
     resp_history := resp_history self; stim_history := stim_history self;
     entropy := entropy self |}.

Definition set_resp_history (self : QuestPlus) (h : list (dict pyval))
  : QuestPlus :=
  {| func := func self; stim_scale := stim_scale self;
     stim_domain := stim_domain self; param_domain := param_domain self;
     outcome_domain := outcome_domain self; prior := prior self;
     posterior := posterior self; likelihoods := likelihoods self;
     stim_selection := stim_selection self;
     stim_selection_options := stim_selection_options self;
     param_estimation_method := param_estimation_method self;
     resp_history := h; stim_history := stim_history self;
     entropy := entropy self |}.

Definition set_stim_history (self : QuestPlus) (h : dict (list pyval))
  : QuestPlus :=
  {| func := func self; stim_scale := stim_scale self;
     stim_domain := stim_domain self; param_domain := param_domain self;
     outcome_domain := outcome_domain self; prior := prior self;
     posterior := posterior self; likelihoods := likelihoods self;
     stim_selection := stim_selection self;
     stim_selection_options := stim_selection_options self;
     param_estimation_method := param_estimation_method self;
     resp_history := resp_history self; stim_history := h;
     entropy := entropy self |}.

Definition set_entropy (self : QuestPlus) (x : num) : QuestPlus :=
  {| func := func self; stim_scale := stim_scale self;
     stim_domain := stim_domain self; param_domain := param_domain self;
     outcome_domain := outcome_domain self; prior := prior self;
     posterior := posterior self; likelihoods := likelihoods self;
     stim_selection := stim_selection self;
     stim_selection_options := stim_selection_options self;
     param_estimation_method := param_estimation_method self;
     resp_history := resp_history self; stim_history := stim_history self;
     entropy := x |}.

(** A method runs on the engine state, and ends with a value or an exception
    and the state as it is at that point. *)
Definition M (A : Type) : Type := QuestPlus -> result A * QuestPlus.

Definition ret {A} (a : A) : M A := fun self => (OK a, self).

Definition bind {A B} (m : M A) (k : A -> M B) : M B :=
  fun self =>
    match m self with
    | (OK a, self') => k a self'
    | (Raise e, self') => (Raise e, self')
    end.

Definition lift {A} (r : result A) : M A := fun self => (r, self).
Definition read {A} (f : QuestPlus -> A) : M A := fun self => (OK (f self), self).
Definition write (f : QuestPlus -> QuestPlus) : M unit :=
  fun self => (OK tt, f self).

Notation "x <- m ;; k" := (bind m (fun x => k))
  (at level 61, m at next level, right associativity).
Notation "m ;;; k" := (bind m (fun _ => k))
  (at level 61, right associativity).

(** [d[k].append(v)] on a dictionary of lists *)
Fixpoint dict_append (d : dict (list pyval)) (k : string) (v : pyval)
  : result (dict (list pyval)) :=
  match d with
  | [] => Raise KeyError
  | (k', l) :: d' =>
      if String.eqb k k' then OK ((k', l ++ [v]) :: d')
      else let! r := dict_append d' k v in OK ((k', l) :: r)
  end.

(** the keyword arguments [**stim, **outcome]: a name given twice is a
    TypeError *)
Definition kwargs (stim outcome : dict pyval) : result (dict pyval) :=
  if existsb (fun k => mem k (keys stim)) (keys outcome)
  then Raise TypeError
  else OK (stim ++ outcome).

Definition _ensure_ndarray (x : dict array_like) : dict (list pyval) :=
  map (fun kv => (fst kv, np_atleast_1d (snd kv))) x.

(** The constructor's keyword arguments. *)
Record Config : Type := {
  cfg_stim_domain : dict array_like;
  cfg_param_domain : dict array_like;
  cfg_outcome_domain : dict array_like;
  cfg_prior : option (dict (list pynum));
  cfg_func : string;
  cfg_stim_scale : string;
  cfg_stim_selection_method : string;
  cfg_stim_selection_options : option (dict pyval);
  cfg_param_estimation_method : string
}.

Definition _gen_prior (param_domain : dict (list pyval))
           (prior : option (dict (list pynum))) : result DataArray :=
  let! prior :=
    match prior with
    | None => OK (np_ones (map (@List.length pyval) (values param_domain)))
    | Some prior_orig =>
        let! prior :=
          np_prod (np_meshgrid (map (map num_of) (values prior_orig))) in
        (* [prior /= prior.sum()] below divides in place: an array of
           integers cannot hold the quotient (TypeError).  The product of
           the meshgrid arrays is an integer array when every weight list is
           one; the numpy scalar of the first case of [np_prod] is divided
           into a new float. *)
        match nd_shape prior with
        | [] => OK prior
        | _ :: _ =>
            if forallb int_array (values prior_orig) then Raise TypeError
            else OK prior
        end
    end in
  (* Normalize. *)
  let prior := nd_normalize prior in
  DataArray_new prior param_domain.

Section Engine.

(** [np.log] on the positive rationals. *)
Variable ln : Qc -> Qc.

(** The module [psychometric_function] (not part of this file's source):
    [psychometric_function name stim_domain param_domain scale] is the
    probability of the first outcome label over the stimulus and parameter
    grid. *)
Variable psychometric_function :
  string -> dict (list pyval) -> dict (list pyval) -> string -> DataArray.

Definition nlog (x : num) : num :=
  match x with
  | Fin q => if is_zero q then NInf
             else if Qc_ltb q 0 then NaN else Fin (ln q)
  | PInf => PInf
  | NInf => NaN
  | NaN => NaN
  end.

(** the call of the provider with the entries of [stim_domain], the entries
    of [param_domain] and [scale] as keyword arguments: a name given twice is
    a TypeError *)
Definition provider_kwargs (stim_domain param_domain : dict (list pyval))
  : result unit :=
  if existsb (fun k => mem k (keys stim_domain)) (keys param_domain)
     || mem "scale" (keys stim_domain ++ keys param_domain)
  then Raise TypeError
  else OK tt.

Definition _gen_likelihoods (func stim_scale : string)
           (stim_domain param_domain outcome_domain : dict (list pyval))
  : result DataArray :=
  let! outcome_dim_name :=
    match keys outcome_domain with
    | k :: _ => OK k
    | [] => Raise IndexError
    end in
  let! outcome_values :=
    match values outcome_domain with
    | v :: _ => OK v
    | [] => Raise IndexError
    end in
  if mem func ["weibull"; "csf"; "norm_cdf"; "norm_cdf_2"] then
    let f := psychometric_function func in
    let! _ := provider_kwargs stim_domain param_domain in
    let prop_correct := f stim_domain param_domain stim_scale in
    let prop_incorrect := da_map (nsub (Fin 1)) prop_correct in
    let! corr :=
      match nth_error outcome_values 0 with
      | Some v => OK v
      | None => Raise IndexError
      end in
    let! inccorr :=
      match nth_error outcome_values 1 with
      | Some v => OK v
      | None => Raise IndexError
      end in
    (* [expand_dims]: the new axis must not be an axis already *)
    if mem outcome_dim_name (dims prop_correct) then Raise ValueError
    else
      (* [xr.concat(..., coords=self.outcome_domain)]: the keys of the
         outcome domain are taken as the coordinates to concatenate, and
         only the outcome axis itself can be *)
      match outcome_domain with
      | [_] =>
          OK {| coords := (outcome_dim_name, [corr; inccorr])
                          :: coords prop_correct;
                data := fun e => match e outcome_dim_name with
                                 | O => data prop_correct e
                                 | S _ => data prop_incorrect e
                                 end |}
      | _ => Raise ValueError
      end
  else Raise ValueError.

Definition __init__ (c : Config) : result QuestPlus :=
  let stim_domain := _ensure_ndarray (cfg_stim_domain c) in
  let param_domain := _ensure_ndarray (cfg_param_domain c) in
  let outcome_domain := _ensure_ndarray (cfg_outcome_domain c) in
  let! prior := _gen_prior param_domain (cfg_prior c) in
  let posterior := prior in
  let! likelihoods :=
    _gen_likelihoods (cfg_func c) (cfg_stim_scale c)
                     stim_domain param_domain outcome_domain in
  OK {| func := cfg_func c;
        stim_scale := cfg_stim_scale c;
        stim_domain := stim_domain;
        param_domain := param_domain;
        outcome_domain := outcome_domain;
        prior := prior;
        posterior := posterior;
        likelihoods := likelihoods;
        stim_selection := cfg_stim_selection_method c;
        stim_selection_options := cfg_stim_selection_options c;
        param_estimation_method := cfg_param_estimation_method c;
        resp_history := [];
        stim_history := map (fun p => (p, [])) (keys stim_domain);
        entropy := NaN |}.

(** the loop [for stim_property, stim_val in stim.items()] of [update] *)
Fixpoint log_stim (stim : dict pyval) : M unit :=
  match stim with
  | [] => ret tt
  | (stim_property, stim_val) :: stim' =>
      h <- read stim_history ;;
      h' <- lift (dict_append h stim_property stim_val) ;;
      write (fun self => set_stim_history self h') ;;;
      log_stim stim'
  end.

Definition update (stim outcome : dict pyval) : M unit :=
  kw <- lift (kwargs stim outcome) ;;
  lik <- read likelihoods ;;
  likelihood <- lift (da_sel lik kw) ;;
  write (fun self => set_posterior self (da_mul (posterior self) likelihood)) ;;;
  write (fun self =>
           set_posterior self
             (da_idiv (posterior self) (da_sum_all (posterior self)))) ;;;
  (* Log the results, too. *)
  log_stim stim ;;;
  write (fun self => set_resp_history self (resp_history self ++ [outcome])).

Definition next_stim : M (dict pyval) :=
  stim_selection <- read stim_selection ;;
  posterior <- read posterior ;;
  likelihoods <- read likelihoods ;;
  param_keys <- read (fun self => keys (param_domain self)) ;;
  outcome_keys <- read (fun self => keys (outcome_domain self)) ;;
  let new_posterior := da_mul posterior likelihoods in
  (* Probability. *)
  pk <- lift (da_sum param_keys new_posterior) ;;
  let new_posterior := da_idiv new_posterior pk in
  (* Entropies. *)
  s <- lift (da_sum param_keys
               (da_mul new_posterior (da_map nlog new_posterior))) ;;
  let H := da_map nneg s in
  (* Expected entropies for all possible stimulus parameters. *)
  EH <- lift (da_sum outcome_keys (da_mul pk H)) ;;
  if String.eqb stim_selection "min_entropy" then
    (* Get coordinates of stimulus properties that minimize entropy. *)
    flat <- lift (da_argmin EH) ;;
    index <- lift (np_unravel_index flat (shape EH)) ;;
    stim <- lift (coords_at (coords EH) index) ;;
    write (fun self => set_entropy self (da_min EH)) ;;;
    ret stim
  else
    lift (Raise ValueError).

End Engine.

(** What [param_estimate] returns for one parameter: a float (the mean) or a
    coordinate of the grid (the mode). *)
Inductive estimate : Type :=
| EstFloat (x : num)
| EstCoord (v : pyval).

(** [params.remove(param_name)]: the first occurrence is removed *)
Fixpoint list_remove (k : string) (l : list string) : list string :=
  match l with
  | [] => []
  | x :: l' => if String.eqb x k then l' else x :: list_remove k l'
  end.

(** [d[k] = v] *)
Fixpoint dict_set {V} (d : dict V) (k : string) (v : V) : dict V :=
  match d with
  | [] => [(k, v)]
  | (k', v') :: d' =>
      if String.eqb k k' then (k', v) :: d' else (k', v') :: dict_set d' k v
  end.

(** the body of the loop of [param_estimate] *)
Definition estimate_param (self : QuestPlus) (method param_name : string)
  : result estimate :=
  let params := list_remove param_name (keys (param_domain self)) in
  if String.eqb method "mean" then
    let! marginal := da_sum params (posterior self) in
    let! axis :=
      match get (param_domain self) param_name with
      | Some l => OK l
      | None => Raise KeyError
      end in
    let! axis := as_floats axis in
    let! weighted := da_mul_array marginal axis in
    OK (EstFloat (data (da_sum_all weighted) env0))
  else if String.eqb method "mode" then
    let! flat := da_argmax (posterior self) in
    let! index := np_unravel_index flat (shape (posterior self)) in
    let! coords := coords_at (coords (posterior self)) index in
    match get coords param_name with
    | Some v => OK (EstCoord v)
    | None => Raise KeyError
    end
  else Raise ValueError.

Fixpoint estimate_params (self : QuestPlus) (method : string)
         (names : list string) (param_estimates : dict estimate)
  : result (dict estimate) :=
  match names with
  | [] => OK param_estimates
  | param_name :: names' =>
      let! est := estimate_param self method param_name in
      estimate_params self method names' (dict_set param_estimates param_name est)
  end.

Definition param_estimate : M (dict estimate) :=
  method <- read param_estimation_method ;;
  self <- read (fun self => self) ;;
  lift (estimate_params self method (keys (param_domain self)) []).

(* ================================================================== *)
(** ** Specification-side definitions *)
(* ================================================================== *)

(** The rational behind a finite number. *)
Definition qval (x : num) : Qc :=
  match x with
  | Fin q => q
  | _ => 0
  end.

Fixpoint qsum (l : list Qc) : Qc :=
  match l with
  | [] => 0
  | x :: l' => x + qsum l'
  end.

Fixpoint qprod (l : list Qc) : Qc :=
  match l with
  | [] => 1
  | x :: l' => x * qprod l'
  end.

(** The stimulus grid in its canonical order: axes in insertion order, the
    last axis varying fastest. *)
Fixpoint grid (d : dict (list pyval)) : list (dict pyval) :=
  match d with
  | [] => [[]]
  | (k, l) :: d' => flat_map (fun v => map (cons (k, v)) (grid d')) l
  end.

Definition axis_shape (d : dict (list pyval)) : list nat :=
  map (@List.length pyval) (values d).

(** *** Bayes' rule for one trial *)

(** position of the label [v] on the axis [k] *)
Definition position (c : dict (list pyval)) (k : string) (v : pyval) : nat :=
  match get c k with
  | Some l => match index_of v l with
              | Some i => i
              | None => 0%nat
              end
  | None => 0%nat
  end.

(** the environment [e] with the axes named in [kw] fixed at the positions of
    the given labels *)
Definition slice_env (c : dict (list pyval)) (kw : dict pyval) (e : env)
  : env :=
  bind_env e (keys kw) (map (fun kv => position c (fst kv) (snd kv)) kw).

(** P * L at a parameter cell, L being the likelihood slice of the trial *)
Definition joint_cell (st : QuestPlus) (stim outcome : dict pyval) (e : env)
  : num :=
  nmul (data (posterior st) e)
       (data (likelihoods st)
             (slice_env (coords (likelihoods st)) (stim ++ outcome) e)).

(** sum(P * L) over the parameter grid *)
Definition evidence_at (st : QuestPlus) (stim outcome : dict pyval) (e : env)
  : num :=
  nansum (map (fun idx => joint_cell st stim outcome
                            (bind_env e (keys (param_domain st)) idx))
              (indices (axis_shape (param_domain st)))).

Definition evidence (st : QuestPlus) (stim outcome : dict pyval) : num :=
  evidence_at st stim outcome env0.

(** (P * L) / sum(P * L), a tensor over the parameter axes *)
Definition bayes (st : QuestPlus) (stim outcome : dict pyval) : DataArray :=
  {| coords := param_domain st;
     data := fun e => ndiv (joint_cell st stim outcome e)
                           (evidence_at st stim outcome e) |}.

(** the history after one trial: every stimulus axis gets its value *)
Definition logged (stim : dict pyval) (h : dict (list pyval))
  : dict (list pyval) :=
  map (fun kl => (fst kl, match get stim (fst kl) with
                          | Some v => snd kl ++ [v]
                          | None => snd kl
                          end)) h.

(** *** Expected posterior entropy *)

Section ExpectedEntropy.

Variable ln : Qc -> Qc.
Variable st : QuestPlus.

(** the cell of stimulus position [s], outcome [o], parameter position [th] *)
Definition cell (s : list nat) (o : nat) (th : list nat) : env :=
  bind_env
    (bind_env (bind_env env0 (keys (stim_domain st)) s)
              (keys (outcome_domain st)) [o])
    (keys (param_domain st)) th.

Definition param_cells : list (list nat) :=
  indices (axis_shape (param_domain st)).

Definition stim_cells : list (list nat) :=
  indices (axis_shape (stim_domain st)).

(** Posterior x LikelihoodTensor *)
Definition joint (s : list nat) (o : nat) (th : list nat) : Qc :=
  qval (data (posterior st) (cell s o th)) *
  qval (data (likelihoods st) (cell s o th)).

(** its marginal over the parameter axes *)
Definition pk_spec (s : list nat) (o : nat) : Qc :=
  qsum (map (joint s o) param_cells).

(** p log p, with 0 log 0 = 0 *)
Definition plogp (p : Qc) : Qc :=
  if is_zero p then 0 else p * ln p.

(** entropy of the renormalised joint *)
Definition H_spec (s : list nat) (o : nat) : Qc :=
  - qsum (map (fun th => plogp (joint s o th / pk_spec s o)) param_cells).

(** expected entropy of a stimulus; an outcome of probability 0 contributes
    nothing.  The likelihood tensor has two outcomes. *)
Definition EH_spec (s : list nat) : Qc :=
  qsum (map (fun o => if is_zero (pk_spec s o) then 0
                      else pk_spec s o * H_spec s o)
            (seq 0 2)).

End ExpectedEntropy.

(** *** The prior as the claim describes it *)

(** the weights of a prior map as rationals, and a map of rationals written
    with floats *)
Definition weights_of (p : dict (list pynum)) : dict (list Qc) :=
  map (fun kw => (fst kw, map qnum (snd kw))) p.

Definition floats (p : dict (list Qc)) : dict (list pynum) :=
  map (fun kw => (fst kw, map PyFloat (snd kw))) p.

(** some weight list of the map is not a list of ints (or no map is given):
    the prior can be normalised in place *)
Definition float_prior (pr : option (dict (list pynum))) : bool :=
  match pr with
  | None => true
  | Some p => negb (forallb int_array (values p))
  end.

(** weight of position [i] on the parameter axis named [k] *)
Definition weight (pr : dict (list Qc)) (k : string) (i : nat) : Qc :=
  match get pr k with
  | Some w => nth i w 0
  | None => 0
  end.

(** outer product of the per-axis weights, matched by axis NAME *)
Definition outer (pr : dict (list Qc)) (pkeys : list string)
           (idx : list nat) : Qc :=
  qprod (map (fun ki => weight pr (fst ki) (snd ki)) (combine pkeys idx)).

Definition outer_total (pr : dict (list Qc)) (pdom : dict (list pyval)) : Qc :=
  qsum (map (outer pr (keys pdom)) (indices (axis_shape pdom))).

(** the prior map with the weights of every axis [k] multiplied by [c k] *)
Definition scale_prior (c : string -> Qc) (pr : dict (list Qc))
  : dict (list Qc) :=
  map (fun kw => (fst kw, map (Qcmult (c (fst kw))) (snd kw))) pr.

(** *** Well-formed engine states *)

(** the outcome axis of the likelihood tensor: the first two labels of the
    only outcome axis *)
Definition outcome_axis (st : QuestPlus) : option (string * list pyval) :=
  match outcome_domain st with
  | [(k, v0 :: v1 :: _)] => Some (k, [v0; v1])
  | _ => None
  end.

(** a tensor whose cells depend on the positions on its own axes only *)
Definition local (a : DataArray) : Prop :=
  forall e e', (forall k, In k (dims a) -> e k = e' k) -> data a e = data a e'.

Definition nonneg_cells (a : DataArray) : Prop :=
  forall e, exists q, data a e = Fin q /\ 0 <= q.

Record well_formed (st : QuestPlus) : Prop := {
  wf_lik : exists ax, outcome_axis st = Some ax /\
             coords (likelihoods st) = ax :: stim_domain st ++ param_domain st;
  wf_post : coords (posterior st) = param_domain st;
  wf_nodup : NoDup (dims (likelihoods st));
  wf_hist : keys (stim_history st) = keys (stim_domain st);
  wf_local_post : local (posterior st);
  wf_local_lik : local (likelihoods st)
}.

(** the posterior is a finite non-negative tensor, and so is the likelihood *)
Record proper (st : QuestPlus) : Prop := {
  proper_wf : well_formed st;
  proper_post : nonneg_cells (posterior st);
  proper_lik : nonneg_cells (likelihoods st)
}.

Definition present (v : pyval) (l : list pyval) : bool :=
  match index_of v l with
  | Some _ => true
  | None => false
  end.

(** a call [update(stim, outcome)] that gives one value of its grid to every
    stimulus axis and one label of the outcome axis *)
Definition valid_call (st : QuestPlus) (stim outcome : dict pyval) : bool :=
  nodupb (keys stim)
  && forallb (fun k => mem k (keys stim)) (keys (stim_domain st))
  && forallb (fun kv => match get (stim_domain st) (fst kv) with
                        | Some l => present (snd kv) l
                        | None => false
                        end) stim
  && match outcome, outcome_axis st with
     | [(k, v)], Some (k', l) => String.eqb k k' && present v l
     | _, _ => false
     end.

(** the trial is possible under the current posterior: sum(P * L) <> 0 *)
Definition informative (st : QuestPlus) (stim outcome : dict pyval) : bool :=
  negb (num_eqb (evidence st stim outcome) (Fin 0)).

(** *** Valid configurations *)

Definition supported_func (f : string) : bool :=
  mem f ["weibull"; "csf"; "norm_cdf"; "norm_cdf_2"].

(** the prior argument: omitted, or a map that lists the parameter axes in
    their order with one non-negative weight per grid value, not all zero,
    over at least two axes the first of which has more than one value (the
    case in which [np.prod] multiplies with broadcasting) *)
Definition prior_ok (pdom : dict (list pyval)) (pr : option (dict (list Qc)))
  : bool :=
  match pr with
  | None => true
  | Some p =>
      (if list_eq_dec string_dec (keys p) (keys pdom) then true else false)
      && shape_eqb (map (@List.length Qc) (values p)) (axis_shape pdom)
      && (2 <=? List.length p)%nat
      && negb (hd 0%nat (axis_shape pdom) =? 1)%nat
      && forallb (forallb (fun w => negb (Qc_ltb w 0))) (values p)
      && negb (is_zero (outer_total p pdom))
  end.

Definition nonempty_axes (d : dict (list pyval)) : bool :=
  forallb (fun n => negb (n =? 0)%nat) (axis_shape d).

Definition valid_config (c : Config) : bool :=
  let sd := _ensure_ndarray (cfg_stim_domain c) in
  let pd := _ensure_ndarray (cfg_param_domain c) in
  let od := _ensure_ndarray (cfg_outcome_domain c) in
  nodupb (keys od ++ keys sd ++ keys pd)
  && match od with
     | [(_, _ :: _ :: _)] => true
     | _ => false
     end
  && supported_func (cfg_func c)
  && nonempty_axes pd
  && prior_ok pd (option_map weights_of (cfg_prior c)).

(** a valid configuration that the constructor accepts: moreover the prior
    map is not one of integers, which cannot be normalised in place, and no
    axis is named 'scale', the name of a keyword of the psychometric
    functions *)
Definition buildable (c : Config) : bool :=
  valid_config c
  && float_prior (cfg_prior c)
  && negb (mem "scale" (keys (_ensure_ndarray (cfg_stim_domain c))
                        ++ keys (_ensure_ndarray (cfg_param_domain c)))).

(** what the engine expects of a psychometric function: a probability for
    every cell of the stimulus x parameter grid *)
Definition provider_ok
  (pf : string -> dict (list pyval) -> dict (list pyval) -> string -> DataArray)
  : Prop :=
  forall name sd pd scale,
    coords (pf name sd pd scale) = sd ++ pd /\
    local (pf name sd pd scale) /\
    forall e, exists q, data (pf name sd pd scale) e = Fin q /\ 0 <= q /\ q <= 1.

(** *** Sequences of trials *)

Section Runs.

Variable ln : Qc -> Qc.

(** [trial_run possible st st']: [st'] is reached from [st] by calls of
    [next_stim] and by valid calls of [update]; with [possible = true] every
    trial is moreover possible under the posterior it meets. *)
Inductive trial_run (possible : bool) : QuestPlus -> QuestPlus -> Prop :=
| run_nil : forall st, trial_run possible st st
| run_next : forall st st1,
    trial_run possible st st1 ->
    trial_run possible st (snd (next_stim ln st1))
| run_update : forall st st1 stim outcome,
    trial_run possible st st1 ->
    valid_call st1 stim outcome = true ->
    (possible = true -> informative st1 stim outcome = true) ->
    trial_run possible st (snd (update stim outcome st1)).

End Runs.



(** sum of all cells, NaN propagating *)
Definition total (a : DataArray) : num := npsum (da_values a).

(** the rational value of sum(P * L) *)
Definition qevidence (st : QuestPlus) (stim outcome : dict pyval) : Qc :=
  qsum (map (fun idx => qval (joint_cell st stim outcome
                                (bind_env env0 (keys (param_domain st)) idx)))
            (indices (axis_shape (param_domain st)))).




(** the marginal posterior of position [i] on the parameter axis [k]: the
    sum of the posterior over the other parameter axes *)
Definition marginal (st : QuestPlus) (k : string) (i : nat) : Qc :=
  let params := list_remove k (keys (param_domain st)) in
  qsum (map (fun idx => qval (data (posterior st)
                                   (bind_env (upd env0 k i) params idx)))
            (indices (axis_sizes (posterior st) params))).

(** the index [idx] with the position [i] put in at place [j] *)
Definition insert_at (j i : nat) (idx : list nat) : list nat :=
  firstn j idx ++ i :: skipn j idx.

(** the numbers on an axis, and whether every axis holds numbers only *)
Definition axis_nums (l : list pyval) : list Qc :=
  map (fun v => match v with VNum q => q | VStr _ => 0 end) l.

Definition numeric_axes (d : dict (list pyval)) : bool :=
  forallb (forallb (fun v => match v with VNum _ => true | VStr _ => false end))
          (values d).

(** the mean of the parameter [k] under the posterior: the values of the
    axis, weighted by the marginal posterior *)
Definition posterior_mean (st : QuestPlus) (k : string) : Qc :=
  let qs := axis_nums (match get (param_domain st) k with
                       | Some l => l
                       | None => []
                       end) in
  qsum (map (fun i => marginal st k i * nth i qs 0) (seq 0 (List.length qs))).

(** *** Invariant of the product of the meshgrid arrays

    After the first [j] arrays have been multiplied, the product has the
    lengths of the first [j] axes and holds the product of their weights. *)

Definition axis_len (ws : list (list Qc)) (i : nat) : nat :=
  List.length (nth i ws []).

Definition partial_shape (ws : list (list Qc)) (j : nat) : list nat :=
  map (fun i => if (i <? j)%nat then axis_len ws i else 1%nat)
      (seq 0 (List.length ws)).

Definition partial_prod (ws : list (list Qc)) (j : nat) (idx : list nat) : Qc :=
  qprod (map (fun i => nth (nth i idx 0%nat) (nth i ws []) 0) (seq 0 j)).

Record prod_inv (Good : Qc -> Prop) (ws : list (list Qc)) (j : nat)
       (a : ndarray) : Prop := {
  pi_shape : nd_shape a = partial_shape ws j;
  pi_cell : forall idx,
      List.length idx = List.length ws ->
      (forall i, (i < j)%nat -> (nth i idx 0 < axis_len ws i)%nat) ->
      nd_get a idx = Fin (partial_prod ws j idx);
  pi_fin : forall idx, exists q, nd_get a idx = Fin q /\ Good q
}.

(** the total of the product of the weight vectors, taken by position *)
Definition product_total (ws : list (list Qc)) : Qc :=
  qsum (map (partial_prod ws (List.length ws))
            (indices (map (@List.length Qc) ws))).

(** the case in which [np.prod] multiplies the meshgrid arrays with
    broadcasting: at least two weight vectors, the first not of length 1 *)
Definition prior_broadcasts (pr : dict (list pynum)) : bool :=
  (2 <=? List.length pr)%nat
  && negb (List.length (hd [] (values pr)) =? 1)%nat.

Definition finite_cells (a : DataArray) : Prop :=
  forall e, exists q, data a e = Fin q.



(** *** Bayes' rule by labels

    The update as the claim words it, with rational arithmetic and the
    labels of the call found on the axes by position. *)






(** the number of cells of a grid, as a rational *)
Definition n_cells (d : dict (list pyval)) : Qc :=
  qsum (map (fun _ => 1) (indices (axis_shape d))).

(** *** The arrays of [next_stim], cell by cell *)

Section SelectionCells.

Variable ln : Qc -> Qc.
Variable st : QuestPlus.

(** [new_posterior = posterior * likelihoods] *)
Definition J_data (e : env) : num :=
  nmul (data (posterior st) e) (data (likelihoods st) e).

(** [pk = new_posterior.sum(dim=param_domain.keys())] *)
Definition pk_data (e : env) : num :=
  nansum (map (fun th => J_data (bind_env e (keys (param_domain st)) th))
              (param_cells st)).

(** [new_posterior /= pk], then [new_posterior * log(new_posterior)] *)
Definition plogp_data (e : env) : num :=
  nmul (ndiv (J_data e) (pk_data e)) (nlog ln (ndiv (J_data e) (pk_data e))).

(** [H = -(...).sum(dim=param_domain.keys())] *)
Definition H_data (e : env) : num :=
  nneg (nansum (map (fun th => plogp_data
                                 (bind_env e (keys (param_domain st)) th))
                    (param_cells st))).

(** [EH = (pk * H).sum(dim=outcome_domain.keys())], over the two outcomes of
    the likelihood tensor *)
Definition EH_data (e : env) : num :=
  nansum (map (fun o => nmul (pk_data (bind_env e (keys (outcome_domain st)) o))
                             (H_data (bind_env e (keys (outcome_domain st)) o)))
              (indices [2%nat])).

Definition EH_array : DataArray :=
  {| coords := stim_domain st; data := EH_data |}.

End SelectionCells.

(** [i] is the position of the first minimum of [qs] *)
Definition first_min (qs : list Qc) (i : nat) : Prop :=
  (i < List.length qs)%nat /\
  (forall j, (j < List.length qs)%nat -> nth i qs 0 <= nth j qs 0) /\
  (forall j, (j < i)%nat -> nth i qs 0 < nth j qs 0).

(** [i] is the position of the first maximum of [qs] *)
Definition first_max (qs : list Qc) (i : nat) : Prop :=
  (i < List.length qs)%nat /\
  (forall j, (j < List.length qs)%nat -> nth j qs 0 <= nth i qs 0) /\
  (forall j, (j < i)%nat -> nth j qs 0 < nth i qs 0).

(** *** The states of a run

    A run of valid calls keeps the posterior finite and non-negative until a
    trial is impossible; from then on the posterior is NaN. *)

Definition nan_posterior (st : QuestPlus) : Prop :=
  well_formed st /\ nonneg_cells (likelihoods st) /\
  Forall (eq NaN) (da_values (posterior st)).

Definition run_state (st : QuestPlus) : Prop := proper st \/ nan_posterior st.

Inductive reachable
  (pf : string -> dict (list pyval) -> dict (list pyval) -> string -> DataArray)
  (ln : Qc -> Qc) : QuestPlus -> Prop :=
| reachable_intro : forall c st0 st,
    valid_config c = true ->
    __init__ pf c = OK st0 ->
    trial_run ln false st0 st ->
    reachable pf ln st.

(** the posterior has all its mass on the parameter cell [th0] *)
Definition certain (st : QuestPlus) (th0 : list nat) : Prop :=
  In th0 (param_cells st) /\
  forall th, In th (param_cells st) -> th <> th0 ->
    data (posterior st) (bind_env env0 (keys (param_domain st)) th) = Fin 0.

(* ================================================================== *)
(** ** A concrete engine: the binary grid *)
(* ================================================================== *)

(** Modelled from the spec: the psychometric function provider of the binary
    grid scenario, which answers the first label with probability 1 where
    the first stimulus axis and the first parameter axis have the same value,
    and with probability 0 elsewhere. *)
Definition match_pf (name : string) (sd pd : dict (list pyval))
           (scale : string) : DataArray :=
  {| coords := sd ++ pd;
     data := fun e =>
       match sd, pd with
       | (sk, sv) :: _, (pk, pv) :: _ =>
           match nth_error sv (e sk), nth_error pv (e pk) with
           | Some a, Some b => if pyval_eqb a b then Fin 1 else Fin 0
           | _, _ => Fin 0
           end
       | _, _ => Fin 0
       end |}.

(** a rational stand-in for the logarithm, exact at 1 *)
Definition ln_lin (q : Qc) : Qc := q - 1.

Definition binary_cfg : Config :=
  {| cfg_stim_domain := [("intensity", Sequence [VNum 0; VNum 1])];
     cfg_param_domain := [("threshold", Sequence [VNum 0; VNum 1])];
     cfg_outcome_domain :=
       [("response", Sequence [VStr "correct"; VStr "incorrect"])];
     cfg_prior := None;
     cfg_func := "weibull";
     cfg_stim_scale := "log10";
     cfg_stim_selection_method := "min_entropy";
     cfg_stim_selection_options := None;
     cfg_param_estimation_method := "mode" |}.

(** *** Further example engines *)

Definition null_array : DataArray :=
  {| coords := []; data := fun _ => NaN |}.

Definition null_engine : QuestPlus :=
  {| func := ""; stim_scale := "";
     stim_domain := []; param_domain := []; outcome_domain := [];
     prior := null_array; posterior := null_array; likelihoods := null_array;
     stim_selection := ""; stim_selection_options := None;
     param_estimation_method := "";
     resp_history := []; stim_history := []; entropy := NaN |}.

(** the engine a construction returns *)
Definition engine_of (r : result QuestPlus) : QuestPlus :=
  match r with
  | OK self => self
  | Raise _ => null_engine
  end.

Definition with_method (c : Config) (m : string) (o : option (dict pyval))
  : Config :=
  {| cfg_stim_domain := cfg_stim_domain c;
     cfg_param_domain := cfg_param_domain c;
     cfg_outcome_domain := cfg_outcome_domain c;
     cfg_prior := cfg_prior c;
     cfg_func := cfg_func c;
     cfg_stim_scale := cfg_stim_scale c;
     cfg_stim_selection_method := m;
     cfg_stim_selection_options := o;
     cfg_param_estimation_method := cfg_param_estimation_method c |}.

Definition with_domains (c : Config) (sd pd : dict array_like)
           (pr : option (dict (list pynum))) : Config :=
  {| cfg_stim_domain := sd;
     cfg_param_domain := pd;
     cfg_outcome_domain := cfg_outcome_domain c;
     cfg_prior := pr;
     cfg_func := cfg_func c;
     cfg_stim_scale := cfg_stim_scale c;
     cfg_stim_selection_method := cfg_stim_selection_method c;
     cfg_stim_selection_options := cfg_stim_selection_options c;
     cfg_param_estimation_method := cfg_param_estimation_method c |}.

Definition binary_st0 : QuestPlus := engine_of (__init__ match_pf binary_cfg).

Definition stim_lo : dict pyval := [("intensity", VNum 0)].
Definition stim_hi : dict pyval := [("intensity", VNum 1)].
Definition correct : dict pyval := [("response", VStr "correct")].

(** after the trial (intensity 0, correct): the posterior is (1, 0) *)
Definition binary_st1 : QuestPlus := snd (update stim_lo correct binary_st0).

(** after the further, impossible, trial (intensity 1, correct) *)
Definition binary_st2 : QuestPlus := snd (update stim_hi correct binary_st1).

Definition min_n_cfg : Config :=
  with_method binary_cfg "min_n_entropy" (Some [("n", VNum (1 + 1))]).

Definition min_n_st : QuestPlus := engine_of (__init__ match_pf min_n_cfg).







(** two parameter axes, with a prior map in the order of the axes and with a
    prior map in the other order *)
Definition two_axes : dict array_like :=
  [("threshold", Sequence [VNum 0; VNum 1]);
   ("slope", Sequence [VNum 1; VNum (1 + 1)])].

Definition w_threshold : list Qc := [Q2Qc (1 # 2); Q2Qc (1 # 2)].
Definition w_slope : list Qc := [Q2Qc (9 # 10); Q2Qc (1 # 10)].

Definition ordered_prior : dict (list Qc) :=
  [("threshold", w_threshold); ("slope", w_slope)].

Definition swapped_prior : dict (list Qc) :=
  [("slope", w_slope); ("threshold", w_threshold)].

Definition ordered_cfg : Config :=
  with_domains binary_cfg [("intensity", Sequence [VNum 0; VNum 1])]
               two_axes (Some (floats ordered_prior)).

Definition swapped_cfg : Config :=
  with_domains binary_cfg [("intensity", Sequence [VNum 0; VNum 1])]
               two_axes (Some (floats swapped_prior)).

Definition ordered_st : QuestPlus := engine_of (__init__ match_pf ordered_cfg).
Definition swapped_st : QuestPlus := engine_of (__init__ match_pf swapped_cfg).

(** *** Engines for the further properties *)

(** an outcome axis with one label only *)
Definition single_label_cfg : Config :=
  {| cfg_stim_domain := cfg_stim_domain binary_cfg;
     cfg_param_domain := cfg_param_domain binary_cfg;
     cfg_outcome_domain := [("response", Scalar (VStr "correct"))];
     cfg_prior := None;
     cfg_func := "weibull";
     cfg_stim_scale := "log10";
     cfg_stim_selection_method := "min_entropy";
     cfg_stim_selection_options := None;
     cfg_param_estimation_method := "mode" |}.

(** three outcome labels *)
Definition three_label_cfg : Config :=
  {| cfg_stim_domain := cfg_stim_domain binary_cfg;
     cfg_param_domain := cfg_param_domain binary_cfg;
     cfg_outcome_domain :=
       [("response",
         Sequence [VStr "correct"; VStr "incorrect"; VStr "timeout"])];
     cfg_prior := None;
     cfg_func := "weibull";
     cfg_stim_scale := "log10";
     cfg_stim_selection_method := "min_entropy";
     cfg_stim_selection_options := None;
     cfg_param_estimation_method := "mode" |}.






(** the binary grid with an estimation method that does not exist *)
Definition median_cfg : Config :=
  {| cfg_stim_domain := cfg_stim_domain binary_cfg;
     cfg_param_domain := cfg_param_domain binary_cfg;
     cfg_outcome_domain := cfg_outcome_domain binary_cfg;
     cfg_prior := None;
     cfg_func := "weibull";
     cfg_stim_scale := "log10";
     cfg_stim_selection_method := "min_entropy";
     cfg_stim_selection_options := None;
     cfg_param_estimation_method := "median" |}.

(** two parameter axes with a prior, estimated by the mean *)
Definition mean_cfg : Config :=
  {| cfg_stim_domain := [("intensity", Sequence [VNum 0; VNum 1])];
     cfg_param_domain := two_axes;
     cfg_outcome_domain := cfg_outcome_domain binary_cfg;
     cfg_prior := Some (floats ordered_prior);
     cfg_func := "weibull";
     cfg_stim_scale := "log10";
     cfg_stim_selection_method := "min_entropy";
     cfg_stim_selection_options := None;
     cfg_param_estimation_method := "mean" |}.

Definition mean_st : QuestPlus := engine_of (__init__ match_pf mean_cfg).

(** a prior map with three weights for the two values of an axis *)
Definition long_prior : dict (list Qc) :=
  [("threshold", [Q2Qc (1 # 2); Q2Qc (1 # 4); Q2Qc (1 # 4)]);
   ("slope", w_slope)].

Definition long_prior_cfg : Config :=
  with_domains binary_cfg [("intensity", Sequence [VNum 0; VNum 1])]
               two_axes (Some (floats long_prior)).

(** the weights of the threshold axis times 4, of the slope axis times 10 *)
Definition factors (k : string) : Qc :=
  if String.eqb k "threshold" then Q2Qc 4 else Q2Qc 10.

(** the prior of two axes with its weights scaled by [factors]: the
    threshold weights as floats, the slope weights as Python ints *)
Definition scaled_prior : dict (list pynum) :=
  [("threshold", [PyFloat (Q2Qc 2); PyFloat (Q2Qc 2)]);
   ("slope", [PyInt 9; PyInt 1])].






(** a prior map of zeros, a prior map written with Python ints, and a prior
    map with a negative weight *)
Definition zero_prior : dict (list pynum) :=
  [("threshold", [PyFloat 0; PyFloat 0]); ("slope", [PyFloat 0; PyFloat 0])].

Definition zero_prior_cfg : Config :=
  with_domains binary_cfg [("intensity", Sequence [VNum 0; VNum 1])]
               two_axes (Some zero_prior).

Definition zero_prior_st : QuestPlus :=
  engine_of (__init__ match_pf zero_prior_cfg).

Definition int_prior : dict (list pynum) :=
  [("threshold", [PyInt 1; PyInt 1]); ("slope", [PyInt 9; PyInt 1])].

Definition int_prior_cfg : Config :=
  with_domains binary_cfg [("intensity", Sequence [VNum 0; VNum 1])]
               two_axes (Some int_prior).




(** a parameter axis named 'scale', and a name shared by a stimulus and a
    parameter axis *)
Definition scale_axis_cfg : Config :=
  with_domains binary_cfg
    [("intensity", Sequence [VNum 0; VNum 1])]
    [("scale", Sequence [VNum 0; VNum 1])] None.

Definition shared_axis_cfg : Config :=
  with_domains binary_cfg
    [("intensity", Sequence [VNum 0; VNum 1])]
    [("intensity", Sequence [VNum 0; VNum 1])] None.


(* ================================================================== *)
(** ** Rational arithmetic *)
(* ================================================================== *)

Lemma this_plus (a b : Qc) : (this (a + b) == this a + this b)%Q.
Proof. unfold Qcplus, Q2Qc. cbn [this]. apply Qred_correct. Qed.

Lemma this_mult (a b : Qc) : (this (a * b) == this a * this b)%Q.
Proof. unfold Qcmult, Q2Qc. cbn [this]. apply Qred_correct. Qed.

Lemma is_zero_true (q : Qc) : is_zero q = true <-> q = 0.
Proof.
  unfold is_zero. split; intro H.
  - now apply Qc_eq_bool_correct.
  - subst. reflexivity.
Qed.

Lemma is_zero_false (q : Qc) : is_zero q = false <-> q <> 0.
Proof.
  rewrite <- is_zero_true. destruct (is_zero q); split; congruence.
Qed.

Lemma Qc_ltb_lt (a b : Qc) : Qc_ltb a b = true <-> a < b.
Proof.
  unfold Qc_ltb, Qclt, Qccompare. rewrite Qlt_alt.
  destruct (a ?= b)%Q; split; congruence.
Qed.

Lemma Qc_ltb_ge (a b : Qc) : Qc_ltb a b = false <-> b <= a.
Proof.
  split; intro H.
  - apply Qcnot_lt_le. intro L. apply Qc_ltb_lt in L. congruence.
  - destruct (Qc_ltb a b) eqn:E; [|reflexivity].
    apply Qc_ltb_lt in E. exfalso. eapply Qcle_not_lt; eauto.
Qed.

Lemma Qc_mult_nonneg (a b : Qc) : 0 <= a -> 0 <= b -> 0 <= a * b.
Proof.
  unfold Qcle. intros. rewrite this_mult. cbn [this Q2Qc] in *.
  change (Qred 0) with 0%Q in *. nra.
Qed.

Lemma Qc_plus_nonneg (a b : Qc) : 0 <= a -> 0 <= b -> 0 <= a + b.
Proof.
  unfold Qcle. intros. rewrite this_plus. cbn [this Q2Qc] in *.
  change (Qred 0) with 0%Q in *. lra.
Qed.

Lemma Qc_plus_zero_l (a b : Qc) : 0 <= a -> 0 <= b -> a + b = 0 -> a = 0.
Proof.
  intros Ha Hb H. apply Qc_is_canon.
  assert (H' : (a + b == 0)%Q) by (rewrite <- this_plus, H; reflexivity).
  unfold Qcle in *. cbn [this Q2Qc] in *. change (Qred 0) with 0%Q in *. lra.
Qed.

Lemma Qc_plus_zero_r (a b : Qc) : 0 <= a -> 0 <= b -> a + b = 0 -> b = 0.
Proof.
  intros Ha Hb H. rewrite Qcplus_comm in H. exact (Qc_plus_zero_l b a Hb Ha H).
Qed.

Lemma Qc_inv_nonneg (a : Qc) : 0 <= a -> 0 <= / a.
Proof.
  unfold Qcle, Qcinv, Q2Qc. cbn [this]. intro Ha.
  change (Qred 0) with 0%Q in *.
  assert (H : (0 <= / a)%Q) by now apply Qinv_le_0_compat.
  now rewrite Qred_correct.
Qed.

Lemma Qc_div_nonneg (a b : Qc) : 0 <= a -> 0 <= b -> 0 <= a / b.
Proof.
  intros. unfold Qcdiv. apply Qc_mult_nonneg; [assumption|].
  now apply Qc_inv_nonneg.
Qed.

Lemma qsum_nonneg (l : list Qc) : Forall (Qcle 0) l -> 0 <= qsum l.
Proof.
  induction 1; cbn; [apply Qcle_refl|]. now apply Qc_plus_nonneg.
Qed.

Lemma qsum_zero (l : list Qc) :
  Forall (Qcle 0) l -> qsum l = 0 -> Forall (eq 0) l.
Proof.
  induction 1 as [|x l Hx Hl IH]; cbn; intro H; constructor.
  - symmetry. apply (Qc_plus_zero_l x (qsum l) Hx (qsum_nonneg l Hl) H).
  - apply IH. apply (Qc_plus_zero_r x (qsum l) Hx (qsum_nonneg l Hl) H).
Qed.

Lemma qsum_app (l l' : list Qc) : qsum (l ++ l') = qsum l + qsum l'.
Proof. induction l; cbn; [ring|]. rewrite IHl. ring. Qed.

Lemma qsum_div (c : Qc) (l : list Qc) :
  qsum (map (fun x => x / c) l) = qsum l / c.
Proof.
  induction l; cbn.
  - unfold Qcdiv. ring.
  - rewrite IHl. unfold Qcdiv. ring.
Qed.

(* ================================================================== *)
(** ** Sums of finite numbers *)
(* ================================================================== *)

Lemma npsum_acc (a : Qc) (l : list Qc) :
  fold_left nadd (map Fin l) (Fin a) = Fin (a + qsum l).
Proof.
  revert a. induction l as [|x l IH]; intro a; cbn.
  - f_equal. ring.
  - rewrite IH. f_equal. ring.
Qed.

Lemma npsum_fin (l : list Qc) : npsum (map Fin l) = Fin (qsum l).
Proof. unfold npsum. rewrite npsum_acc. f_equal. ring. Qed.

Lemma nansum_acc (a : Qc) (l : list Qc) :
  fold_left (fun acc x => nadd acc (nan_to_zero x)) (map Fin l) (Fin a)
  = Fin (a + qsum l).
Proof.
  revert a. induction l as [|x l IH]; intro a; cbn.
  - f_equal. ring.
  - rewrite IH. f_equal. ring.
Qed.

Lemma nansum_fin (l : list Qc) : nansum (map Fin l) = Fin (qsum l).
Proof. unfold nansum. rewrite nansum_acc. f_equal. ring. Qed.

Lemma map_fin {A} (f : A -> num) (g : A -> Qc) (l : list A) :
  (forall x, In x l -> f x = Fin (g x)) -> map f l = map Fin (map g l).
Proof.
  intro H. rewrite map_map. apply map_ext_in. exact H.
Qed.

Lemma nansum_map_fin {A} (f : A -> num) (g : A -> Qc) (l : list A) :
  (forall x, In x l -> f x = Fin (g x)) ->
  nansum (map f l) = Fin (qsum (map g l)).
Proof. intro H. rewrite (map_fin f g l H). apply nansum_fin. Qed.

Lemma npsum_map_fin {A} (f : A -> num) (g : A -> Qc) (l : list A) :
  (forall x, In x l -> f x = Fin (g x)) ->
  npsum (map f l) = Fin (qsum (map g l)).
Proof. intro H. rewrite (map_fin f g l H). apply npsum_fin. Qed.

Lemma nansum_all_nan {A} (f : A -> num) (l : list A) :
  (forall x, In x l -> f x = NaN) -> nansum (map f l) = Fin 0.
Proof.
  intro H. unfold nansum.
  induction l as [|x l IH]; cbn; [reflexivity|].
  rewrite (H x (or_introl eq_refl)). cbn.
  replace (0 + 0) with 0 by ring. apply IH.
  intros y Hy. apply H. now right.
Qed.

Lemma npsum_nan_acc (l : list num) : fold_left nadd l NaN = NaN.
Proof. induction l; cbn; auto. Qed.

Lemma npsum_has_nan (l : list num) : In NaN l -> npsum l = NaN.
Proof.
  unfold npsum. generalize (Fin 0).
  induction l as [|x l IH]; intros a H; [destruct H|].
  cbn. destruct H as [->|H].
  - replace (nadd a NaN) with NaN by (destruct a; reflexivity).
    apply npsum_nan_acc.
  - now apply IH.
Qed.

Lemma nmul_nan_l (x : num) : nmul NaN x = NaN.
Proof. destruct x; reflexivity. Qed.

Lemma ndiv_nan_l (x : num) : ndiv NaN x = NaN.
Proof. destruct x; reflexivity. Qed.

Lemma ndiv_fin (a b : Qc) : b <> 0 -> ndiv (Fin a) (Fin b) = Fin (a / b).
Proof.
  intro H. cbn. apply is_zero_false in H. now rewrite H.
Qed.

Lemma ndiv_zero_zero : ndiv (Fin 0) (Fin 0) = NaN.
Proof. reflexivity. Qed.

Lemma num_eqb_eq (x y : num) : num_eqb x y = true <-> x = y.
Proof.
  destruct x, y; cbn; split; intro H; try congruence; try reflexivity.
  - f_equal. now apply Qc_eq_bool_correct.
  - inversion H. subst. unfold Qc_eq_bool. destruct (Qc_eq_dec q0 q0); congruence.
Qed.

(* ================================================================== *)
(** ** Strings, keys and dictionaries *)
(* ================================================================== *)

Lemma mem_In (k : string) (ks : list string) : mem k ks = true <-> In k ks.
Proof.
  unfold mem. rewrite existsb_exists. split.
  - intros [x [Hx E]]. apply String.eqb_eq in E. now subst.
  - intro H. exists k. split; [assumption|apply String.eqb_refl].
Qed.

Lemma mem_notIn (k : string) (ks : list string) :
  mem k ks = false <-> ~ In k ks.
Proof.
  rewrite <- mem_In. destruct (mem k ks); split; congruence.
Qed.

Lemma nodupb_NoDup (ks : list string) : nodupb ks = true <-> NoDup ks.
Proof.
  induction ks as [|k ks IH]; cbn.
  - split; [constructor|reflexivity].
  - rewrite andb_true_iff, negb_true_iff, mem_notIn, IH.
    split; [intros [? ?]; now constructor|inversion 1; now split].
Qed.

Lemma get_In_keys {V} (d : dict V) (k : string) :
  In k (keys d) <-> exists v, get d k = Some v.
Proof.
  induction d as [|[k' v'] d IH]; cbn.
  - split; [tauto|intros [? ?]; discriminate].
  - destruct (String.eqb k k') eqn:E.
    + apply String.eqb_eq in E. subst. split; eauto.
    + apply String.eqb_neq in E. rewrite <- IH. split; [|tauto].
      intros [?|?]; [congruence|assumption].
Qed.

Lemma get_None {V} (d : dict V) (k : string) :
  ~ In k (keys d) <-> get d k = None.
Proof.
  rewrite get_In_keys. destruct (get d k); split; try congruence; eauto.
  - intro H. exfalso. apply H. eauto.
  - intros _ [? ?]. discriminate.
Qed.

Lemma get_app_l {V} (d d' : dict V) (k : string) :
  In k (keys d) -> get (d ++ d') k = get d k.
Proof.
  induction d as [|[k' v'] d IH]; cbn; [tauto|].
  destruct (String.eqb k k') eqn:E; [reflexivity|].
  apply String.eqb_neq in E. intros [?|?]; [congruence|auto].
Qed.

Lemma get_app_r {V} (d d' : dict V) (k : string) :
  ~ In k (keys d) -> get (d ++ d') k = get d' k.
Proof.
  induction d as [|[k' v'] d IH]; cbn; [reflexivity|].
  intro H. destruct (String.eqb k k') eqn:E.
  - apply String.eqb_eq in E. subst. tauto.
  - apply IH. tauto.
Qed.

Lemma get_In {V} (d : dict V) (k : string) (v : V) :
  get d k = Some v -> In (k, v) d.
Proof.
  induction d as [|[k' v'] d IH]; cbn; [discriminate|].
  destruct (String.eqb k k') eqn:E.
  - apply String.eqb_eq in E. intros [= ->]. subst. now left.
  - intro H. right. auto.
Qed.

Lemma In_get {V} (d : dict V) (k : string) (v : V) :
  NoDup (keys d) -> In (k, v) d -> get d k = Some v.
Proof.
  induction d as [|[k' v'] d IH]; cbn; [tauto|].
  intros Hnd [H|H].
  - inversion H. subst. now rewrite String.eqb_refl.
  - inversion Hnd as [|? ? Hn Hnd']. subst.
    destruct (String.eqb k k') eqn:E.
    + apply String.eqb_eq in E. subst. exfalso. apply Hn.
      change k' with (fst (k', v)). now apply in_map.
    + auto.
Qed.

Lemma keys_app {V} (d d' : dict V) : keys (d ++ d') = keys d ++ keys d'.
Proof. apply map_app. Qed.

Lemma values_app {V} (d d' : dict V) :
  values (d ++ d') = values d ++ values d'.
Proof. apply map_app. Qed.

Lemma filter_all {A} (p : A -> bool) (l : list A) :
  (forall x, In x l -> p x = true) -> filter p l = l.
Proof.
  induction l as [|x l IH]; cbn; intro H; [reflexivity|].
  rewrite (H x (or_introl eq_refl)). f_equal. apply IH. auto.
Qed.

Lemma filter_none {A} (p : A -> bool) (l : list A) :
  (forall x, In x l -> p x = false) -> filter p l = [].
Proof.
  induction l as [|x l IH]; cbn; intro H; [reflexivity|].
  rewrite (H x (or_introl eq_refl)). apply IH. auto.
Qed.

Lemma filter_filter {A} (p q : A -> bool) (l : list A) :
  filter p (filter q l) = filter (fun x => q x && p x) l.
Proof.
  induction l as [|x l IH]; cbn; [reflexivity|].
  destruct (q x); cbn; [destruct (p x)|]; now rewrite IH.
Qed.

Lemma get_filter {V} (p : string -> bool) (d : dict V) (k : string) :
  p k = true -> get (filter (fun kv => p (fst kv)) d) k = get d k.
Proof.
  intro Hp. induction d as [|[k' v'] d IH]; cbn; [reflexivity|].
  destruct (p k') eqn:E; cbn.
  - now rewrite IH.
  - destruct (String.eqb k k') eqn:E'; [|assumption].
    apply String.eqb_eq in E'. congruence.
Qed.

Lemma keys_filter {V} (p : string -> bool) (d : dict V) :
  keys (filter (fun kv => p (fst kv)) d) = filter p (keys d).
Proof.
  unfold keys. induction d as [|[k' v'] d IH]; cbn; [reflexivity|].
  destruct (p k'); cbn; now rewrite IH.
Qed.

(* ================================================================== *)
(** ** Index spaces and environments *)
(* ================================================================== *)

Lemma In_indices (shape : list nat) (idx : list nat) :
  In idx (indices shape) <-> Forall2 lt idx shape.
Proof.
  revert idx. induction shape as [|n s IH]; intro idx; cbn.
  - split.
    + intros [<-|[]]. constructor.
    + inversion 1. now left.
  - rewrite in_flat_map. split.
    + intros [i [Hi H]]. apply in_seq in Hi. apply in_map_iff in H.
      destruct H as [idx' [<- H]]. constructor; [lia|]. now apply IH.
    + inversion 1 as [|i ? idx' ? Hi H']. subst. exists i. split.
      * apply in_seq. lia.
      * apply in_map. now apply IH.
Qed.

Lemma indices_length (shape idx : list nat) :
  In idx (indices shape) -> List.length idx = List.length shape.
Proof. rewrite In_indices. apply Forall2_length. Qed.

Lemma length_flat_map_const {A B} (f : A -> list B) (m : nat) (l : list A) :
  (forall x, List.length (f x) = m) ->
  List.length (flat_map f l) = (List.length l * m)%nat.
Proof.
  intro H. induction l as [|x l IH]; cbn; [reflexivity|].
  rewrite length_app, H, IH. reflexivity.
Qed.

Lemma length_indices (shape : list nat) :
  List.length (indices shape) = size_of shape.
Proof.
  induction shape as [|n s IH]; cbn; [reflexivity|].
  rewrite (length_flat_map_const _ (size_of s)).
  - now rewrite length_seq.
  - intro. now rewrite length_map.
Qed.

Lemma nth_error_blocks {A} (f : nat -> list A) (m : nat) :
  (forall j, List.length (f j) = m) ->
  forall n a i, (i < n * m)%nat ->
    nth_error (flat_map f (seq a n)) i
    = nth_error (f (a + i / m)%nat) (i mod m)%nat.
Proof.
  intros Hf. induction n as [|n IH]; intros a i Hi; [lia|].
  assert (Hm : (m <> 0)%nat) by (intro; subst; lia).
  cbn [seq flat_map]. destruct (Nat.lt_ge_cases i m) as [Hlt|Hge].
  - rewrite nth_error_app1 by (rewrite Hf; exact Hlt).
    rewrite Nat.div_small, Nat.mod_small by exact Hlt.
    now rewrite Nat.add_0_r.
  - rewrite nth_error_app2 by (rewrite Hf; exact Hge).
    rewrite Hf, IH by (cbn in Hi; lia).
    replace i with ((i - m) + 1 * m)%nat at 3 4 by lia.
    rewrite Nat.div_add, Nat.Div0.mod_add by exact Hm.
    f_equal. f_equal. lia.
Qed.

Lemma nth_error_indices (shape : list nat) (i : nat) :
  (i < size_of shape)%nat ->
  nth_error (indices shape) i = Some (unravel i shape).
Proof.
  revert i. induction shape as [|n s IH]; intros i Hi.
  - cbn in *. replace i with 0%nat by lia. reflexivity.
  - cbn [indices unravel].
    change (size_of (n :: s)) with (n * size_of s)%nat in Hi.
    rewrite (nth_error_blocks _ (size_of s)).
    + rewrite nth_error_map, IH; [reflexivity|].
      apply Nat.mod_upper_bound. intro E. rewrite E in Hi. lia.
    + intro. now rewrite length_map, length_indices.
    + exact Hi.
Qed.

Lemma upd_same (e : env) (k : string) (i : nat) : upd e k i k = i.
Proof. unfold upd. now rewrite String.eqb_refl. Qed.

Lemma upd_other (e : env) (k k' : string) (i : nat) :
  k' <> k -> upd e k i k' = e k'.
Proof. unfold upd. intro H. apply String.eqb_neq in H. now rewrite H. Qed.

Lemma bind_env_notin (e : env) (ks : list string) (idx : list nat)
      (k : string) :
  ~ In k ks -> bind_env e ks idx k = e k.
Proof.
  revert idx. induction ks as [|k' ks IH]; intros idx H; [reflexivity|].
  destruct idx as [|i idx]; [reflexivity|]. cbn in *.
  rewrite upd_other by (intro; subst; tauto). apply IH. tauto.
Qed.

(** two bindings of the same positions agree on the bound axes, and wherever
    the environments below agree *)
Lemma bind_env_agree (e e' : env) (ks : list string) (idx : list nat)
      (k : string) :
  (In k ks /\ List.length idx = List.length ks) \/ e k = e' k ->
  bind_env e ks idx k = bind_env e' ks idx k.
Proof.
  revert idx. induction ks as [|k' ks IH]; intros idx H.
  - cbn. destruct H as [[[] _]|H]. exact H.
  - destruct idx as [|i idx].
    + cbn. destruct H as [[_ H]|H]; [discriminate|exact H].
    + cbn. unfold upd. destruct (String.eqb k k') eqn:E; [reflexivity|].
      apply String.eqb_neq in E. apply IH.
      destruct H as [[[H|H] Hl]|H]; [congruence| |now right].
      left. split; [assumption|]. cbn in Hl. lia.
Qed.

Lemma bind_env_bind (e : env) (ks : list string) (idx idx' : list nat) :
  List.length idx = List.length idx' ->
  bind_env (bind_env e ks idx') ks idx = bind_env e ks idx.
Proof.
  intro Hl. apply functional_extensionality. intro k.
  revert idx idx' Hl. induction ks as [|k' ks IH]; intros idx idx' Hl.
  - reflexivity.
  - destruct idx as [|i idx], idx' as [|i' idx']; try discriminate.
    + reflexivity.
    + cbn. unfold upd at 1 3. destruct (String.eqb k k') eqn:E; [reflexivity|].
      apply String.eqb_neq in E.
      transitivity (bind_env (bind_env e ks idx') ks idx k).
      * apply bind_env_agree. right. cbn. now apply upd_other.
      * apply IH. cbn in Hl. lia.
Qed.

(** the value of a cell of a local tensor is fixed by the positions on its
    axes *)
Lemma local_bind (a : DataArray) (e e' : env) (ks : list string)
      (idx : list nat) :
  local a ->
  List.length idx = List.length ks ->
  (forall k, In k (dims a) -> In k ks \/ e k = e' k) ->
  data a (bind_env e ks idx) = data a (bind_env e' ks idx).
Proof.
  intros Hloc Hl H. apply Hloc. intros k Hk. apply bind_env_agree.
  destruct (H k Hk); [left|right]; auto.
Qed.

(* ================================================================== *)
(** ** Selection by label *)
(* ================================================================== *)

Lemma present_true (v : pyval) (l : list pyval) :
  present v l = true <-> exists i, index_of v l = Some i.
Proof.
  unfold present. destruct (index_of v l); split; eauto; try congruence.
  intros [? ?]. discriminate.
Qed.


Lemma da_sel1_ok (a : DataArray) (k : string) (v : pyval) (l : list pyval) :
  get (coords a) k = Some l -> present v l = true ->
  da_sel1 a k v =
  OK {| coords := filter (fun kv => negb (String.eqb (fst kv) k)) (coords a);
        data := fun e => data a (upd e k (position (coords a) k v)) |}.
Proof.
  intros Hg Hp. apply present_true in Hp. destruct Hp as [i Hi].
  unfold da_sel1, position. now rewrite Hg, Hi.
Qed.

Lemma da_eq (c c' : dict (list pyval)) (f f' : env -> num) :
  c = c' -> (forall e, f e = f' e) ->
  {| coords := c; data := f |} = {| coords := c'; data := f' |}.
Proof.
  intros -> H. f_equal. now apply functional_extensionality.
Qed.

Lemma da_sel_ok (kw : dict pyval) :
  forall a : DataArray,
    NoDup (keys kw) ->
    (forall k v, In (k, v) kw ->
                 exists l, get (coords a) k = Some l /\ present v l = true) ->
    da_sel a kw =
    OK {| coords := filter (fun kv => negb (mem (fst kv) (keys kw))) (coords a);
          data := fun e => data a (slice_env (coords a) kw e) |}.
Proof.
  induction kw as [|[k v] kw IH]; intros a Hnd H.
  - cbn. destruct a as [c f]. f_equal. apply da_eq; [|reflexivity].
    cbn. symmetry. now apply filter_all.
  - inversion Hnd as [|? ? Hk Hnd']. subst.
    destruct (H k v (or_introl eq_refl)) as [l [Hg Hp]].
    cbn [da_sel]. rewrite (da_sel1_ok a k v l Hg Hp). cbn [rbind].
    assert (Hget : forall k', In k' (keys kw) ->
              get (filter (fun kv => negb (String.eqb (fst kv) k)) (coords a)) k'
              = get (coords a) k').
    { intros k' Hk'. apply (get_filter (fun x => negb (String.eqb x k))).
      apply negb_true_iff, String.eqb_neq. intro. subst. tauto. }
    rewrite IH; [|assumption|].
    + f_equal. apply da_eq.
      * cbn [coords]. rewrite filter_filter. apply filter_ext.
        intros [k' v']. cbn. now rewrite negb_orb.
      * intro e. cbn [coords data]. f_equal. unfold slice_env. cbn.
        f_equal. f_equal. apply map_ext_in. intros [k' v'] Hin.
        unfold position. cbn [fst snd]. rewrite Hget; [reflexivity|].
        change k' with (fst (k', v')). now apply in_map.
    + intros k' v' Hin. cbn [coords]. rewrite Hget.
      * apply H. now right.
      * change k' with (fst (k', v')). now apply in_map.
Qed.


(* ================================================================== *)
(** ** The trial history *)
(* ================================================================== *)

Lemma dict_append_ok (h : dict (list pyval)) (k : string) (v : pyval) :
  NoDup (keys h) -> In k (keys h) ->
  dict_append h k v =
  OK (map (fun kl => if String.eqb (fst kl) k
                     then (fst kl, snd kl ++ [v]) else kl) h).
Proof.
  induction h as [|[k' l] h IH]; intros Hnd Hin; [destruct Hin|].
  inversion Hnd as [|? ? Hk' Hnd']. subst. cbn [dict_append map fst snd].
  rewrite (String.eqb_sym k' k).
  destruct (String.eqb k k') eqn:E.
  - apply String.eqb_eq in E. subst. do 2 f_equal.
    symmetry. rewrite <- (map_id h) at 2. apply map_ext_in.
    intros [k'' l''] Hin'. cbn.
    destruct (String.eqb k'' k') eqn:E'; [|reflexivity].
    apply String.eqb_eq in E'. subst. exfalso. apply Hk'.
    change k' with (fst (k', l'')). now apply in_map.
  - apply String.eqb_neq in E. rewrite IH; [reflexivity|assumption|].
    cbn in Hin. destruct Hin; [congruence|assumption].
Qed.

Lemma set_stim_history_id (st : QuestPlus) :
  set_stim_history st (stim_history st) = st.
Proof. destruct st. reflexivity. Qed.

Lemma keys_logged (stim : dict pyval) (h : dict (list pyval)) :
  keys (logged stim h) = keys h.
Proof. unfold logged, keys. rewrite map_map. reflexivity. Qed.

Lemma log_stim_ok (stim : dict pyval) :
  forall st : QuestPlus,
    NoDup (keys stim) ->
    NoDup (keys (stim_history st)) ->
    incl (keys stim) (keys (stim_history st)) ->
    log_stim stim st =
    (OK tt, set_stim_history st (logged stim (stim_history st))).
Proof.
  induction stim as [|[k v] stim IH]; intros st Hnd Hh Hincl.
  - cbn. unfold ret. f_equal.
    rewrite <- (set_stim_history_id st) at 1. f_equal.
    unfold logged. cbn. rewrite <- (map_id (stim_history st)) at 1.
    apply map_ext. now intros [? ?].
  - inversion Hnd as [|? ? Hk Hnd']. subst.
    cbn [log_stim]. unfold bind, read, lift, write.
    rewrite dict_append_ok; [|assumption|apply Hincl; now left].
    set (h1 := map _ (stim_history st)).
    assert (Hk1 : keys h1 = keys (stim_history st)).
    { unfold h1, keys. rewrite map_map. apply map_ext.
      intros [k' l']. cbn. now destruct (String.eqb k' k). }
    rewrite IH; cbn [stim_history set_stim_history].
    + f_equal. unfold set_stim_history. cbn. f_equal.
      unfold h1, logged. rewrite map_map. apply map_ext.
      intros [k' l']. cbn [fst snd get].
      destruct (String.eqb k' k) eqn:E; cbn [fst snd]; [|reflexivity].
      apply String.eqb_eq in E. subst.
      apply get_None in Hk. now rewrite Hk.
    + assumption.
    + now rewrite Hk1.
    + rewrite Hk1. intros x Hx. apply Hincl. now right.
Qed.

(* ================================================================== *)
(** ** One call of [update] *)
(* ================================================================== *)

Lemma valid_call_inv (st : QuestPlus) (stim outcome : dict pyval) :
  valid_call st stim outcome = true ->
  exists ok ol ov,
    outcome_axis st = Some (ok, ol) /\ outcome = [(ok, ov)] /\
    present ov ol = true /\
    NoDup (keys stim) /\
    (forall k, In k (keys (stim_domain st)) -> In k (keys stim)) /\
    (forall k v, In (k, v) stim ->
                 exists l, get (stim_domain st) k = Some l /\
                           present v l = true).
Proof.
  unfold valid_call. rewrite !andb_true_iff. intros [[[Hnd Hall] Hin] Ho].
  destruct outcome as [|[k v] [|? ?]]; try discriminate.
  destruct (outcome_axis st) as [[k' l]|] eqn:Hax; try discriminate.
  apply andb_true_iff in Ho. destruct Ho as [Hk Hp].
  apply String.eqb_eq in Hk. subst k'.
  exists k, l, v. repeat split; try assumption.
  - now apply nodupb_NoDup.
  - intros k0 Hk0. rewrite forallb_forall in Hall. apply mem_In. now apply Hall.
  - intros k0 v0 H0. rewrite forallb_forall in Hin. specialize (Hin _ H0).
    cbn in Hin. destruct (get (stim_domain st) k0); [eauto|discriminate].
Qed.

(** the axes of the likelihood tensor of a well-formed engine *)
Lemma wf_axes (st : QuestPlus) :
  well_formed st ->
  exists ok ol,
    outcome_axis st = Some (ok, ol) /\
    coords (likelihoods st) = (ok, ol) :: stim_domain st ++ param_domain st /\
    NoDup (keys (stim_domain st)) /\ NoDup (keys (param_domain st)) /\
    ~ In ok (keys (stim_domain st)) /\ ~ In ok (keys (param_domain st)) /\
    (forall k, In k (keys (stim_domain st)) ->
               ~ In k (keys (param_domain st))).
Proof.
  intros [[[ok ol] [Hax Hc]] _ Hnd _ _ _].
  exists ok, ol. split; [assumption|]. split; [assumption|].
  unfold dims in Hnd. rewrite Hc in Hnd. cbn in Hnd.
  fold (keys (stim_domain st ++ param_domain st)) in Hnd.
  rewrite keys_app in Hnd. inversion Hnd as [|? ? Hn Hnd']. subst.
  rewrite in_app_iff in Hn.
  split; [eapply NoDup_app_remove_r; eauto|].
  split; [eapply NoDup_app_remove_l; eauto|].
  split; [tauto|]. split; [tauto|].
  intros k Hs Hp. revert Hnd' Hs Hp. generalize (keys (stim_domain st)).
  induction l as [|x l IH]; cbn; intros Hnd' Hs Hp; [assumption|].
  inversion Hnd'. subst. destruct Hs as [->|Hs].
  - rewrite in_app_iff in *. tauto.
  - auto.
Qed.

Lemma slice_coords (st : QuestPlus) (stim outcome : dict pyval) :
  well_formed st -> valid_call st stim outcome = true ->
  filter (fun kv => negb (mem (fst kv) (keys (stim ++ outcome))))
         (coords (likelihoods st)) = param_domain st.
Proof.
  intros Hwf Hv.
  destruct (wf_axes st Hwf) as [ok [ol [Hax [Hc [Hns [Hnp [Hos [Hop Hsp]]]]]]]].
  destruct (valid_call_inv st stim outcome Hv)
    as [ok' [ol' [ov [Hax' [-> [Hpo [Hnd [Hall Hin]]]]]]]].
  rewrite Hax in Hax'. inversion Hax'. subst ok' ol'.
  rewrite Hc, keys_app. cbn [filter fst keys map].
  replace (mem ok (keys stim ++ [ok])) with true
    by (symmetry; apply mem_In, in_app_iff; right; now left).
  cbn [negb]. rewrite filter_app.
  rewrite (filter_none _ (stim_domain st)), (filter_all _ (param_domain st)).
  - reflexivity.
  - intros [k l] Hk. apply negb_true_iff, mem_notIn. cbn [fst].
    assert (Hkp : In k (keys (param_domain st)))
      by (change k with (fst (k, l)); now apply in_map).
    rewrite in_app_iff. intros [H|[H|[]]].
    + apply in_map_iff in H. destruct H as [[k' v'] [E H]]. cbn in E. subst k'.
      destruct (Hin _ _ H) as [l' [Hg _]].
      apply (Hsp k); [|assumption]. apply get_In_keys. eauto.
    + congruence.
  - intros [k l] Hk. apply negb_false_iff, mem_In. cbn [fst].
    apply in_app_iff. left. apply Hall.
    change k with (fst (k, l)). now apply in_map.
Qed.

Lemma update_sel (st : QuestPlus) (stim outcome : dict pyval) :
  well_formed st -> valid_call st stim outcome = true ->
  kwargs stim outcome = OK (stim ++ outcome) /\
  da_sel (likelihoods st) (stim ++ outcome) =
  OK {| coords := param_domain st;
        data := fun e => data (likelihoods st)
                  (slice_env (coords (likelihoods st)) (stim ++ outcome) e) |}.
Proof.
  intros Hwf Hv.
  destruct (wf_axes st Hwf) as [ok [ol [Hax [Hc [Hns [Hnp [Hos [Hop Hsp]]]]]]]].
  destruct (valid_call_inv st stim outcome Hv)
    as [ok' [ol' [ov [Hax' [Ho [Hpo [Hnd [Hall Hin]]]]]]]].
  rewrite Hax in Hax'. inversion Hax'. subst ok' ol'.
  assert (Hstim : forall k, In k (keys stim) -> In k (keys (stim_domain st))).
  { intros k Hk. apply in_map_iff in Hk. destruct Hk as [[k' v] [E Hk]].
    cbn in E. subst k'. destruct (Hin _ _ Hk) as [l [Hg _]].
    apply get_In_keys. eauto. }
  assert (Hok : ~ In ok (keys stim)) by (intro H; apply Hos; auto).
  split.
  - unfold kwargs. subst outcome. cbn.
    apply mem_notIn in Hok. now rewrite Hok.
  - rewrite da_sel_ok.
    + now rewrite (slice_coords st stim outcome Hwf Hv).
    + subst outcome. rewrite keys_app. cbn.
      apply NoDup_app; [assumption|repeat constructor; intros []|].
      intros k Hk [<-|[]]. tauto.
    + intros k v Hk. rewrite Hc. apply in_app_iff in Hk.
      destruct Hk as [Hk|Hk].
      * destruct (Hin _ _ Hk) as [l [Hg Hp]]. exists l. split; [|assumption].
        cbn [get]. assert (Hks : In k (keys (stim_domain st)))
          by (apply get_In_keys; eauto).
        destruct (String.eqb k ok) eqn:E.
        -- apply String.eqb_eq in E. subst. tauto.
        -- now rewrite get_app_l.
      * subst outcome. destruct Hk as [Hk|[]]. inversion Hk. subst.
        exists ol. cbn [get]. now rewrite String.eqb_refl.
Qed.

Lemma filter_self_keys {V} (d : dict V) :
  filter (fun kv => negb (mem (fst kv) (keys d))) d = [].
Proof.
  apply filter_none. intros [k v] H. apply negb_false_iff, mem_In.
  change k with (fst (k, v)). now apply in_map.
Qed.

Lemma update_posterior (st : QuestPlus) (stim outcome : dict pyval) :
  coords (posterior st) = param_domain st ->
  let likelihood :=
    {| coords := param_domain st;
       data := fun e => data (likelihoods st)
                 (slice_env (coords (likelihoods st)) (stim ++ outcome) e) |} in
  let p := da_mul (posterior st) likelihood in
  da_idiv p (da_sum_all p) = bayes st stim outcome.
Proof.
  intros Hc likelihood p.
  assert (Hp : p = {| coords := param_domain st;
                      data := joint_cell st stim outcome |}).
  { unfold p, da_mul, dims. cbn [coords data]. rewrite Hc.
    apply da_eq; [|reflexivity].
    rewrite filter_self_keys. apply app_nil_r. }
  rewrite Hp. unfold da_idiv, da_sum_all, bayes, evidence_at, dims, shape.
  reflexivity.
Qed.

Lemma NoDup_hist (st : QuestPlus) :
  well_formed st -> NoDup (keys (stim_history st)).
Proof.
  intro Hwf. destruct (wf_axes st Hwf) as [? [? [_ [_ [H _]]]]].
  now rewrite (wf_hist st Hwf).
Qed.

(** what a valid call of [update] does *)
Lemma update_ok (st : QuestPlus) (stim outcome : dict pyval) :
  well_formed st -> valid_call st stim outcome = true ->
  update stim outcome st =
  (OK tt,
   set_resp_history
     (set_stim_history (set_posterior st (bayes st stim outcome))
                       (logged stim (stim_history st)))
     (resp_history st ++ [outcome])).
Proof.
  intros Hwf Hv.
  destruct (update_sel st stim outcome Hwf Hv) as [Hkw Hsel].
  destruct (valid_call_inv st stim outcome Hv)
    as [ok [ol [ov [Hax [Ho [Hpo [Hnd [Hall Hin]]]]]]]].
  unfold update, bind, lift, read, write. rewrite Hkw, Hsel.
  cbn [posterior set_posterior].
  rewrite (update_posterior st stim outcome (wf_post st Hwf)).
  rewrite log_stim_ok; cbn [stim_history set_posterior]; try assumption.
  - reflexivity.
  - now apply NoDup_hist.
  - rewrite (wf_hist st Hwf). intros k Hk.
    apply in_map_iff in Hk. destruct Hk as [[k' v] [E Hk]].
    cbn in E. subst k'. destruct (Hin _ _ Hk) as [l [Hg _]].
    apply get_In_keys. eauto.
Qed.

Lemma set_entropy_id (st : QuestPlus) : set_entropy st (entropy st) = st.
Proof. destruct st. reflexivity. Qed.

(** [next_stim] writes the entropy scalar and nothing else *)
Lemma next_stim_frame (ln : Qc -> Qc) (st : QuestPlus) :
  snd (next_stim ln st) = set_entropy st (entropy (snd (next_stim ln st))).
Proof.
  unfold next_stim, bind, read, lift, write, ret. cbn.
  repeat match goal with
         | |- context [match ?r with OK _ => _ | Raise _ => _ end] =>
             destruct r; cbn
         | |- context [if ?b then _ else _] => destruct b; cbn
         end;
    try reflexivity; symmetry; apply set_entropy_id.
Qed.

(* ================================================================== *)
(** ** Well-formedness is kept; cells stay finite on possible trials *)
(* ================================================================== *)

Lemma slice_env_agree (st : QuestPlus) (stim outcome : dict pyval)
      (e e' : env) :
  well_formed st -> valid_call st stim outcome = true ->
  (forall k, In k (keys (param_domain st)) -> e k = e' k) ->
  data (likelihoods st)
       (slice_env (coords (likelihoods st)) (stim ++ outcome) e)
  = data (likelihoods st)
         (slice_env (coords (likelihoods st)) (stim ++ outcome) e').
Proof.
  intros Hwf Hv Hee. unfold slice_env.
  apply local_bind; [apply (wf_local_lik st Hwf)|unfold keys; now rewrite !length_map|].
  intros k Hk.
  destruct (In_dec string_dec k (keys (stim ++ outcome))) as [Hin|Hout];
    [now left|right].
  apply Hee.
  pose proof (slice_coords st stim outcome Hwf Hv) as Hs.
  rewrite <- Hs.
  rewrite (keys_filter (fun k => negb (mem k (keys (stim ++ outcome))))).
  apply filter_In. split; [exact Hk|].
  now apply negb_true_iff, mem_notIn.
Qed.

Lemma joint_cell_agree (st : QuestPlus) (stim outcome : dict pyval)
      (e e' : env) :
  well_formed st -> valid_call st stim outcome = true ->
  (forall k, In k (keys (param_domain st)) -> e k = e' k) ->
  joint_cell st stim outcome e = joint_cell st stim outcome e'.
Proof.
  intros Hwf Hv Hee. unfold joint_cell. f_equal.
  - apply (wf_local_post st Hwf). unfold dims.
    now rewrite (wf_post st Hwf).
  - now apply slice_env_agree.
Qed.

(** sum(P * L) does not depend on where it is read *)
Lemma evidence_const (st : QuestPlus) (stim outcome : dict pyval) (e : env) :
  well_formed st -> valid_call st stim outcome = true ->
  evidence_at st stim outcome e = evidence st stim outcome.
Proof.
  intros Hwf Hv. unfold evidence, evidence_at. f_equal.
  apply map_ext_in. intros idx Hidx.
  apply joint_cell_agree; try assumption.
  intros k Hk. apply bind_env_agree. left. split; [assumption|].
  rewrite (indices_length _ _ Hidx). unfold axis_shape, keys, values.
  now rewrite !length_map.
Qed.

Lemma bayes_local (st : QuestPlus) (stim outcome : dict pyval) :
  well_formed st -> valid_call st stim outcome = true ->
  local (bayes st stim outcome).
Proof.
  intros Hwf Hv e e' Hee. cbn [bayes data]. f_equal.
  - apply joint_cell_agree; assumption.
  - now rewrite !evidence_const.
Qed.

Lemma update_wf (st : QuestPlus) (stim outcome : dict pyval) :
  well_formed st -> valid_call st stim outcome = true ->
  well_formed (snd (update stim outcome st)).
Proof.
  intros Hwf Hv. rewrite (update_ok st stim outcome Hwf Hv). cbn [snd].
  constructor.
  - apply (wf_lik st Hwf).
  - reflexivity.
  - apply (wf_nodup st Hwf).
  - cbn [stim_history stim_domain set_resp_history set_stim_history
         set_posterior].
    rewrite keys_logged. apply (wf_hist st Hwf).
  - now apply bayes_local.
  - apply (wf_local_lik st Hwf).
Qed.

Lemma next_stim_wf (ln : Qc -> Qc) (st : QuestPlus) :
  well_formed st -> well_formed (snd (next_stim ln st)).
Proof.
  intro Hwf. rewrite next_stim_frame. destruct Hwf. now constructor.
Qed.

Lemma next_stim_proper (ln : Qc -> Qc) (st : QuestPlus) :
  proper st -> proper (snd (next_stim ln st)).
Proof.
  intros [Hwf Hp Hl]. constructor.
  - now apply next_stim_wf.
  - rewrite next_stim_frame. exact Hp.
  - rewrite next_stim_frame. exact Hl.
Qed.

Lemma joint_cell_fin (st : QuestPlus) (stim outcome : dict pyval) (e : env) :
  proper st ->
  joint_cell st stim outcome e = Fin (qval (joint_cell st stim outcome e)) /\
  0 <= qval (joint_cell st stim outcome e).
Proof.
  intros [_ Hp Hl]. unfold joint_cell.
  destruct (Hp e) as [p [-> Hp0]].
  destruct (Hl (slice_env (coords (likelihoods st)) (stim ++ outcome) e))
    as [l [-> Hl0]].
  cbn. split; [reflexivity|]. now apply Qc_mult_nonneg.
Qed.

Lemma evidence_fin (st : QuestPlus) (stim outcome : dict pyval) :
  proper st ->
  evidence st stim outcome = Fin (qevidence st stim outcome) /\
  0 <= qevidence st stim outcome.
Proof.
  intro Hp. split.
  - unfold evidence, evidence_at, qevidence. apply nansum_map_fin.
    intros idx _. apply joint_cell_fin. exact Hp.
  - apply qsum_nonneg. apply Forall_forall. intros x Hx.
    apply in_map_iff in Hx. destruct Hx as [idx [<- _]].
    apply joint_cell_fin. exact Hp.
Qed.

Lemma informative_neq (st : QuestPlus) (stim outcome : dict pyval) :
  proper st -> informative st stim outcome = true ->
  qevidence st stim outcome <> 0.
Proof.
  intros Hp Hi E. unfold informative in Hi.
  rewrite (proj1 (evidence_fin st stim outcome Hp)), E in Hi.
  discriminate.
Qed.

Lemma bayes_cell (st : QuestPlus) (stim outcome : dict pyval) (e : env) :
  proper st -> valid_call st stim outcome = true ->
  informative st stim outcome = true ->
  data (bayes st stim outcome) e =
  Fin (qval (joint_cell st stim outcome e) / qevidence st stim outcome).
Proof.
  intros Hp Hv Hi. cbn [bayes data].
  rewrite (evidence_const st stim outcome e (proper_wf st Hp) Hv).
  rewrite (proj1 (evidence_fin st stim outcome Hp)).
  rewrite (proj1 (joint_cell_fin st stim outcome e Hp)) at 1.
  apply ndiv_fin. now apply informative_neq.
Qed.

Lemma update_proper (st : QuestPlus) (stim outcome : dict pyval) :
  proper st -> valid_call st stim outcome = true ->
  informative st stim outcome = true ->
  proper (snd (update stim outcome st)).
Proof.
  intros Hp Hv Hi. constructor.
  - apply update_wf; [apply (proper_wf st Hp)|assumption].
  - rewrite (update_ok st stim outcome (proper_wf st Hp) Hv). cbn.
    intro e. eexists. split; [now apply bayes_cell|].
    apply Qc_div_nonneg.
    + now apply joint_cell_fin.
    + now apply evidence_fin.
  - rewrite (update_ok st stim outcome (proper_wf st Hp) Hv). cbn.
    apply (proper_lik st Hp).
Qed.










(** *** The labels of a call, by position *)








Lemma da_values_posterior (st : QuestPlus) :
  coords (posterior st) = param_domain st ->
  da_values (posterior st) =
  map (fun th => data (posterior st)
                      (bind_env env0 (keys (param_domain st)) th))
      (indices (axis_shape (param_domain st))).
Proof. intro H. unfold da_values, dims, shape. now rewrite H. Qed.

Lemma Fin_0_neq_1 : Fin 0 <> Fin 1.
Proof. intro H. inversion H. Qed.

Lemma total_all_nan (a : DataArray) :
  Forall (eq NaN) (da_values a) -> total a <> Fin 1.
Proof.
  unfold total. destruct (da_values a) as [|x l].
  - intros _. apply Fin_0_neq_1.
  - intro H. inversion H. subst. rewrite npsum_has_nan by now left.
    discriminate.
Qed.

(** a posterior of NaN stays a posterior of NaN *)
Lemma update_keeps_nan (st : QuestPlus) (stim outcome : dict pyval) :
  well_formed st -> valid_call st stim outcome = true ->
  Forall (eq NaN) (da_values (posterior st)) ->
  Forall (eq NaN) (da_values (posterior (snd (update stim outcome st)))).
Proof.
  intros Hwf Hv Hn.
  rewrite (da_values_posterior _ (wf_post _ (update_wf st stim outcome Hwf Hv))).
  rewrite (da_values_posterior st (wf_post st Hwf)) in Hn.
  rewrite (update_ok st stim outcome Hwf Hv). cbn [snd].
  cbn [posterior param_domain set_resp_history set_stim_history set_posterior].
  rewrite Forall_map in *. rewrite Forall_forall in *.
  intros th Hth. specialize (Hn th Hth). cbn [bayes data].
  unfold joint_cell. rewrite <- Hn. now rewrite nmul_nan_l, ndiv_nan_l.
Qed.

(* ================================================================== *)
(** ** Properties of [update] and [next_stim] *)
(* ================================================================== *)

Section Trials.

Variable ln : Qc -> Qc.

Lemma NoDup_app_disjoint {A} (l1 l2 : list A) (x : A) :
  NoDup (l1 ++ l2) -> In x l2 -> ~ In x l1.
Proof.
  induction l1 as [|y l1 IH]; cbn; intros Hnd H2; [tauto|].
  inversion Hnd. subst. intros [->|Hin1].
  - rewrite in_app_iff in *. tauto.
  - now apply IH.
Qed.



Lemma run_wf (b : bool) (st st' : QuestPlus) :
  well_formed st -> trial_run ln b st st' -> well_formed st'.
Proof.
  intros Hp Hr. induction Hr.
  - assumption.
  - apply next_stim_wf. auto.
  - apply update_wf; auto.
Qed.




(** C5 (what the code does). With [stim_selection_method = 'min_n_entropy']
    the selection branch is disabled: [next_stim] raises ValueError and
    returns no stimulus. *)
Theorem min_n_entropy_is_rejected (st : QuestPlus) :
  stim_selection st = "min_n_entropy" ->
  next_stim ln st = (Raise ValueError, st).
Proof.
  intro H. unfold next_stim, bind, read, lift, write, ret. rewrite H.
  unfold da_sum.
  repeat match goal with
         | |- context [if forallb ?f ?l then _ else _] =>
             destruct (forallb f l); cbn
         end; reflexivity.
Qed.

Lemma next_stim_set_entropy (st : QuestPlus) (x : num) :
  fst (next_stim ln (set_entropy st x)) = fst (next_stim ln st) /\
  snd (next_stim ln (set_entropy st x)) =
  match fst (next_stim ln st) with
  | OK _ => snd (next_stim ln st)
  | Raise _ => set_entropy st x
  end.
Proof.
  unfold next_stim, bind, read, lift, write, ret.
  cbn [stim_selection posterior likelihoods param_domain outcome_domain
       set_entropy].
  repeat match goal with
         | |- context [match ?r with OK _ => _ | Raise _ => _ end] =>
             lazymatch r with
             | fst _ => fail
             | _ => destruct r; cbn [fst snd]
             end
         | |- context [if ?b then _ else _] => destruct b; cbn [fst snd]
         end;
    split; reflexivity.
Qed.

(** C9. [next_stim] is idempotent: called again without an update in
    between it returns the same result and the same state, and the posterior
    and the trial history are those from before the first call. *)
Theorem next_stim_idempotent (st : QuestPlus) :
  next_stim ln (snd (next_stim ln st)) = next_stim ln st /\
  posterior (snd (next_stim ln st)) = posterior st /\
  resp_history (snd (next_stim ln st)) = resp_history st /\
  stim_history (snd (next_stim ln st)) = stim_history st.
Proof.
  split; [|rewrite next_stim_frame; now cbn].
  rewrite (surjective_pairing (next_stim ln (snd (next_stim ln st)))).
  rewrite (surjective_pairing (next_stim ln st)) at 3.
  rewrite next_stim_frame at 1 2.
  destruct (next_stim_set_entropy st (entropy (snd (next_stim ln st))))
    as [-> ->].
  f_equal. destruct (fst (next_stim ln st)); [reflexivity|].
  symmetry. apply next_stim_frame.
Qed.

End Trials.

Section ImpossibleTrials.

Variable ln : Qc -> Qc.

Lemma qsum_zeros {A} (l : list A) : qsum (map (fun _ => 0) l) = 0.
Proof. induction l; cbn; [reflexivity|]. rewrite IHl. ring. Qed.

Lemma run_keeps_nan (st st' : QuestPlus) :
  well_formed st ->
  Forall (eq NaN) (da_values (posterior st)) ->
  trial_run ln false st st' ->
  Forall (eq NaN) (da_values (posterior st')).
Proof.
  intros Hwf Hn Hr. induction Hr as [| |s s1 stim outcome Hr IH Hv _].
  - assumption.
  - rewrite next_stim_frame. cbn [posterior set_entropy]. auto.
  - apply update_keeps_nan; auto. eapply run_wf; eauto.
Qed.

(** C10. A trial that is impossible under the current posterior (at every
    parameter cell the posterior or the likelihood of the observed outcome
    is 0) is a valid input of [update] and raises nothing: the call returns
    normally, every posterior entry becomes NaN, the posterior no longer
    sums to 1, the history entry is appended all the same, and the posterior
    stays NaN through every later run of valid calls. *)
Theorem impossible_trial_gives_nan (st : QuestPlus)
        (stim outcome : dict pyval) :
  proper st ->
  valid_call st stim outcome = true ->
  (forall th, In th (param_cells st) ->
     let e := bind_env env0 (keys (param_domain st)) th in
     data (posterior st) e = Fin 0 \/
     data (likelihoods st)
          (slice_env (coords (likelihoods st)) (stim ++ outcome) e) = Fin 0) ->
  exists st',
    update stim outcome st = (OK tt, st') /\
    Forall (eq NaN) (da_values (posterior st')) /\
    total (posterior st') <> Fin 1 /\
    resp_history st' = resp_history st ++ [outcome] /\
    stim_history st' = logged stim (stim_history st) /\
    forall st'', trial_run ln false st' st'' ->
                 Forall (eq NaN) (da_values (posterior st'')) /\
                 total (posterior st'') <> Fin 1.
Proof.
  intros Hp Hv Hz. pose proof (proper_wf st Hp) as Hwf.
  assert (Hj : forall th, In th (param_cells st) ->
             joint_cell st stim outcome
               (bind_env env0 (keys (param_domain st)) th) = Fin 0).
  { intros th Hth. unfold joint_cell.
    destruct (proper_post st Hp (bind_env env0 (keys (param_domain st)) th))
      as [p [Ep _]].
    destruct (proper_lik st Hp
                (slice_env (coords (likelihoods st)) (stim ++ outcome)
                   (bind_env env0 (keys (param_domain st)) th)))
      as [l [El _]].
    destruct (Hz th Hth) as [H|H]; cbv zeta in H.
    - rewrite H, El. cbn [nmul]. f_equal. ring.
    - rewrite H, Ep. cbn [nmul]. f_equal. ring. }
  assert (He : evidence st stim outcome = Fin 0).
  { unfold evidence, evidence_at.
    rewrite (nansum_map_fin _ (fun _ => 0)).
    - f_equal. apply qsum_zeros.
    - intros th Hth. now apply Hj. }
  assert (Hn : Forall (eq NaN)
                 (da_values (posterior (snd (update stim outcome st))))).
  { rewrite (da_values_posterior _
               (wf_post _ (update_wf st stim outcome Hwf Hv))).
    rewrite (update_ok st stim outcome Hwf Hv). cbn [snd].
    cbn [posterior param_domain set_resp_history set_stim_history
         set_posterior].
    rewrite Forall_map, Forall_forall. intros th Hth. cbn [bayes data].
    rewrite (evidence_const st stim outcome _ Hwf Hv), He.
    rewrite (Hj th Hth). reflexivity. }
  pose proof (update_wf st stim outcome Hwf Hv) as Hwf'.
  exists (snd (update stim outcome st)).
  split; [rewrite (update_ok st stim outcome Hwf Hv); reflexivity|].
  split; [assumption|].
  split; [now apply total_all_nan|].
  split; [rewrite (update_ok st stim outcome Hwf Hv); reflexivity|].
  split; [rewrite (update_ok st stim outcome Hwf Hv); reflexivity|].
  intros st'' Hr.
  assert (Hn'' : Forall (eq NaN) (da_values (posterior st'')))
    by (eapply run_keeps_nan; eauto).
  split; [assumption|now apply total_all_nan].
Qed.

End ImpossibleTrials.

(* ================================================================== *)
(** ** The prior *)
(* ================================================================== *)

Lemma shape_eqb_refl (s : list nat) : shape_eqb s s = true.
Proof. unfold shape_eqb. destruct (list_eq_dec Nat.eq_dec s s); congruence. Qed.

Lemma shape_eqb_eq (s t : list nat) : shape_eqb s t = true -> s = t.
Proof.
  unfold shape_eqb. destruct (list_eq_dec Nat.eq_dec s t); congruence.
Qed.

Lemma DataArray_new_ok (a : ndarray) (c : dict (list pyval)) :
  nd_shape a = axis_shape c ->
  DataArray_new a c =
  OK {| coords := c; data := fun e => nd_get a (map e (keys c)) |}.
Proof.
  intro H. unfold DataArray_new. rewrite H. unfold axis_shape.
  destruct (map (@List.length pyval) (values c)) eqn:E.
  - destruct c; [reflexivity|discriminate].
  - now rewrite shape_eqb_refl.
Qed.

Lemma qsum_ones_neq {A} (l : list A) :
  l <> [] -> qsum (map (fun _ => 1) l) <> 0.
Proof.
  destruct l as [|x l]; [congruence|]. intros _. cbn. intro H.
  assert (H0 : 0 <= qsum (map (fun _ : A => 1) l)).
  { apply qsum_nonneg. apply Forall_forall. intros y Hy.
    apply in_map_iff in Hy. destruct Hy as [? [<- _]]. discriminate. }
  assert (H1 : (1 : Qc) = 0).
  { apply (Qc_plus_zero_l 1 (qsum (map (fun _ : A => 1) l)));
      [discriminate|exact H0|exact H]. }
  discriminate.
Qed.

Lemma size_of_pos (s : list nat) :
  forallb (fun n => negb (n =? 0)%nat) s = true -> (0 < size_of s)%nat.
Proof.
  induction s as [|n s IH]; [cbn; lia|].
  cbn [forallb]. change (size_of (n :: s)) with (n * size_of s)%nat.
  rewrite andb_true_iff, negb_true_iff, Nat.eqb_neq. intros [Hn Hs].
  specialize (IH Hs). apply Nat.mul_pos_pos; lia.
Qed.

Lemma indices_nonempty (s : list nat) :
  forallb (fun n => negb (n =? 0)%nat) s = true -> indices s <> [].
Proof.
  intros H E. apply size_of_pos in H.
  rewrite <- length_indices, E in H. cbn in H. lia.
Qed.

(** the number of cells of the parameter grid, as a rational *)
Lemma gen_prior_uniform (pd : dict (list pyval)) :
  _gen_prior pd None =
  OK {| coords := pd;
        data := fun _ =>
          ndiv (Fin 1)
               (Fin (qsum (map (fun _ => 1) (indices (axis_shape pd))))) |}.
Proof.
  unfold _gen_prior. cbn [rbind].
  rewrite DataArray_new_ok by reflexivity.
  f_equal. apply da_eq; [reflexivity|]. intro e.
  cbn [nd_normalize nd_get np_ones nd_shape]. f_equal.
  unfold nd_values. cbn [nd_get np_ones nd_shape].
  fold (axis_shape pd). now apply npsum_map_fin.
Qed.

Lemma combine_map_same {A B C} (f : A -> B) (g : A -> C) (l : list A) :
  combine (map f l) (map g l) = map (fun x => (f x, g x)) l.
Proof. induction l; cbn; [reflexivity|]. now rewrite IHl. Qed.

Lemma nth_map_seq {A} (f : nat -> A) (k i : nat) (d : A) :
  (i < k)%nat -> nth i (map f (seq 0 k)) d = f i.
Proof.
  intro H. rewrite (nth_indep _ d (f 0%nat)) by now rewrite length_map, length_seq.
  rewrite map_nth, seq_nth by exact H. reflexivity.
Qed.

Lemma nth_bidx (idx s : list nat) (i : nat) :
  List.length idx = List.length s ->
  nth i (bidx idx s) 0%nat
  = if (nth i s 0 =? 1)%nat then 0%nat else nth i idx 0%nat.
Proof.
  revert s i. induction idx as [|x idx IH]; intros [|n s] i Hl;
    try discriminate.
  - destruct i; reflexivity.
  - destruct i as [|i]; [reflexivity|].
    cbn [bidx combine map nth]. apply IH. cbn in Hl. lia.
Qed.

Lemma length_bidx (idx s : list nat) :
  List.length idx = List.length s -> List.length (bidx idx s) = List.length s.
Proof.
  intro H. unfold bidx. rewrite length_map, length_combine. lia.
Qed.

Lemma length_partial_shape (ws : list (list Qc)) (j : nat) :
  List.length (partial_shape ws j) = List.length ws.
Proof. unfold partial_shape. now rewrite length_map, length_seq. Qed.

Lemma length_sparse_shape (k i n : nat) :
  List.length (sparse_shape k i n) = k.
Proof. unfold sparse_shape. now rewrite length_map, length_seq. Qed.

Lemma qprod_app (l l' : list Qc) : qprod (l ++ l') = qprod l * qprod l'.
Proof. induction l; cbn; [ring|]. rewrite IHl. ring. Qed.

Lemma nth_nonneg (w : list Qc) (i : nat) :
  Forall (Qcle 0) w -> 0 <= nth i w 0.
Proof.
  intro H. destruct (Nat.lt_ge_cases i (List.length w)) as [Hi|Hi].
  - rewrite Forall_forall in H. apply H. now apply nth_In.
  - rewrite nth_overflow by exact Hi. apply Qcle_refl.
Qed.

Lemma nth_map_Fin (w : list Qc) (i : nat) :
  nth i (map Fin w) (Fin 0) = Fin (nth i w 0).
Proof. apply (map_nth Fin). Qed.

Section MeshgridProduct.

(** a property of the weights that products keep: being non-negative, or
    nothing at all *)
Variable Good : Qc -> Prop.
Hypothesis Good_zero : Good 0.
Hypothesis Good_mult : forall a b, Good a -> Good b -> Good (a * b).

Lemma nth_Good (w : list Qc) (i : nat) : Forall Good w -> Good (nth i w 0).
Proof.
  intro H. revert i. induction H as [|x w Hx Hw IH]; intros [|i]; cbn; auto.
Qed.

Lemma prod_inv_first (ws : list (list Qc)) :
  (0 < List.length ws)%nat ->
  Forall (Forall Good) ws ->
  prod_inv Good ws 1 (mesh_array (List.length ws) 0 (map Fin (nth 0 ws []))).
Proof.
  intros Hk Hnn. constructor.
  - cbn [mesh_array nd_shape]. unfold sparse_shape, partial_shape.
    apply map_ext_in. intros i _. rewrite length_map.
    destruct i; reflexivity.
  - intros idx _ _. cbn [mesh_array nd_get]. rewrite nth_map_Fin.
    f_equal. unfold partial_prod. cbn. ring.
  - intro idx. cbn [mesh_array nd_get]. rewrite nth_map_Fin.
    eexists. split; [reflexivity|]. apply nth_Good.
    destruct ws as [|w ws']; [cbn in Hk; lia|]. cbn. now inversion Hnn.
Qed.

Lemma Forall_nth_Good (ws : list (list Qc)) (j : nat) :
  Forall (Forall Good) ws -> Forall Good (nth j ws []).
Proof.
  intro H. destruct (Nat.lt_ge_cases j (List.length ws)) as [Hj|Hj].
  - rewrite Forall_forall in H. apply H. now apply nth_In.
  - rewrite nth_overflow by exact Hj. constructor.
Qed.

Lemma prod_inv_step (ws : list (list Qc)) (j : nat) (a : ndarray) :
  (j < List.length ws)%nat ->
  Forall (Forall Good) ws ->
  prod_inv Good ws j a ->
  prod_inv Good ws (S j)
           (nd_mul a (mesh_array (List.length ws) j (map Fin (nth j ws [])))).
Proof.
  intros Hj Hnn [Hs Hc Hf]. constructor.
  - cbn [nd_mul nd_shape mesh_array]. rewrite Hs, length_map.
    unfold bshape, partial_shape, sparse_shape.
    rewrite combine_map_same, map_map. apply map_ext_in.
    intros i _. cbn [fst snd]. fold (axis_len ws j).
    destruct (Nat.lt_total i j) as [H|[H|H]].
    + assert (E1 : (i <? j)%nat = true) by now apply Nat.ltb_lt.
      assert (E2 : (i <? S j)%nat = true) by (apply Nat.ltb_lt; lia).
      assert (E3 : (i =? j)%nat = false) by (apply Nat.eqb_neq; lia).
      rewrite E1, E2, E3. now destruct (axis_len ws i =? 1)%nat eqn:E;
        [apply Nat.eqb_eq in E|].
    + subst i. rewrite Nat.ltb_irrefl, !Nat.eqb_refl.
      assert (E2 : (j <? S j)%nat = true) by (apply Nat.ltb_lt; lia).
      now rewrite E2.
    + assert (E1 : (i <? j)%nat = false) by (apply Nat.ltb_ge; lia).
      assert (E2 : (i <? S j)%nat = false) by (apply Nat.ltb_ge; lia).
      assert (E3 : (i =? j)%nat = false) by (apply Nat.eqb_neq; lia).
      now rewrite E1, E2, E3.
  - intros idx Hl Hr. cbn [nd_mul nd_get mesh_array nd_shape].
    rewrite Hs, length_map.
    assert (Hl1 : List.length idx = List.length (partial_shape ws j))
      by now rewrite length_partial_shape.
    assert (Hl2 : List.length idx
                  = List.length (sparse_shape (List.length ws) j
                                   (List.length (nth j ws []))))
      by now rewrite length_sparse_shape.
    rewrite Hc.
    + rewrite nth_map_Fin, (nth_bidx _ _ j Hl2).
      unfold sparse_shape at 1. rewrite nth_map_seq by exact Hj.
      rewrite Nat.eqb_refl. cbn [nmul]. f_equal.
      unfold partial_prod. rewrite seq_S, map_app, qprod_app. cbn [map qprod].
      rewrite Nat.add_0_l. f_equal.
      * f_equal. apply map_ext_in. intros i Hi. apply in_seq in Hi.
        rewrite (nth_bidx _ _ i Hl1). unfold partial_shape.
        rewrite nth_map_seq by lia.
        assert (E1 : (i <? j)%nat = true) by (apply Nat.ltb_lt; lia).
        rewrite E1. destruct (axis_len ws i =? 1)%nat eqn:E; [|reflexivity].
        apply Nat.eqb_eq in E. assert (nth i idx 0 < axis_len ws i)%nat
          by (apply Hr; lia). f_equal. lia.
      * fold (axis_len ws j). assert (Hjr : (nth j idx 0 < axis_len ws j)%nat)
          by (apply Hr; lia).
        destruct (axis_len ws j =? 1)%nat eqn:E.
        -- apply Nat.eqb_eq in E. replace (nth j idx 0%nat) with 0%nat by lia.
           ring.
        -- ring.
    + rewrite length_bidx by exact Hl1. apply length_partial_shape.
    + intros i Hi. rewrite (nth_bidx _ _ i Hl1). unfold partial_shape.
      rewrite nth_map_seq by lia.
      assert (E1 : (i <? j)%nat = true) by (apply Nat.ltb_lt; lia).
      rewrite E1. assert (nth i idx 0 < axis_len ws i)%nat by (apply Hr; lia).
      destruct (axis_len ws i =? 1)%nat; lia.
  - intro idx. cbn [nd_mul nd_get mesh_array]. rewrite nth_map_Fin.
    destruct (Hf (bidx idx (nd_shape a))) as [q [-> Hq]].
    eexists. split; [reflexivity|]. apply Good_mult; [exact Hq|].
    apply nth_Good. now apply Forall_nth_Good.
Qed.

Lemma skipn_cons_nth {A} (l : list A) (j : nat) (x : A) (t : list A) (d : A) :
  skipn j l = x :: t -> nth j l d = x /\ skipn (S j) l = t /\
                        (j < List.length l)%nat.
Proof.
  revert j. induction l as [|y l IH]; intros j H.
  - destruct j; discriminate.
  - destruct j as [|j].
    + cbn in H. inversion H. subst. cbn. repeat split. lia.
    + cbn in H. destruct (IH j H) as [H1 [H2 H3]].
      cbn [nth List.length]. repeat split; [assumption|assumption|lia].
Qed.

Lemma prod_inv_fold (ws : list (list Qc)) :
  Forall (Forall Good) ws ->
  forall tail j a,
    skipn j ws = tail -> (j <= List.length ws)%nat ->
    prod_inv Good ws j a ->
    prod_inv Good ws (List.length ws)
      (fold_left nd_mul
         (map (fun ix => mesh_array (List.length ws) (fst ix) (snd ix))
              (combine (seq j (List.length tail)) (map (map Fin) tail)))
         a).
Proof.
  intros Hnn tail. induction tail as [|w tail IH]; intros j a Hsk Hj Hinv.
  - cbn. assert (j = List.length ws); [|now subst].
    assert (H : List.length (skipn j ws) = 0%nat) by now rewrite Hsk.
    rewrite length_skipn in H. lia.
  - destruct (skipn_cons_nth ws j w tail [] Hsk) as [Hn [Hsk' Hlt]].
    cbn [List.length seq map combine fold_left fst snd].
    apply IH; [assumption|lia|].
    rewrite <- Hn. now apply prod_inv_step.
Qed.

Lemma length_np_meshgrid_arg (ws : list (list Qc)) :
  List.length (map (map Fin) ws) = List.length ws.
Proof. apply length_map. Qed.

(** the product of the meshgrid arrays, when [np.prod] broadcasts *)
Lemma np_prod_meshgrid (ws : list (list Qc)) :
  (2 <= List.length ws)%nat ->
  axis_len ws 0 <> 1%nat ->
  Forall (Forall Good) ws ->
  exists r, np_prod (np_meshgrid (map (map Fin) ws)) = OK r /\
            prod_inv Good ws (List.length ws) r.
Proof.
  intros Hk Hn0 Hnn.
  destruct ws as [|w0 [|w1 ws']]; try (cbn in Hk; lia).
  set (ws := w0 :: w1 :: ws') in *.
  unfold np_meshgrid. rewrite length_np_meshgrid_arg.
  change (map (map Fin) ws) with (map Fin w0 :: map (map Fin) (w1 :: ws')).
  change (List.length ws) with (S (List.length (w1 :: ws'))) at 2.
  cbn [seq combine map fst snd].
  set (a0 := mesh_array (List.length ws) 0 (map Fin w0)).
  set (a1 := mesh_array (List.length ws) 1 (map Fin w1)).
  set (rest := map (fun ix => mesh_array (List.length ws) (fst ix) (snd ix))
                  (combine (seq 2 (List.length ws')) (map (map Fin) ws'))).
  assert (Hlead : (hd 0 (nd_shape a1) =? hd 0 (nd_shape a0))%nat = false).
  { apply Nat.eqb_neq. unfold a0, a1, ws. cbn. rewrite !length_map.
    unfold axis_len in Hn0. cbn in Hn0. congruence. }
  change (exists r, np_prod (a0 :: a1 :: rest) = OK r /\
                    prod_inv Good ws (List.length ws) r).
  unfold np_prod.
  assert (Hss : same_shapes (a0 :: a1 :: rest) = false).
  { cbn [same_shapes forallb]. apply andb_false_iff. left.
    destruct (shape_eqb (nd_shape a1) (nd_shape a0)) eqn:E; [|reflexivity].
    apply shape_eqb_eq in E. rewrite E, Nat.eqb_refl in Hlead. discriminate. }
  assert (Hsl : same_leading (a0 :: a1 :: rest) = false).
  { cbn [same_leading forallb]. now rewrite Hlead. }
  rewrite Hss, Hsl. eexists. split; [reflexivity|].
  cbn [fold_left].
  apply (prod_inv_fold ws Hnn ws' 2 (nd_mul a0 a1)); [reflexivity|exact Hk|].
  apply (prod_inv_step ws 1); [exact Hk|exact Hnn|].
  apply (prod_inv_first ws); [unfold ws; cbn; lia|exact Hnn].
Qed.

End MeshgridProduct.

Lemma map_nth_seq {A B} (f : A -> B) (l : list A) (d : A) :
  map (fun i => f (nth i l d)) (seq 0 (List.length l)) = map f l.
Proof.
  induction l as [|x l IH]; [reflexivity|].
  cbn [List.length seq map nth]. f_equal.
  rewrite <- seq_shift, map_map. exact IH.
Qed.

Lemma partial_shape_full (ws : list (list Qc)) :
  partial_shape ws (List.length ws) = map (@List.length Qc) ws.
Proof.
  unfold partial_shape, axis_len.
  rewrite <- (map_nth_seq (@List.length Qc) ws []).
  apply map_ext_in. intros i Hi. apply in_seq in Hi.
  assert (E : (i <? List.length ws)%nat = true) by (apply Nat.ltb_lt; lia).
  now rewrite E.
Qed.

Lemma map_bind_env (e : env) (ks : list string) (idx : list nat) :
  NoDup ks -> List.length idx = List.length ks ->
  map (bind_env e ks idx) ks = idx.
Proof.
  revert idx. induction ks as [|k ks IH]; intros [|i idx] Hnd Hl;
    try discriminate; [reflexivity|].
  inversion Hnd as [|? ? Hk Hnd']. subst.
  cbn [bind_env map]. rewrite upd_same. f_equal.
  rewrite <- (IH idx Hnd') at 2 by (cbn in Hl; lia).
  apply map_ext_in. intros k' Hk'. apply upd_other. intro. subst. tauto.
Qed.

Lemma nth_keys_get {V} (d : dict V) (i : nat) (dv : V) :
  NoDup (keys d) -> (i < List.length d)%nat ->
  get d (nth i (keys d) "") = Some (nth i (values d) dv).
Proof.
  revert i. induction d as [|[k v] d IH]; intros i Hnd Hi; [cbn in Hi; lia|].
  inversion Hnd as [|? ? Hk Hnd']. subst.
  destruct i as [|i]; cbn [keys values map nth get fst snd].
  - now rewrite String.eqb_refl.
  - destruct (String.eqb (nth i (map fst d) "") k) eqn:E.
    + apply String.eqb_eq in E. exfalso. apply Hk. rewrite <- E.
      apply nth_In. unfold keys. rewrite length_map. cbn in Hi. lia.
    + apply IH; [assumption|cbn in Hi; lia].
Qed.

Lemma map_combine_seq {A B C} (f : A * B -> C) (l1 : list A) (l2 : list B)
      (d1 : A) (d2 : B) :
  List.length l1 = List.length l2 ->
  map f (combine l1 l2)
  = map (fun i => f (nth i l1 d1, nth i l2 d2)) (seq 0 (List.length l1)).
Proof.
  revert l2. induction l1 as [|x l1 IH]; intros [|y l2] Hl;
    try discriminate; [reflexivity|].
  cbn [combine map List.length seq nth]. f_equal.
  rewrite <- seq_shift, map_map. apply IH. cbn in Hl. lia.
Qed.

(** the product read by position is the outer product read by axis name,
    when the prior lists the parameter axes in their order *)
Lemma partial_prod_outer (pr : dict (list Qc)) (idx : list nat) :
  NoDup (keys pr) -> List.length idx = List.length pr ->
  partial_prod (values pr) (List.length (values pr)) idx
  = outer pr (keys pr) idx.
Proof.
  intros Hnd Hl. unfold partial_prod, outer. f_equal.
  rewrite (map_combine_seq _ (keys pr) idx "" 0%nat)
    by (unfold keys; now rewrite length_map).
  unfold keys, values. rewrite !length_map.
  apply map_ext_in. intros i Hi. apply in_seq in Hi. cbn [fst snd].
  unfold weight. fold (keys pr).
  rewrite (nth_keys_get pr i []) by (assumption || lia). reflexivity.
Qed.

Lemma Forall2_lt_nth (idx s : list nat) (i : nat) :
  Forall2 lt idx s -> (i < List.length s)%nat ->
  (nth i idx 0 < nth i s 0)%nat.
Proof.
  intro H. revert i. induction H as [|x n idx s Hx H IH]; intros i Hi.
  - cbn in Hi. lia.
  - destruct i as [|i]; cbn; [assumption|]. apply IH. cbn in Hi. lia.
Qed.

Lemma prior_ok_inv (pd : dict (list pyval)) (pr : dict (list Qc)) :
  prior_ok pd (Some pr) = true ->
  keys pr = keys pd /\
  map (@List.length Qc) (values pr) = axis_shape pd /\
  (2 <= List.length pr)%nat /\
  axis_len (values pr) 0 <> 1%nat /\
  Forall (Forall (Qcle 0)) (values pr) /\
  outer_total pr pd <> 0.
Proof.
  unfold prior_ok. rewrite !andb_true_iff.
  intros [[[[[Hk Hs] Hl] Hh] Hn] Ht].
  destruct (list_eq_dec string_dec (keys pr) (keys pd)) as [Ek|];
    [|discriminate].
  apply shape_eqb_eq in Hs. apply Nat.leb_le in Hl.
  apply negb_true_iff, Nat.eqb_neq in Hh.
  apply negb_true_iff, is_zero_false in Ht.
  repeat split; try assumption.
  - rewrite <- Hs in Hh. unfold axis_len.
    destruct pr as [|[k w] pr]; [cbn in Hl; lia|]. exact Hh.
  - apply Forall_forall. intros w Hw. apply Forall_forall. intros x Hx.
    rewrite forallb_forall in Hn. specialize (Hn w Hw).
    rewrite forallb_forall in Hn. specialize (Hn x Hx).
    now apply negb_true_iff, Qc_ltb_ge in Hn.
Qed.

Lemma values_weights_of (pr : dict (list pynum)) :
  map (map num_of) (values pr) = map (map Fin) (values (weights_of pr)).
Proof.
  unfold values, weights_of. rewrite !map_map. apply map_ext.
  intros [k w]. cbn [snd]. now rewrite map_map.
Qed.

Lemma keys_weights_of (pr : dict (list pynum)) : keys (weights_of pr) = keys pr.
Proof. unfold keys, weights_of. rewrite map_map. now apply map_ext. Qed.

Lemma length_weights_of (pr : dict (list pynum)) :
  map (@List.length Qc) (values (weights_of pr))
  = map (@List.length pynum) (values pr).
Proof.
  unfold values, weights_of. rewrite !map_map. apply map_ext.
  intros [k w]. cbn [snd]. apply length_map.
Qed.

Lemma weights_of_floats (pr : dict (list Qc)) : weights_of (floats pr) = pr.
Proof.
  unfold weights_of, floats. rewrite map_map. rewrite <- (map_id pr) at 2.
  apply map_ext. intros [k w]. cbn [fst snd]. f_equal.
  rewrite map_map. apply map_id.
Qed.

Lemma prior_broadcasts_inv (pr : dict (list pynum)) :
  prior_broadcasts pr = true ->
  (2 <= List.length (values (weights_of pr)))%nat /\
  axis_len (values (weights_of pr)) 0 <> 1%nat.
Proof.
  unfold prior_broadcasts. rewrite andb_true_iff. intros [Hl Hh].
  apply Nat.leb_le in Hl. apply negb_true_iff, Nat.eqb_neq in Hh.
  split.
  - unfold values, weights_of. now rewrite !length_map.
  - unfold axis_len. destruct pr as [|[k w] pr]; [cbn in Hl; lia|].
    cbn in *. now rewrite length_map.
Qed.

Lemma any_product (a b : Qc) : True -> True -> True.
Proof. auto. Qed.

(** whatever [xr.DataArray] accepts is a tensor over the coordinates given *)
Lemma DataArray_new_inv (a : ndarray) (c : dict (list pyval)) (p : DataArray) :
  DataArray_new a c = OK p ->
  coords p = c /\ local p /\
  (nd_shape a <> [] -> nd_shape a = axis_shape c /\
                       p = {| coords := c;
                              data := fun e => nd_get a (map e (keys c)) |}).
Proof.
  unfold DataArray_new. intros H.
  destruct (nd_shape a) as [|n s] eqn:E.
  - injection H as <-. split; [reflexivity|]. split; [|congruence].
    intros e e' _. reflexivity.
  - destruct (shape_eqb (n :: s) (map (@List.length pyval) (values c))) eqn:Es;
      [|discriminate].
    injection H as <-. split; [reflexivity|]. split.
    + intros e e' Hee. cbn [data]. f_equal. apply map_ext_in. exact Hee.
    + intros _. split; [now apply shape_eqb_eq|reflexivity].
Qed.

Lemma gen_prior_coords (pd : dict (list pyval))
      (pr : option (dict (list pynum))) (p : DataArray) :
  _gen_prior pd pr = OK p -> coords p = pd /\ local p.
Proof.
  unfold _gen_prior. intros H.
  match type of H with
  | rbind ?r _ = _ => destruct r as [a|]; [|discriminate]
  end.
  cbn [rbind] in H. apply DataArray_new_inv in H. tauto.
Qed.

(** what [_gen_prior] builds from a prior map when [np.prod] broadcasts: the
    product of the weights, taken by position, over its total *)
Lemma gen_prior_product (pd : dict (list pyval)) (pr : dict (list pynum)) :
  NoDup (keys pd) ->
  prior_broadcasts pr = true ->
  forallb int_array (values pr) = false ->
  map (@List.length Qc) (values (weights_of pr)) = axis_shape pd ->
  product_total (values (weights_of pr)) <> 0 ->
  exists p,
    _gen_prior pd (Some pr) = OK p /\
    coords p = pd /\ local p /\ finite_cells p /\
    (Forall (Forall (Qcle 0)) (values (weights_of pr)) -> nonneg_cells p) /\
    forall idx, In idx (indices (axis_shape pd)) ->
      data p (bind_env env0 (keys pd) idx)
      = Fin (partial_prod (values (weights_of pr))
                          (List.length (values (weights_of pr))) idx
             / product_total (values (weights_of pr))).
Proof.
  intros Hnd Hb Hint Hs Ht.
  destruct (prior_broadcasts_inv pr Hb) as [Hl Hh].
  set (ws := values (weights_of pr)) in *.
  destruct (np_prod_meshgrid (fun _ => True) I any_product ws)
    as [r [Hr Hinv]]; [assumption|assumption| |].
  { apply Forall_forall. intros w _. apply Forall_forall. auto. }
  assert (Hshape : nd_shape r = axis_shape pd).
  { rewrite (pi_shape _ _ _ _ Hinv), partial_shape_full. exact Hs. }
  assert (Hcell : forall idx, In idx (indices (axis_shape pd)) ->
            nd_get r idx = Fin (partial_prod ws (List.length ws) idx)).
  { intros idx Hidx.
    assert (Hli : List.length idx = List.length ws).
    { rewrite (indices_length _ _ Hidx), <- Hs. apply length_map. }
    apply (pi_cell _ _ _ _ Hinv idx Hli).
    intros i Hi. apply In_indices in Hidx. rewrite <- Hs in Hidx.
    unfold axis_len.
    change (List.length (nth i ws []))
      with ((fun w => List.length w) (nth i ws [])).
    rewrite <- (map_nth (@List.length Qc)). cbn [List.length].
    apply Forall2_lt_nth; [exact Hidx|]. now rewrite length_map. }
  assert (Hsum : npsum (nd_values r) = Fin (product_total ws)).
  { unfold nd_values, product_total. rewrite Hshape, Hs.
    now apply npsum_map_fin. }
  exists {| coords := pd;
            data := fun e => nd_get (nd_normalize r) (map e (keys pd)) |}.
  split; [|split; [reflexivity|split; [|split; [|split]]]].
  - unfold _gen_prior. rewrite values_weights_of. fold ws. rewrite Hr.
    cbn [rbind]. rewrite Hint.
    match goal with
    | |- rbind ?m _ = _ =>
        replace m with (OK r) by (destruct (nd_shape r); reflexivity)
    end.
    cbn [rbind]. apply DataArray_new_ok. exact Hshape.
  - intros e e' Hee. cbn [data]. f_equal. apply map_ext_in. exact Hee.
  - intro e. cbn [data nd_normalize nd_get]. rewrite Hsum.
    destruct (pi_fin _ _ _ _ Hinv (map e (keys pd))) as [q [-> _]].
    rewrite ndiv_fin by exact Ht. eauto.
  - intros Hnn e.
    destruct (np_prod_meshgrid (Qcle 0) (Qcle_refl 0) Qc_mult_nonneg ws)
      as [r' [Hr' Hinv']]; [assumption|assumption|assumption|].
    rewrite Hr in Hr'. injection Hr' as <-.
    assert (Ht0 : 0 <= product_total ws).
    { apply qsum_nonneg, Forall_forall. intros x Hx.
      apply in_map_iff in Hx. destruct Hx as [idx [<- Hidx]].
      rewrite Hs in Hidx.
      destruct (pi_fin _ _ _ _ Hinv' idx) as [q [Hq Hq0]].
      rewrite (Hcell idx Hidx) in Hq. inversion Hq. now subst. }
    cbn [data nd_normalize nd_get]. rewrite Hsum.
    destruct (pi_fin _ _ _ _ Hinv' (map e (keys pd))) as [q [-> Hq0]].
    rewrite ndiv_fin by exact Ht. eexists. split; [reflexivity|].
    now apply Qc_div_nonneg.
  - intros idx Hidx. cbn [data nd_normalize nd_get]. rewrite Hsum.
    rewrite map_bind_env; [|assumption|].
    + rewrite (Hcell idx Hidx). now apply ndiv_fin.
    + rewrite (indices_length _ _ Hidx). unfold axis_shape, keys, values.
      now rewrite !length_map.
Qed.

(** a prior map that [np.prod] broadcasts and the constructor accepts has one
    weight per grid value and is not a map of integers *)
Lemma gen_prior_accepts (pd : dict (list pyval)) (pr : dict (list pynum))
      (p : DataArray) :
  prior_broadcasts pr = true ->
  _gen_prior pd (Some pr) = OK p ->
  forallb int_array (values pr) = false /\
  map (@List.length Qc) (values (weights_of pr)) = axis_shape pd.
Proof.
  intros Hb H. destruct (prior_broadcasts_inv pr Hb) as [Hl Hh].
  set (ws := values (weights_of pr)) in *.
  destruct (np_prod_meshgrid (fun _ => True) I any_product ws)
    as [r [Hr Hinv]]; [assumption|assumption| |].
  { apply Forall_forall. intros w _. apply Forall_forall. auto. }
  unfold _gen_prior in H. rewrite values_weights_of in H. fold ws in H.
  rewrite Hr in H. cbn [rbind] in H.
  assert (Hshape : nd_shape r = map (@List.length Qc) ws)
    by (rewrite (pi_shape _ _ _ _ Hinv); apply partial_shape_full).
  destruct (nd_shape r) as [|n s] eqn:E.
  { exfalso. symmetry in Hshape. apply map_eq_nil in Hshape.
    rewrite Hshape in Hl. cbn in Hl. lia. }
  destruct (forallb int_array (values pr)); [discriminate|].
  cbn [rbind] in H. split; [reflexivity|].
  apply DataArray_new_inv in H. destruct H as [_ [_ H]].
  cbn [nd_normalize nd_shape] in H. rewrite E in H.
  destruct H as [H _]; [discriminate|]. now rewrite <- Hshape.
Qed.

(** the product by position is the outer product by axis name, for a prior
    map that lists the parameter axes in their order *)
Lemma product_total_outer (pd : dict (list pyval)) (w : dict (list Qc)) :
  NoDup (keys pd) -> keys w = keys pd ->
  map (@List.length Qc) (values w) = axis_shape pd ->
  product_total (values w) = outer_total w pd /\
  forall idx, In idx (indices (axis_shape pd)) ->
    partial_prod (values w) (List.length (values w)) idx
    = outer w (keys pd) idx.
Proof.
  intros Hnd Hk Hs.
  assert (H : forall idx, In idx (indices (axis_shape pd)) ->
            partial_prod (values w) (List.length (values w)) idx
            = outer w (keys pd) idx).
  { intros idx Hidx. rewrite <- Hk. apply partial_prod_outer.
    - now rewrite Hk.
    - rewrite (indices_length _ _ Hidx), <- Hs. unfold values.
      now rewrite !length_map. }
  split; [|exact H].
  unfold product_total, outer_total. rewrite Hs. f_equal.
  now apply map_ext_in.
Qed.

(** what [_gen_prior] builds from a prior map of non-negative weights that
    lists the parameter axes in their order *)
Lemma gen_prior_outer (pd : dict (list pyval)) (pr : dict (list pynum)) :
  NoDup (keys pd) ->
  prior_ok pd (Some (weights_of pr)) = true ->
  forallb int_array (values pr) = false ->
  exists p,
    _gen_prior pd (Some pr) = OK p /\
    coords p = pd /\ local p /\ nonneg_cells p /\
    forall idx, In idx (indices (axis_shape pd)) ->
      data p (bind_env env0 (keys pd) idx)
      = Fin (outer (weights_of pr) (keys pd) idx
             / outer_total (weights_of pr) pd).
Proof.
  intros Hnd Hok Hint.
  destruct (prior_ok_inv pd _ Hok) as [Hk [Hs [Hl [Hh [Hnn Ht]]]]].
  destruct (product_total_outer pd (weights_of pr) Hnd Hk Hs) as [Etot Ecell].
  assert (Hb : prior_broadcasts pr = true).
  { unfold prior_broadcasts. apply andb_true_iff. split.
    - apply Nat.leb_le. unfold weights_of in Hl. now rewrite length_map in Hl.
    - apply negb_true_iff, Nat.eqb_neq. unfold axis_len in Hh.
      destruct pr as [|[k w] pr]; [cbn in Hl; lia|].
      cbn in *. now rewrite length_map in Hh. }
  destruct (gen_prior_product pd pr Hnd Hb Hint Hs)
    as [p [Hp [Hc [Hloc [_ [Hn Hcell]]]]]]; [now rewrite Etot|].
  exists p. repeat split; try assumption; [now apply Hn|].
  intros idx Hidx. rewrite (Hcell idx Hidx), Etot.
  now rewrite (Ecell idx Hidx).
Qed.

Lemma gen_prior_uniform_ok (pd : dict (list pyval)) :
  nonempty_axes pd = true ->
  exists p,
    _gen_prior pd None = OK p /\
    coords p = pd /\ local p /\ nonneg_cells p /\
    forall idx, In idx (indices (axis_shape pd)) ->
      data p (bind_env env0 (keys pd) idx)
      = Fin (1 / qsum (map (fun _ => 1) (indices (axis_shape pd)))).
Proof.
  intro Hne. eexists. split; [apply gen_prior_uniform|].
  assert (Hn : qsum (map (fun _ : list nat => 1) (indices (axis_shape pd)))
               <> 0)
    by (apply qsum_ones_neq; now apply indices_nonempty).
  cbn [coords data]. split; [reflexivity|]. split; [|split].
  - intros e e' _. reflexivity.
  - intro e. cbn [data]. rewrite ndiv_fin by exact Hn.
    eexists. split; [reflexivity|]. apply Qc_div_nonneg; [discriminate|].
    apply qsum_nonneg, Forall_forall. intros x Hx.
    apply in_map_iff in Hx. destruct Hx as [? [<- _]]. discriminate.
  - intros idx _. now apply ndiv_fin.
Qed.

(** a tensor whose cells are g / sum(g) sums to 1 *)
Lemma total_normalized (p : DataArray) (g : list nat -> Qc) :
  qsum (map g (indices (shape p))) <> 0 ->
  (forall idx, In idx (indices (shape p)) ->
     data p (bind_env env0 (dims p) idx)
     = Fin (g idx / qsum (map g (indices (shape p))))) ->
  total p = Fin 1.
Proof.
  intros Hn H. unfold total, da_values.
  rewrite (npsum_map_fin _ (fun idx => g idx / qsum (map g (indices (shape p)))))
    by exact H.
  f_equal.
  rewrite <- (map_map g (fun x => x / qsum (map g (indices (shape p))))).
  rewrite qsum_div. now field.
Qed.

(* ================================================================== *)
(** ** Construction *)
(* ================================================================== *)

Lemma gen_prior_ok (pd : dict (list pyval))
      (pr : option (dict (list pynum))) :
  NoDup (keys pd) -> nonempty_axes pd = true ->
  prior_ok pd (option_map weights_of pr) = true ->
  float_prior pr = true ->
  exists p,
    _gen_prior pd pr = OK p /\
    coords p = pd /\ local p /\ nonneg_cells p /\ total p = Fin 1.
Proof.
  intros Hnd Hne Hok Hfl. destruct pr as [pr|]; cbn [option_map] in Hok.
  - cbn [float_prior] in Hfl. apply negb_true_iff in Hfl.
    destruct (gen_prior_outer pd pr Hnd Hok Hfl)
      as [p [Hp [Hc [Hl [Hn Hcell]]]]].
    exists p. repeat split; try assumption.
    apply (total_normalized p (outer (weights_of pr) (keys pd)));
      unfold shape, dims; rewrite Hc; fold (axis_shape pd).
    + apply (prior_ok_inv pd _ Hok).
    + exact Hcell.
  - destruct (gen_prior_uniform_ok pd Hne) as [p [Hp [Hc [Hl [Hn Hcell]]]]].
    exists p. repeat split; try assumption.
    apply (total_normalized p (fun _ => 1));
      unfold shape, dims; rewrite Hc; fold (axis_shape pd).
    + apply qsum_ones_neq. now apply indices_nonempty.
    + exact Hcell.
Qed.


Lemma valid_config_inv (c : Config) :
  valid_config c = true ->
  exists ok v0 v1 rest,
    _ensure_ndarray (cfg_outcome_domain c) = [(ok, v0 :: v1 :: rest)] /\
    NoDup (ok :: keys (_ensure_ndarray (cfg_stim_domain c))
              ++ keys (_ensure_ndarray (cfg_param_domain c))) /\
    supported_func (cfg_func c) = true /\
    nonempty_axes (_ensure_ndarray (cfg_param_domain c)) = true /\
    prior_ok (_ensure_ndarray (cfg_param_domain c))
             (option_map weights_of (cfg_prior c)) = true.
Proof.
  unfold valid_config. rewrite !andb_true_iff.
  intros [[[[Hnd Ho] Hf] Hne] Hp].
  destruct (_ensure_ndarray (cfg_outcome_domain c))
    as [|[ok [|v0 [|v1 rest]]] [|? ?]]; try discriminate.
  exists ok, v0, v1, rest. apply nodupb_NoDup in Hnd.
  repeat split; assumption.
Qed.

Lemma provider_kwargs_ok (sd pd : dict (list pyval)) :
  (forall k, In k (keys pd) -> ~ In k (keys sd)) ->
  ~ In "scale" (keys sd ++ keys pd) ->
  provider_kwargs sd pd = OK tt.
Proof.
  intros Hd Hs. unfold provider_kwargs.
  replace (existsb (fun k => mem k (keys sd)) (keys pd)) with false.
  - apply mem_notIn in Hs. now rewrite Hs.
  - symmetry. apply not_true_is_false. intros H.
    apply existsb_exists in H. destruct H as [k [Hk Hm]].
    apply mem_In in Hm. now apply (Hd k).
Qed.

Lemma provider_kwargs_inv (sd pd : dict (list pyval)) (u : unit) :
  provider_kwargs sd pd = OK u ->
  (forall k, In k (keys pd) -> ~ In k (keys sd)) /\
  ~ In "scale" (keys sd ++ keys pd).
Proof.
  unfold provider_kwargs.
  destruct (existsb (fun k => mem k (keys sd)) (keys pd)) eqn:E;
    [discriminate|].
  destruct (mem "scale" (keys sd ++ keys pd)) eqn:Es; [discriminate|].
  intros _. split.
  - intros k Hk Hs.
    assert (H : existsb (fun k => mem k (keys sd)) (keys pd) = true)
      by (apply existsb_exists; exists k; split; [assumption|now apply mem_In]).
    congruence.
  - now apply mem_notIn.
Qed.

Lemma provider_kwargs_error (sd pd : dict (list pyval)) (e : exn) :
  provider_kwargs sd pd = Raise e -> e = TypeError.
Proof.
  unfold provider_kwargs.
  destruct (existsb _ _ || mem _ _); congruence.
Qed.

Section Construction.

Variable psychometric_function :
  string -> dict (list pyval) -> dict (list pyval) -> string -> DataArray.

Hypothesis provider : provider_ok psychometric_function.

Lemma gen_likelihoods_ok (func scale : string) (sd pd : dict (list pyval))
      (ok : string) (v0 v1 : pyval) (rest : list pyval) :
  supported_func func = true ->
  provider_kwargs sd pd = OK tt ->
  ~ In ok (keys sd ++ keys pd) ->
  exists L,
    _gen_likelihoods psychometric_function func scale sd pd
                     [(ok, v0 :: v1 :: rest)] = OK L /\
    coords L = (ok, [v0; v1]) :: sd ++ pd /\
    local L /\ nonneg_cells L.
Proof.
  intros Hf Hkw Hok. destruct (provider func sd pd scale) as [Hc [Hl Hv]].
  unfold _gen_likelihoods. cbn [keys values map fst snd rbind nth_error].
  unfold supported_func in Hf. rewrite Hf, Hkw. cbn [rbind].
  assert (Hm : mem ok (dims (psychometric_function func sd pd scale)) = false).
  { apply mem_notIn. unfold dims. now rewrite Hc, keys_app. }
  rewrite Hm. eexists. split; [reflexivity|].
  cbn [coords data]. rewrite Hc. split; [reflexivity|]. split.
  - intros e e' Hee. cbn [data].
    assert (E : e ok = e' ok) by (apply Hee; now left).
    assert (E' : data (psychometric_function func sd pd scale) e
                 = data (psychometric_function func sd pd scale) e').
    { apply Hl. intros k Hk. apply Hee. right. unfold dims in Hk.
      now rewrite Hc in Hk. }
    rewrite E. destruct (e' ok); cbn [da_map data]; now rewrite E'.
  - intro e. cbn [data]. destruct (Hv e) as [q [Hq [Hq0 Hq1]]].
    destruct (e ok); cbn [da_map data]; rewrite Hq.
    + eauto.
    + exists (1 + - q). split; [reflexivity|].
      unfold Qcle in *. rewrite this_plus. cbn [this Qcopp Q2Qc] in *.
      change (Qred 0) with 0%Q in *. change (Qred 1) with 1%Q in *.
      rewrite !Qred_correct. lra.
Qed.

(** whenever [_gen_likelihoods] returns, the outcome domain has one axis of
    at least two labels, the function name is known and the axis names do
    not clash *)
Lemma gen_likelihoods_inv (func scale : string)
      (sd pd od : dict (list pyval)) (L : DataArray) :
  _gen_likelihoods psychometric_function func scale sd pd od = OK L ->
  exists ok v0 v1 rest,
    od = [(ok, v0 :: v1 :: rest)] /\
    supported_func func = true /\
    provider_kwargs sd pd = OK tt /\
    ~ In ok (keys sd ++ keys pd).
Proof.
  unfold _gen_likelihoods. intros H.
  destruct od as [|[ok vs] rest]; [discriminate|].
  cbn [keys values map fst snd rbind] in H.
  destruct (mem func ["weibull"; "csf"; "norm_cdf"; "norm_cdf_2"]) eqn:Hf;
    [|discriminate].
  destruct (provider_kwargs sd pd) as [[]|] eqn:Hkw; [|discriminate].
  cbn [rbind] in H.
  destruct vs as [|v0 [|v1 vs]]; try discriminate.
  cbn [nth_error rbind] in H.
  destruct (provider func sd pd scale) as [Hc _].
  destruct (mem ok (dims (psychometric_function func sd pd scale))) eqn:Hm;
    [discriminate|].
  destruct rest; [|discriminate].
  exists ok, v0, v1, vs. repeat split; try assumption.
  apply mem_notIn in Hm. unfold dims in Hm. now rewrite Hc, keys_app in Hm.
Qed.

(** a valid configuration whose prior map is not one of integers and whose
    axes are not named 'scale' builds a proper engine, whose prior sums
    to 1 *)
Lemma init_ok (c : Config) :
  buildable c = true ->
  exists st,
    __init__ psychometric_function c = OK st /\
    proper st /\ posterior st = prior st /\ total (prior st) = Fin 1.
Proof.
  unfold buildable. rewrite !andb_true_iff, negb_true_iff, mem_notIn.
  intros [[Hv Hfl] Hsc].
  destruct (valid_config_inv c Hv)
    as [ok [v0 [v1 [rest [Ho [Hnd [Hf [Hne Hp]]]]]]]].
  set (sd := _ensure_ndarray (cfg_stim_domain c)) in *.
  set (pd := _ensure_ndarray (cfg_param_domain c)) in *.
  inversion Hnd as [|? ? Hok Hnd']. subst.
  destruct (gen_prior_ok pd (cfg_prior c))
    as [p [Hgp [Hpc [Hpl [Hpn Hpt]]]]];
    [eapply NoDup_app_remove_l; eauto|assumption|assumption|assumption|].
  assert (Hkw : provider_kwargs sd pd = OK tt).
  { apply provider_kwargs_ok; [|assumption].
    intros k Hk Hs. eapply NoDup_app_disjoint; eauto. }
  destruct (gen_likelihoods_ok (cfg_func c) (cfg_stim_scale c) sd pd
              ok v0 v1 rest Hf Hkw Hok) as [L [HgL [HLc [HLl HLn]]]].
  unfold __init__. cbv zeta. fold sd pd. rewrite Hgp. cbn [rbind].
  rewrite Ho, HgL.
  cbn [rbind]. eexists. split; [reflexivity|].
  split; [|split; [reflexivity|exact Hpt]].
  constructor; [constructor|exact Hpn|exact HLn]; cbn.
  - exists (ok, [v0; v1]). split; [reflexivity|exact HLc].
  - exact Hpc.
  - unfold dims. rewrite HLc. cbn. fold (keys (sd ++ pd)).
    now rewrite keys_app.
  - unfold keys. rewrite map_map. cbn. apply map_id.
  - exact Hpl.
  - exact HLl.
Qed.

(** every engine the constructor returns is well-formed: its tensors are
    over the axes of the domains, whatever the prior argument was *)
Lemma init_wf (c : Config) (st : QuestPlus) :
  nodupb (keys (_ensure_ndarray (cfg_stim_domain c))) = true ->
  nodupb (keys (_ensure_ndarray (cfg_param_domain c))) = true ->
  __init__ psychometric_function c = OK st ->
  well_formed st /\ nonneg_cells (likelihoods st) /\
  posterior st = prior st /\
  _gen_prior (_ensure_ndarray (cfg_param_domain c)) (cfg_prior c)
  = OK (prior st) /\
  stim_domain st = _ensure_ndarray (cfg_stim_domain c) /\
  param_domain st = _ensure_ndarray (cfg_param_domain c) /\
  outcome_domain st = _ensure_ndarray (cfg_outcome_domain c) /\
  stim_selection st = cfg_stim_selection_method c /\
  param_estimation_method st = cfg_param_estimation_method c /\
  resp_history st = [] /\ entropy st = NaN.
Proof.
  intros Hns Hnp H. apply nodupb_NoDup in Hns, Hnp.
  unfold __init__ in H. cbv zeta in H.
  set (sd := _ensure_ndarray (cfg_stim_domain c)) in *.
  set (pd := _ensure_ndarray (cfg_param_domain c)) in *.
  set (od := _ensure_ndarray (cfg_outcome_domain c)) in *.
  destruct (_gen_prior pd (cfg_prior c)) as [p|] eqn:Hgp; [|discriminate].
  cbn [rbind] in H.
  destruct (_gen_likelihoods psychometric_function (cfg_func c)
              (cfg_stim_scale c) sd pd od) as [L|] eqn:HgL; [|discriminate].
  cbn [rbind] in H. injection H as <-.
  destruct (gen_prior_coords pd _ p Hgp) as [Hpc Hpl].
  destruct (gen_likelihoods_inv _ _ _ _ _ _ HgL)
    as [ok [v0 [v1 [rest [Ho [Hf [Hkw Hok]]]]]]].
  destruct (gen_likelihoods_ok (cfg_func c) (cfg_stim_scale c) sd pd
              ok v0 v1 rest Hf Hkw Hok) as [L' [HgL' [HLc [HLl HLn]]]].
  rewrite Ho in HgL. rewrite HgL in HgL'. injection HgL' as <-.
  destruct (provider_kwargs_inv sd pd tt Hkw) as [Hd Hsc].
  cbn [posterior prior likelihoods stim_domain param_domain outcome_domain
       stim_selection param_estimation_method resp_history entropy].
  split; [|repeat split; try assumption; try reflexivity].
  constructor; cbn.
  - exists (ok, [v0; v1]). split; [now rewrite Ho|exact HLc].
  - exact Hpc.
  - unfold dims. rewrite HLc. cbn. fold (keys (sd ++ pd)).
    rewrite keys_app. constructor; [assumption|].
    apply NoDup_app; [assumption|assumption|].
    intros k Hs Hp. now apply (Hd k).
  - unfold keys. rewrite map_map. cbn. apply map_id.
  - exact Hpl.
  - exact HLl.
Qed.


(** the engines built from valid configurations are proper *)
Lemma init_proper (c : Config) (st : QuestPlus) :
  valid_config c = true ->
  __init__ psychometric_function c = OK st ->
  proper st /\ posterior st = prior st /\ total (prior st) = Fin 1.
Proof.
  intros Hv Hinit.
  destruct (valid_config_inv c Hv)
    as [ok [v0 [v1 [rest [Ho [Hnd [Hf [Hne Hp]]]]]]]].
  inversion Hnd as [|? ? Hok Hnd']. subst.
  assert (Hns : nodupb (keys (_ensure_ndarray (cfg_stim_domain c))) = true)
    by (apply nodupb_NoDup; eapply NoDup_app_remove_r; eauto).
  assert (Hnp : nodupb (keys (_ensure_ndarray (cfg_param_domain c))) = true)
    by (apply nodupb_NoDup; eapply NoDup_app_remove_l; eauto).
  destruct (init_wf c st Hns Hnp Hinit)
    as [Hwf [HLn [Hpost [Hgp [_ [Hpd _]]]]]].
  assert (Hfl : float_prior (cfg_prior c) = true).
  { destruct (cfg_prior c) as [pr|] eqn:E; [|reflexivity].
    cbn [float_prior option_map] in *. apply negb_true_iff.
    assert (Hb : prior_broadcasts pr = true).
    { destruct (prior_ok_inv _ _ Hp) as [_ [_ [Hl [Hh _]]]].
      unfold prior_broadcasts. apply andb_true_iff. split.
      - apply Nat.leb_le. unfold weights_of in Hl.
        now rewrite length_map in Hl.
      - apply negb_true_iff, Nat.eqb_neq. unfold axis_len in Hh.
        destruct pr as [|[k w] pr]; [cbn in Hl; lia|].
        cbn in *. now rewrite length_map in Hh. }
    exact (proj1 (gen_prior_accepts _ pr _ Hb Hgp)). }
  destruct (gen_prior_ok (_ensure_ndarray (cfg_param_domain c)) (cfg_prior c))
    as [p [Hgp' [_ [_ [Hpn Hpt]]]]];
    [eapply NoDup_app_remove_l; eauto|assumption|assumption|assumption|].
  rewrite Hgp in Hgp'. injection Hgp' as <-.
  split; [|split; assumption].
  constructor; [assumption| |assumption]. now rewrite Hpost.
Qed.

End Construction.

(* ================================================================== *)
(** ** The arrays of [next_stim] *)
(* ================================================================== *)

Lemma filter_keep_disjoint {V} (ks : list string) (d : dict V) :
  (forall k, In k (keys d) -> ~ In k ks) ->
  filter (fun kv => negb (mem (fst kv) ks)) d = d.
Proof.
  intro H. apply filter_all. intros [k v] Hin.
  apply negb_true_iff, mem_notIn. apply H.
  change k with (fst (k, v)). now apply in_map.
Qed.

Lemma filter_drop_subset {V} (ks : list string) (d : dict V) :
  (forall k, In k (keys d) -> In k ks) ->
  filter (fun kv => negb (mem (fst kv) ks)) d = [].
Proof.
  intro H. apply filter_none. intros [k v] Hin.
  apply negb_false_iff, mem_In. apply H.
  change k with (fst (k, v)). now apply in_map.
Qed.

Lemma axis_sizes_self (d r : dict (list pyval)) :
  NoDup (keys d) ->
  map (fun k => match get (d ++ r) k with
                | Some l => List.length l
                | None => 0%nat
                end) (keys d) = axis_shape d.
Proof.
  intro Hnd. unfold axis_shape, values, keys. rewrite !map_map.
  apply map_ext_in. intros [k l] Hin. cbn [fst snd].
  rewrite get_app_l by (change k with (fst (k, l)); now apply in_map).
  now rewrite (In_get d k l Hnd Hin).
Qed.

Lemma da_sum_ok (dim : list string) (a : DataArray) :
  (forall k, In k dim -> In k (dims a)) ->
  da_sum dim a =
  OK {| coords := filter (fun kv => negb (mem (fst kv) dim)) (coords a);
        data := fun e =>
          nansum (map (fun idx => data a (bind_env e dim idx))
                      (indices (axis_sizes a dim))) |}.
Proof.
  intro H. unfold da_sum.
  replace (forallb (fun k => mem k (dims a)) dim) with true; [reflexivity|].
  symmetry. apply forallb_forall. intros k Hk. apply mem_In. auto.
Qed.

(** the outcome axis of a well-formed engine *)
Lemma wf_outcome (st : QuestPlus) (ok : string) (ol : list pyval) :
  outcome_axis st = Some (ok, ol) ->
  keys (outcome_domain st) = [ok] /\ List.length ol = 2%nat.
Proof.
  unfold outcome_axis.
  destruct (outcome_domain st) as [|[k [|v0 [|v1 rest]]] [|? ?]];
    try discriminate.
  intros [= <- <-]. now split.
Qed.

Section Selection.

Variable ln : Qc -> Qc.
Variable st : QuestPlus.
Hypothesis Hwf : well_formed st.

Lemma joint_coords :
  exists ok ol,
    outcome_axis st = Some (ok, ol) /\
    coords (da_mul (posterior st) (likelihoods st))
    = param_domain st ++ (ok, ol) :: stim_domain st.
Proof.
  destruct (wf_axes st Hwf) as [ok [ol [Hax [Hc [Hns [Hnp [Hos [Hop Hsp]]]]]]]].
  exists ok, ol. split; [assumption|].
  unfold da_mul, dims. cbn [coords]. rewrite (wf_post st Hwf), Hc.
  f_equal. cbn [filter fst].
  replace (mem ok (keys (param_domain st))) with false
    by (symmetry; now apply mem_notIn).
  cbn [negb]. f_equal. rewrite filter_app.
  rewrite filter_keep_disjoint by exact Hsp.
  rewrite filter_self_keys. apply app_nil_r.
Qed.

Lemma pk_array :
  exists ok ol,
    outcome_axis st = Some (ok, ol) /\
    da_sum (keys (param_domain st)) (da_mul (posterior st) (likelihoods st))
    = OK {| coords := (ok, ol) :: stim_domain st; data := pk_data st |}.
Proof.
  destruct (wf_axes st Hwf) as [ok [ol [Hax [Hc [Hns [Hnp [Hos [Hop Hsp]]]]]]]].
  destruct joint_coords as [ok' [ol' [Hax' Hj]]].
  rewrite Hax in Hax'. inversion Hax'. subst ok' ol'.
  exists ok, ol. split; [assumption|].
  rewrite da_sum_ok.
  - f_equal. apply da_eq.
    + rewrite Hj, filter_app, filter_self_keys. cbn [app filter fst].
      replace (mem ok (keys (param_domain st))) with false
        by (symmetry; now apply mem_notIn).
      cbn [negb]. f_equal. now apply filter_keep_disjoint.
    + intro e. unfold pk_data, param_cells, axis_sizes. rewrite Hj.
      now rewrite axis_sizes_self.
  - intros k Hk. unfold dims. rewrite Hj, keys_app. apply in_app_iff. now left.
Qed.

Lemma H_array (ok : string) (ol : list pyval) :
  outcome_axis st = Some (ok, ol) ->
  let pk := {| coords := (ok, ol) :: stim_domain st; data := pk_data st |} in
  let new_posterior := da_idiv (da_mul (posterior st) (likelihoods st)) pk in
  da_sum (keys (param_domain st))
         (da_mul new_posterior (da_map (nlog ln) new_posterior))
  = OK {| coords := (ok, ol) :: stim_domain st;
          data := fun e =>
            nansum (map (fun th => plogp_data ln st
                                     (bind_env e (keys (param_domain st)) th))
                        (param_cells st)) |}.
Proof.
  intros Hax pk new_posterior.
  destruct (wf_axes st Hwf) as [ok' [ol' [Hax' [Hc [Hns [Hnp [Hos [Hop Hsp]]]]]]]].
  rewrite Hax in Hax'. inversion Hax'. subst ok' ol'.
  destruct joint_coords as [ok' [ol' [Hax'' Hj]]].
  rewrite Hax in Hax''. inversion Hax''. subst ok' ol'.
  assert (Hx : coords (da_mul new_posterior (da_map (nlog ln) new_posterior))
               = param_domain st ++ (ok, ol) :: stim_domain st).
  { unfold da_mul at 1, dims. cbn [coords new_posterior da_idiv da_map].
    rewrite filter_self_keys, app_nil_r. exact Hj. }
  rewrite da_sum_ok.
  - f_equal. apply da_eq.
    + rewrite Hx, filter_app, filter_self_keys. cbn [app filter fst].
      replace (mem ok (keys (param_domain st))) with false
        by (symmetry; now apply mem_notIn).
      cbn [negb]. f_equal. now apply filter_keep_disjoint.
    + intro e. unfold param_cells, axis_sizes. rewrite Hx.
      now rewrite axis_sizes_self.
  - intros k Hk. unfold dims. rewrite Hx, keys_app. apply in_app_iff. now left.
Qed.

Lemma EH_array_ok (ok : string) (ol : list pyval) :
  outcome_axis st = Some (ok, ol) ->
  let pk := {| coords := (ok, ol) :: stim_domain st; data := pk_data st |} in
  let s := {| coords := (ok, ol) :: stim_domain st;
              data := fun e =>
                nansum (map (fun th => plogp_data ln st
                                  (bind_env e (keys (param_domain st)) th))
                            (param_cells st)) |} in
  da_sum (keys (outcome_domain st)) (da_mul pk (da_map nneg s))
  = OK (EH_array ln st).
Proof.
  intros Hax pk s.
  destruct (wf_axes st Hwf) as [ok' [ol' [Hax' [Hc [Hns [Hnp [Hos [Hop Hsp]]]]]]]].
  rewrite Hax in Hax'. inversion Hax'. subst ok' ol'.
  destruct (wf_outcome st ok ol Hax) as [Hok Hol].
  assert (Hx : coords (da_mul pk (da_map nneg s))
               = (ok, ol) :: stim_domain st).
  { unfold da_mul, dims. cbn [coords pk s da_map].
    rewrite filter_self_keys. apply app_nil_r. }
  rewrite da_sum_ok.
  - f_equal. unfold EH_array. apply da_eq.
    + rewrite Hx, Hok. cbn [filter fst].
      replace (mem ok [ok]) with true
        by (symmetry; apply mem_In; now left).
      cbn [negb]. apply filter_keep_disjoint. intros k Hk [<-|[]]. tauto.
    + intro e. unfold EH_data, axis_sizes. rewrite Hx, Hok.
      cbn [map get]. rewrite String.eqb_refl, Hol. reflexivity.
  - rewrite Hok. intros k [<-|[]]. unfold dims. rewrite Hx. now left.
Qed.

(** [next_stim] is the selection on the array of expected entropies *)
Lemma next_stim_unfold :
  next_stim ln st =
  if String.eqb (stim_selection st) "min_entropy" then
    match da_argmin (EH_array ln st) with
    | OK flat =>
        match np_unravel_index flat (shape (EH_array ln st)) with
        | OK index =>
            match coords_at (stim_domain st) index with
            | OK stim => (OK stim, set_entropy st (da_min (EH_array ln st)))
            | Raise e => (Raise e, st)
            end
        | Raise e => (Raise e, st)
        end
    | Raise e => (Raise e, st)
    end
  else (Raise ValueError, st).
Proof.
  destruct pk_array as [ok [ol [Hax Hpk]]].
  unfold next_stim, bind, read, lift, write, ret.
  rewrite Hpk, (H_array ok ol Hax), (EH_array_ok ok ol Hax).
  destruct (String.eqb (stim_selection st) "min_entropy"); [|reflexivity].
  destruct (da_argmin (EH_array ln st)); [|reflexivity].
  destruct (np_unravel_index _ _); [|reflexivity].
  cbn [coords EH_array]. destruct (coords_at _ _); reflexivity.
Qed.

End Selection.

(* ================================================================== *)
(** ** The expected entropy, cell by cell *)
(* ================================================================== *)

Lemma nansum_fin_or_nan {A} (f : A -> num) (g : A -> Qc) (l : list A) :
  (forall x, In x l -> f x = Fin (g x) \/ (f x = NaN /\ g x = 0)) ->
  nansum (map f l) = Fin (qsum (map g l)).
Proof.
  intro H. rewrite <- nansum_fin. unfold nansum.
  generalize (Fin 0). induction l as [|x l IH]; intro a; [reflexivity|].
  cbn [map fold_left]. rewrite IH by (intros; apply H; now right).
  f_equal. f_equal. destruct (H x (or_introl eq_refl)) as [->|[-> ->]];
    reflexivity.
Qed.

Section EntropyCells.

Variable ln : Qc -> Qc.
Variable st : QuestPlus.

(** every cell of Posterior x LikelihoodTensor is a non-negative number, or
    is NaN and counts as 0 *)
Hypothesis HJ : forall s o th,
    In th (param_cells st) ->
    (J_data st (cell st s o th) = Fin (joint st s o th) \/
     (J_data st (cell st s o th) = NaN /\ joint st s o th = 0)) /\
    0 <= joint st s o th.

Lemma pk_data_bind (e : env) (th : list nat) :
  In th (param_cells st) ->
  pk_data st (bind_env e (keys (param_domain st)) th) = pk_data st e.
Proof.
  intro Hth. unfold pk_data. f_equal. apply map_ext_in. intros th' Hth'.
  rewrite bind_env_bind; [reflexivity|].
  unfold param_cells in *.
  now rewrite (indices_length _ _ Hth), (indices_length _ _ Hth').
Qed.

Lemma pk_data_spec (s : list nat) (o : nat) :
  pk_data st (bind_env (bind_env env0 (keys (stim_domain st)) s)
                       (keys (outcome_domain st)) [o])
  = Fin (pk_spec st s o) /\
  0 <= pk_spec st s o.
Proof.
  split.
  - unfold pk_data, pk_spec. apply nansum_fin_or_nan. intros th Hth.
    apply (HJ s o th Hth).
  - apply qsum_nonneg, Forall_forall. intros x Hx.
    apply in_map_iff in Hx. destruct Hx as [th [<- Hth]].
    apply (HJ s o th Hth).
Qed.

Lemma pk_data_cell (s : list nat) (o : nat) (th : list nat) :
  In th (param_cells st) ->
  pk_data st (cell st s o th) = Fin (pk_spec st s o).
Proof.
  intro Hth. unfold cell. rewrite (pk_data_bind _ th Hth).
  apply pk_data_spec.
Qed.

Lemma plogp_zero (c : Qc) : plogp ln (0 / c) = 0.
Proof.
  replace (0 / c) with 0 by (unfold Qcdiv; ring). reflexivity.
Qed.

Lemma plogp_data_spec (s : list nat) (o : nat) (th : list nat) :
  In th (param_cells st) ->
  pk_spec st s o <> 0 ->
  let x := joint st s o th / pk_spec st s o in
  plogp_data ln st (cell st s o th) = Fin (plogp ln x) \/
  (plogp_data ln st (cell st s o th) = NaN /\ plogp ln x = 0).
Proof.
  intros Hth Hc x. unfold plogp_data.
  rewrite (pk_data_cell s o th Hth).
  destruct (HJ s o th Hth) as [[HJ1|[HJ1 HJ2]] HJ0]; rewrite HJ1.
  - rewrite ndiv_fin by exact Hc. fold x.
    unfold plogp, nlog. destruct (is_zero x) eqn:Ez.
    + right. split; [|reflexivity]. cbn [nmul sgn]. now rewrite Ez.
    + left. assert (Hx : 0 <= x).
      { apply Qc_div_nonneg; [exact HJ0|apply pk_data_spec]. }
      apply Qc_ltb_ge in Hx. now rewrite Hx.
  - right. split; [reflexivity|]. unfold x. rewrite HJ2. apply plogp_zero.
Qed.

Lemma plogp_data_zero (s : list nat) (o : nat) (th : list nat) :
  In th (param_cells st) ->
  pk_spec st s o = 0 ->
  plogp_data ln st (cell st s o th) = NaN.
Proof.
  intros Hth Hc. unfold plogp_data.
  rewrite (pk_data_cell s o th Hth), Hc.
  destruct (HJ s o th Hth) as [[HJ1|[HJ1 HJ2]] HJ0]; rewrite HJ1;
    [|reflexivity].
  assert (Hj : joint st s o th = 0).
  { assert (Hall : Forall (eq 0) (map (joint st s o) (param_cells st))).
    { apply qsum_zero; [|exact Hc]. apply Forall_forall. intros y Hy.
      apply in_map_iff in Hy. destruct Hy as [th' [<- Hth']].
      apply (HJ s o th' Hth'). }
    rewrite Forall_forall in Hall. symmetry. apply Hall. now apply in_map. }
  rewrite Hj. reflexivity.
Qed.

Lemma H_data_spec (s : list nat) (o : nat) :
  H_data ln st (bind_env (bind_env env0 (keys (stim_domain st)) s)
                         (keys (outcome_domain st)) [o])
  = Fin (if is_zero (pk_spec st s o) then 0 else H_spec ln st s o).
Proof.
  unfold H_data. destruct (is_zero (pk_spec st s o)) eqn:Ez.
  - apply is_zero_true in Ez.
    rewrite nansum_all_nan; [reflexivity|].
    intros th Hth. now apply (plogp_data_zero s o th).
  - apply is_zero_false in Ez.
    rewrite (nansum_fin_or_nan _
               (fun th => plogp ln (joint st s o th / pk_spec st s o))).
    + reflexivity.
    + intros th Hth. now apply (plogp_data_spec s o th).
Qed.

(** the array of [next_stim] holds the expected entropy of the
    specification *)
Lemma EH_data_spec (s : list nat) :
  EH_data ln st (bind_env env0 (keys (stim_domain st)) s)
  = Fin (EH_spec ln st s).
Proof.
  unfold EH_data, EH_spec. cbn [indices seq flat_map map app].
  rewrite <- nansum_fin. cbn [map]. f_equal.
  assert (E : forall o,
    nmul (pk_data st (bind_env (bind_env env0 (keys (stim_domain st)) s)
                               (keys (outcome_domain st)) [o]))
         (H_data ln st (bind_env (bind_env env0 (keys (stim_domain st)) s)
                                 (keys (outcome_domain st)) [o]))
    = Fin (if is_zero (pk_spec st s o) then 0
           else pk_spec st s o * H_spec ln st s o)).
  { intro o. rewrite (proj1 (pk_data_spec s o)), H_data_spec. cbn [nmul].
    f_equal. destruct (is_zero (pk_spec st s o)) eqn:Ez; [|reflexivity].
    apply is_zero_true in Ez. rewrite Ez. ring. }
  now rewrite !E.
Qed.

Lemma EH_values :
  da_values (EH_array ln st)
  = map (fun s => Fin (EH_spec ln st s)) (stim_cells st).
Proof.
  unfold da_values, dims, shape. cbn [coords EH_array data].
  apply map_ext. intro s. apply EH_data_spec.
Qed.

End EntropyCells.

Lemma proper_joint (st : QuestPlus) (s : list nat) (o : nat) (th : list nat) :
  proper st ->
  (J_data st (cell st s o th) = Fin (joint st s o th) \/
   (J_data st (cell st s o th) = NaN /\ joint st s o th = 0)) /\
  0 <= joint st s o th.
Proof.
  intro Hp. unfold J_data, joint.
  destruct (proper_post st Hp (cell st s o th)) as [p [-> Hp0]].
  destruct (proper_lik st Hp (cell st s o th)) as [l [-> Hl0]].
  cbn [qval nmul]. split; [now left|]. now apply Qc_mult_nonneg.
Qed.

Lemma nan_joint (st : QuestPlus) (s : list nat) (o : nat) (th : list nat) :
  nan_posterior st ->
  In th (param_cells st) ->
  (J_data st (cell st s o th) = Fin (joint st s o th) \/
   (J_data st (cell st s o th) = NaN /\ joint st s o th = 0)) /\
  0 <= joint st s o th.
Proof.
  intros [Hwf [Hl Hn]] Hth.
  assert (HP : data (posterior st) (cell st s o th) = NaN).
  { rewrite (da_values_posterior st (wf_post st Hwf)) in Hn.
    rewrite Forall_map, Forall_forall in Hn. rewrite (Hn th Hth).
    unfold cell. apply local_bind.
    - apply (wf_local_post st Hwf).
    - rewrite (indices_length _ _ Hth). unfold axis_shape, keys, values.
      now rewrite !length_map.
    - intros k Hk. left. unfold dims in Hk. now rewrite (wf_post st Hwf) in Hk. }
  unfold J_data, joint. rewrite HP. rewrite nmul_nan_l. cbn [qval].
  assert (E : 0 * qval (data (likelihoods st) (cell st s o th)) = 0) by ring.
  rewrite E. split; [right; now split|apply Qcle_refl].
Qed.

Lemma run_state_joint (st : QuestPlus) (s : list nat) (o : nat)
      (th : list nat) :
  run_state st ->
  In th (param_cells st) ->
  (J_data st (cell st s o th) = Fin (joint st s o th) \/
   (J_data st (cell st s o th) = NaN /\ joint st s o th = 0)) /\
  0 <= joint st s o th.
Proof.
  intros [Hp|Hn] Hth; [now apply proper_joint|now apply nan_joint].
Qed.

Lemma run_state_wf (st : QuestPlus) : run_state st -> well_formed st.
Proof. intros [Hp|[Hwf _]]; [apply (proper_wf st Hp)|exact Hwf]. Qed.

(** an impossible trial turns a proper posterior into NaN *)
Lemma update_impossible (st : QuestPlus) (stim outcome : dict pyval) :
  proper st -> valid_call st stim outcome = true ->
  informative st stim outcome = false ->
  nan_posterior (snd (update stim outcome st)).
Proof.
  intros Hp Hv Hi. pose proof (proper_wf st Hp) as Hwf.
  split; [now apply update_wf|]. split.
  - rewrite (update_ok st stim outcome Hwf Hv). apply (proper_lik st Hp).
  - rewrite (da_values_posterior _
               (wf_post _ (update_wf st stim outcome Hwf Hv))).
    rewrite (update_ok st stim outcome Hwf Hv). cbn [snd].
    cbn [posterior param_domain set_resp_history set_stim_history
         set_posterior].
    rewrite Forall_map, Forall_forall. intros th Hth. cbn [bayes data].
    rewrite (evidence_const st stim outcome _ Hwf Hv).
    destruct (evidence_fin st stim outcome Hp) as [He He0].
    unfold informative in Hi. apply negb_false_iff, num_eqb_eq in Hi.
    rewrite Hi. rewrite He in Hi. injection Hi as Hq.
    assert (Hall : Forall (eq 0)
              (map (fun idx => qval (joint_cell st stim outcome
                        (bind_env env0 (keys (param_domain st)) idx)))
                   (indices (axis_shape (param_domain st))))).
    { apply qsum_zero; [|exact Hq]. apply Forall_forall. intros y Hy.
      apply in_map_iff in Hy. destruct Hy as [idx [<- _]].
      now apply joint_cell_fin. }
    rewrite Forall_map, Forall_forall in Hall.
    rewrite (proj1 (joint_cell_fin st stim outcome _ Hp)).
    rewrite <- (Hall th Hth). reflexivity.
Qed.

Section Reachable.

Variable ln : Qc -> Qc.

Lemma run_run_state (st st' : QuestPlus) :
  run_state st -> trial_run ln false st st' -> run_state st'.
Proof.
  intros Hs Hr. induction Hr as [| |s s1 stim outcome Hr IH Hv _].
  - assumption.
  - destruct (IHHr Hs) as [Hp|[Hwf [Hl Hn]]].
    + left. now apply next_stim_proper.
    + right. split; [now apply next_stim_wf|].
      rewrite next_stim_frame. now split.
  - destruct (IH Hs) as [Hp|[Hwf [Hl Hn]]].
    + destruct (informative s1 stim outcome) eqn:Hi.
      * left. now apply update_proper.
      * right. now apply update_impossible.
    + right. split; [now apply update_wf|]. split.
      * rewrite (update_ok s1 stim outcome Hwf Hv). exact Hl.
      * now apply update_keeps_nan.
Qed.

Variable psychometric_function :
  string -> dict (list pyval) -> dict (list pyval) -> string -> DataArray.

Hypothesis provider : provider_ok psychometric_function.

(** every state reached from a valid configuration by valid calls has a
    finite non-negative posterior, or the NaN posterior of an impossible
    trial *)
Lemma reachable_run_state (st : QuestPlus) :
  reachable psychometric_function ln st -> run_state st.
Proof.
  intros [c st0 st' Hv Hinit Hr].
  destruct (init_proper psychometric_function provider c st0 Hv Hinit)
    as [Hp _].
  eapply run_run_state; [left; exact Hp|exact Hr].
Qed.

End Reachable.

(* ================================================================== *)
(** ** First minimum, and the grid *)
(* ================================================================== *)

Lemma argmin_from_spec (l : list Qc) :
  forall (pre : list Qc) (best : nat),
    first_min pre best ->
    let r := argmin_from best (Fin (nth best pre 0)) (List.length pre)
                         (map Fin l) in
    first_min (pre ++ l) r /\
    fold_left (fun m y => if nltb y m then y else m) (map Fin l)
              (Fin (nth best pre 0))
    = Fin (nth r (pre ++ l) 0).
Proof.
  induction l as [|x l IH]; intros pre best [Hb [Hmin Hfirst]].
  - cbn. rewrite app_nil_r. repeat split; auto.
  - cbn [map argmin_from fold_left nltb].
    assert (Hpre : forall j, (j < List.length pre)%nat ->
                     nth j (pre ++ [x]) 0 = nth j pre 0)
      by (intros; now apply app_nth1).
    assert (Hx : nth (List.length pre) (pre ++ [x]) 0 = x)
      by (rewrite app_nth2, Nat.sub_diag by lia; reflexivity).
    assert (Hlen : List.length (pre ++ [x]) = S (List.length pre))
      by (rewrite length_app; cbn; lia).
    destruct (Qc_ltb x (nth best pre 0)) eqn:E.
    + apply Qc_ltb_lt in E.
      specialize (IH (pre ++ [x]) (List.length pre)).
      rewrite Hlen, Hx, <- app_assoc in IH. apply IH.
      unfold first_min. rewrite Hlen, Hx. split; [lia|]. split.
      * intros j Hj. destruct (Nat.eq_dec j (List.length pre)) as [->|Hne].
        -- rewrite Hx. apply Qcle_refl.
        -- rewrite Hpre by lia. apply Qclt_le_weak.
           eapply Qclt_le_trans; [exact E|]. apply Hmin. lia.
      * intros j Hj. rewrite Hpre by lia.
        eapply Qclt_le_trans; [exact E|]. apply Hmin. lia.
    + apply Qc_ltb_ge in E.
      specialize (IH (pre ++ [x]) best).
      rewrite Hlen, (Hpre best Hb), <- app_assoc in IH. apply IH.
      unfold first_min. rewrite Hlen, (Hpre best Hb). split; [lia|]. split.
      * intros j Hj. destruct (Nat.eq_dec j (List.length pre)) as [->|Hne].
        -- now rewrite Hx.
        -- rewrite Hpre by lia. apply Hmin. lia.
      * intros j Hj. rewrite Hpre by lia. now apply Hfirst.
Qed.

Lemma map_nan_to_pinf_fin (qs : list Qc) :
  map nan_to_pinf (map Fin qs) = map Fin qs.
Proof. rewrite map_map. reflexivity. Qed.

Lemma nanargmin_fin (qs : list Qc) :
  qs <> [] ->
  exists i, np_nanargmin (map Fin qs) = Some i /\
            first_min qs i /\
            np_nanmin (map Fin qs) = Fin (nth i qs 0).
Proof.
  destruct qs as [|x qs]; [congruence|]. intros _.
  unfold np_nanargmin, np_nanmin. rewrite map_nan_to_pinf_fin.
  cbn [map all_nan forallb isnan andb np_argmin].
  assert (H0 : first_min [x] 0).
  { unfold first_min. cbn. split; [lia|]. split.
    - intros j Hj. replace j with 0%nat by lia. apply Qcle_refl.
    - intros j Hj. lia. }
  destruct (argmin_from_spec qs [x] 0%nat H0) as [H1 H2].
  cbn [nth List.length app] in H1, H2.
  eexists. split; [reflexivity|]. split; assumption.
Qed.

Lemma length_grid (d : dict (list pyval)) :
  List.length (grid d) = size_of (axis_shape d).
Proof.
  induction d as [|[k l] d IH]; [reflexivity|].
  cbn [grid]. rewrite (length_flat_map_const _ (size_of (axis_shape d))).
  - reflexivity.
  - intro. now rewrite length_map.
Qed.

Lemma nth_error_list_blocks {A B} (f : A -> list B) (m : nat) :
  (forall x, List.length (f x) = m) ->
  forall (l : list A) (i : nat) (x : A),
    (i mod m < m)%nat ->
    nth_error l (i / m) = Some x ->
    nth_error (flat_map f l) i = nth_error (f x) (i mod m).
Proof.
  intros Hf l. induction l as [|y l IH]; intros i x Hm Hx.
  - destruct (i / m)%nat; discriminate.
  - assert (Hm0 : (m <> 0)%nat) by lia.
    cbn [flat_map]. destruct (Nat.lt_ge_cases i m) as [Hlt|Hge].
    + rewrite Nat.div_small in Hx by exact Hlt. cbn in Hx. inversion Hx. subst.
      rewrite nth_error_app1 by (rewrite Hf; exact Hlt).
      now rewrite Nat.mod_small.
    + rewrite nth_error_app2 by (rewrite Hf; exact Hge). rewrite Hf.
      assert (Ei : i = ((i - m) + 1 * m)%nat) by lia.
      assert (Ed : (i / m = S ((i - m) / m))%nat).
      { rewrite Ei at 1. rewrite Nat.div_add by exact Hm0. lia. }
      assert (Em : (i mod m = (i - m) mod m)%nat).
      { rewrite Ei at 1. now rewrite Nat.Div0.mod_add. }
      rewrite Ed in Hx. cbn [nth_error] in Hx. rewrite Em in *.
      now apply IH.
Qed.

(** the coordinates read at an unravelled position are the entry of the
    grid at that position *)
Lemma coords_at_grid (d : dict (list pyval)) :
  forall i, (i < size_of (axis_shape d))%nat ->
    coords_at d (unravel i (axis_shape d)) = OK (nth i (grid d) []) /\
    nth_error (grid d) i = Some (nth i (grid d) []).
Proof.
  induction d as [|[k l] d IH]; intros i Hi.
  - cbn in *. replace i with 0%nat by lia. now split.
  - change (axis_shape ((k, l) :: d))
      with (List.length l :: axis_shape d) in *.
    change (size_of (List.length l :: axis_shape d))
      with (List.length l * size_of (axis_shape d))%nat in Hi.
    set (m := size_of (axis_shape d)) in *.
    assert (Hm : (m <> 0)%nat) by (intro E; rewrite E in Hi; lia).
    assert (Hq : (i / m < List.length l)%nat)
      by (apply Nat.Div0.div_lt_upper_bound; lia).
    assert (Hr : (i mod m < m)%nat) by now apply Nat.mod_upper_bound.
    destruct (nth_error l (i / m)) as [v|] eqn:Ev;
      [|apply nth_error_None in Ev; lia].
    destruct (IH (i mod m)%nat Hr) as [IH1 IH2].
    assert (Hg : nth_error (grid ((k, l) :: d)) i
                 = Some ((k, v) :: nth (i mod m) (grid d) [])).
    { cbn [grid].
      rewrite (nth_error_list_blocks _ m) with (x := v);
        [|intro; now rewrite length_map, length_grid|exact Hr|exact Ev].
      cbv beta. rewrite nth_error_map.
      exact (f_equal (option_map (cons (k, v))) IH2). }
    rewrite (nth_error_nth _ _ _ Hg). split; [|exact Hg].
    cbn [unravel coords_at]. fold m. rewrite Ev, IH1. reflexivity.
Qed.

(* ================================================================== *)
(** ** Frames *)
(* ================================================================== *)

Lemma log_stim_frame (stim : dict pyval) :
  forall st : QuestPlus,
    snd (log_stim stim st)
    = set_stim_history st (stim_history (snd (log_stim stim st))).
Proof.
  induction stim as [|[k v] stim IH]; intro st.
  - cbn. symmetry. apply set_stim_history_id.
  - cbn [log_stim]. unfold bind, read, lift, write.
    destruct (dict_append (stim_history st) k v) as [h|e].
    + rewrite IH. reflexivity.
    + cbn. symmetry. apply set_stim_history_id.
Qed.

(** no method writes the prior *)
Lemma update_prior (stim outcome : dict pyval) (st : QuestPlus) :
  prior (snd (update stim outcome st)) = prior st.
Proof.
  unfold update, bind, read, lift, write.
  destruct (kwargs stim outcome); [|reflexivity].
  destruct (da_sel (likelihoods st) a); [|reflexivity].
  match goal with
  | |- context [log_stim stim ?s] =>
      pose proof (log_stim_frame stim s) as Hf;
      destruct (log_stim stim s) as [[[]|e] s']
  end; cbn [snd] in *; rewrite Hf; reflexivity.
Qed.

Lemma next_stim_prior (ln : Qc -> Qc) (st : QuestPlus) :
  prior (snd (next_stim ln st)) = prior st.
Proof. rewrite next_stim_frame. reflexivity. Qed.


Lemma nth_map_in {A} (f : A -> Qc) (l : list A) (i : nat) (x : A) :
  nth_error l i = Some x -> nth i (map f l) 0 = f x.
Proof.
  intro H. apply nth_error_nth. rewrite nth_error_map, H. reflexivity.
Qed.

(* ================================================================== *)
(** ** The claims on selection, normalisation and construction *)
(* ================================================================== *)

Section Claims.

Variable ln : Qc -> Qc.

Variable psychometric_function :
  string -> dict (list pyval) -> dict (list pyval) -> string -> DataArray.

Hypothesis provider : provider_ok psychometric_function.

(** C1. With [stim_selection_method = 'min_entropy'], in every state that a
    run of valid calls reaches from a valid construction
    ([reachable_run_state]: the posterior is finite and non-negative, or it
    is the NaN posterior left by an impossible trial, whose cells the sums
    skip), [next_stim] returns the stimulus coordinate minimising the
    expected posterior entropy EH(s) = sum over outcomes o of
    pk(s,o) * H(s,o), where pk is the parameter-axis marginal of
    Posterior x LikelihoodTensor and H the entropy of the renormalised joint
    with 0 * log 0 = 0 and nothing contributed where pk = 0; among equal
    minima it returns the first of the stimulus grid in its canonical
    row-major order; the entropy scalar of the engine is the minimum
    afterwards, and the posterior is the one before the call. *)
Theorem next_stim_minimises_expected_entropy (st : QuestPlus) :
  run_state st ->
  stim_selection st = "min_entropy" ->
  stim_cells st <> [] ->
  exists i s,
    nth_error (stim_cells st) i = Some s /\
    first_min (map (EH_spec ln st) (stim_cells st)) i /\
    fst (next_stim ln st) = OK (nth i (grid (stim_domain st)) []) /\
    entropy (snd (next_stim ln st)) = Fin (EH_spec ln st s) /\
    posterior (snd (next_stim ln st)) = posterior st /\
    next_stim ln st =
    (OK (nth i (grid (stim_domain st)) []),
     set_entropy st (Fin (EH_spec ln st s))).
Proof.
  intros Hp Hsel Hne.
  destruct (nanargmin_fin (map (EH_spec ln st) (stim_cells st)))
    as [i [Harg [Hmin Hval]]].
  { destruct (stim_cells st); [congruence|discriminate]. }
  assert (Hi : (i < size_of (axis_shape (stim_domain st)))%nat).
  { destruct Hmin as [Hi _]. rewrite length_map in Hi.
    unfold stim_cells in Hi. now rewrite length_indices in Hi. }
  exists i, (unravel i (axis_shape (stim_domain st))).
  assert (Hs : nth_error (stim_cells st) i
               = Some (unravel i (axis_shape (stim_domain st))))
    by now apply nth_error_indices.
  split; [exact Hs|]. split; [exact Hmin|].
  assert (E : next_stim ln st =
              (OK (nth i (grid (stim_domain st)) []),
               set_entropy st
                 (Fin (EH_spec ln st
                         (unravel i (axis_shape (stim_domain st))))))).
  { rewrite (next_stim_unfold ln st (run_state_wf st Hp)), Hsel.
    cbn [String.eqb Ascii.eqb Bool.eqb andb].
    unfold da_argmin, da_min.
    rewrite (EH_values ln st (fun s o th => run_state_joint st s o th Hp)).
    rewrite <- (map_map (EH_spec ln st) Fin), Harg, Hval.
    unfold np_unravel_index, shape. cbn [coords EH_array].
    fold (axis_shape (stim_domain st)).
    replace (i <? size_of (axis_shape (stim_domain st)))%nat with true
      by (symmetry; now apply Nat.ltb_lt).
    rewrite (proj1 (coords_at_grid (stim_domain st) i Hi)).
    now rewrite (nth_map_in _ _ _ _ Hs). }
  rewrite E. repeat split.
Qed.


(** C6 (amended). Whenever the constructor returns an engine: if the prior
    argument was omitted, the prior is uniform over the parameter grid (and
    sums to 1 unless a parameter axis is empty); if a prior map was supplied
    that lists the parameter axes in their order and whose outer product
    does not add up to 0 (numpy multiplying with broadcasting), the prior is
    the outer product of the per-axis weights, normalised to sum to 1.  No
    method ([update], [next_stim], [param_estimate]) writes the prior after
    construction. *)
Theorem prior_construction (c : Config) (st : QuestPlus) :
  __init__ psychometric_function c = OK st ->
  (cfg_prior c = None ->
   (forall idx, In idx (param_cells st) ->
      data (prior st) (bind_env env0 (keys (param_domain st)) idx)
      = Fin (1 / n_cells (param_domain st))) /\
   (nonempty_axes (param_domain st) = true -> total (prior st) = Fin 1)) /\
  (forall pr, cfg_prior c = Some pr ->
     NoDup (keys (param_domain st)) ->
     keys pr = keys (param_domain st) ->
     prior_broadcasts pr = true ->
     outer_total (weights_of pr) (param_domain st) <> 0 ->
     total (prior st) = Fin 1 /\
     forall idx, In idx (param_cells st) ->
       data (prior st) (bind_env env0 (keys (param_domain st)) idx)
       = Fin (outer (weights_of pr) (keys (param_domain st)) idx
              / outer_total (weights_of pr) (param_domain st))) /\
  (forall s stim outcome, prior (snd (update stim outcome s)) = prior s) /\
  (forall s, prior (snd (next_stim ln s)) = prior s) /\
  (forall s, prior (snd (param_estimate s)) = prior s).
Proof.
  intro Hinit. unfold __init__ in Hinit. cbv zeta in Hinit.
  set (pd := _ensure_ndarray (cfg_param_domain c)) in *.
  destruct (_gen_prior pd (cfg_prior c)) as [p|] eqn:Hgp; [|discriminate].
  cbn [rbind] in Hinit.
  destruct (_gen_likelihoods _ _ _ _ _ _) as [L|]; [|discriminate].
  cbn [rbind] in Hinit. inversion Hinit. subst st. clear Hinit.
  cbn [prior param_domain]. unfold param_cells. cbn [param_domain].
  split; [|split; [|split; [|split]]].
  - intros Hnone. rewrite Hnone in Hgp. split.
    + intros idx Hidx. rewrite gen_prior_uniform in Hgp.
      injection Hgp as Ep. subst p. cbn [data]. unfold n_cells.
      change (ndiv (Fin 1)
                (Fin (qsum (map (fun _ : list nat => 1)
                                (indices (axis_shape pd)))))
              = Fin (1 / qsum (map (fun _ : list nat => 1)
                                   (indices (axis_shape pd))))).
      apply ndiv_fin. apply qsum_ones_neq. intro E. rewrite E in Hidx.
      destruct Hidx.
    + intro Hne.
      destruct (gen_prior_uniform_ok pd Hne) as [p' [Hp' [Hc [_ [_ Hcell]]]]].
      rewrite Hgp in Hp'. injection Hp' as <-.
      apply (total_normalized p (fun _ => 1));
        unfold shape, dims; rewrite Hc; fold (axis_shape pd).
      * apply qsum_ones_neq. now apply indices_nonempty.
      * exact Hcell.
  - intros pr Hsome Hnd Hk Hb Ht. rewrite Hsome in Hgp.
    destruct (gen_prior_accepts pd pr p Hb Hgp) as [Hint Hs].
    assert (Hk' : keys (weights_of pr) = keys pd)
      by now rewrite keys_weights_of.
    destruct (product_total_outer pd (weights_of pr) Hnd Hk' Hs)
      as [Etot Ecell].
    destruct (gen_prior_product pd pr Hnd Hb Hint Hs)
      as [p' [Hp' [Hc [_ [_ [_ Hcell]]]]]]; [now rewrite Etot|].
    rewrite Hgp in Hp'. injection Hp' as <-.
    assert (Hcell' : forall idx, In idx (indices (axis_shape pd)) ->
              data p (bind_env env0 (keys pd) idx)
              = Fin (outer (weights_of pr) (keys pd) idx
                     / outer_total (weights_of pr) pd)).
    { intros idx Hidx. rewrite (Hcell idx Hidx), Etot.
      now rewrite (Ecell idx Hidx). }
    split; [|exact Hcell'].
    apply (total_normalized p (outer (weights_of pr) (keys pd)));
      unfold shape, dims; rewrite Hc; fold (axis_shape pd).
    + exact Ht.
    + exact Hcell'.
  - intros. apply update_prior.
  - intros. apply next_stim_prior.
  - intros. reflexivity.
Qed.

End Claims.

(* ================================================================== *)
(** ** The example engines *)
(* ================================================================== *)

Lemma match_pf_ok : provider_ok match_pf.
Proof.
  intros name sd pd scale. split; [reflexivity|]. split.
  - intros e e' Hee. unfold match_pf, dims in *. cbn [coords data] in *.
    destruct sd as [|[sk sv] sd]; [reflexivity|].
    destruct pd as [|[pk pv] pd]; [reflexivity|].
    rewrite (Hee sk) by (cbn; now left).
    rewrite (Hee pk)
      by (rewrite keys_app; apply in_app_iff; right; cbn; now left).
    reflexivity.
  - intro e. unfold match_pf. cbn [data].
    assert (H0 : exists q, Fin 0 = Fin q /\ 0 <= q /\ q <= 1)
      by (exists 0; repeat split; discriminate).
    assert (H1 : exists q, Fin 1 = Fin q /\ 0 <= q /\ q <= 1)
      by (exists 1; repeat split; discriminate).
    destruct sd as [|[sk sv] sd]; [exact H0|].
    destruct pd as [|[pk pv] pd]; [exact H0|].
    destruct (nth_error sv (e sk)); [|exact H0].
    destruct (nth_error pv (e pk)); [|exact H0].
    destruct (pyval_eqb p p0); assumption.
Qed.

Lemma engine_of_init (c : Config) :
  buildable c = true ->
  __init__ match_pf c = OK (engine_of (__init__ match_pf c)) /\
  proper (engine_of (__init__ match_pf c)).
Proof.
  intro Hv. destruct (init_ok match_pf match_pf_ok c Hv) as [st [E [Hp _]]].
  rewrite E. cbn [engine_of]. now split.
Qed.

Lemma binary_valid : valid_config binary_cfg = true.
Proof. vm_compute. reflexivity. Qed.

Lemma binary_buildable : buildable binary_cfg = true.
Proof. vm_compute. reflexivity. Qed.

Lemma binary_init : __init__ match_pf binary_cfg = OK binary_st0.
Proof. apply (engine_of_init binary_cfg binary_buildable). Qed.

Lemma binary_proper : proper binary_st0.
Proof. apply (engine_of_init binary_cfg binary_buildable). Qed.

Lemma binary_valid_lo : valid_call binary_st0 stim_lo correct = true.
Proof. vm_compute. reflexivity. Qed.

Lemma binary_informative_lo : informative binary_st0 stim_lo correct = true.
Proof. vm_compute. reflexivity. Qed.

Lemma binary_proper1 : proper binary_st1.
Proof.
  apply update_proper;
    [exact binary_proper|exact binary_valid_lo|exact binary_informative_lo].
Qed.

Lemma binary_valid_hi : valid_call binary_st1 stim_hi correct = true.
Proof. vm_compute. reflexivity. Qed.

(* ================================================================== *)
(** ** The claims at the example engines *)
(* ================================================================== *)

(** C1 at the binary grid: both stimuli have expected entropy 0 and the
    first one is returned. *)
Lemma next_stim_minimises_expected_entropy_witness :
  run_state binary_st0 /\
  stim_selection binary_st0 = "min_entropy" /\
  stim_cells binary_st0 <> [] /\
  exists i s,
    nth_error (stim_cells binary_st0) i = Some s /\
    first_min (map (EH_spec ln_lin binary_st0) (stim_cells binary_st0)) i /\
    fst (next_stim ln_lin binary_st0)
    = OK (nth i (grid (stim_domain binary_st0)) []) /\
    entropy (snd (next_stim ln_lin binary_st0))
    = Fin (EH_spec ln_lin binary_st0 s) /\
    posterior (snd (next_stim ln_lin binary_st0)) = posterior binary_st0 /\
    next_stim ln_lin binary_st0 =
    (OK (nth i (grid (stim_domain binary_st0)) []),
     set_entropy binary_st0 (Fin (EH_spec ln_lin binary_st0 s))).
Proof.
  assert (H0 : run_state binary_st0).
  { apply (reachable_run_state ln_lin match_pf match_pf_ok).
    exact (reachable_intro match_pf ln_lin binary_cfg binary_st0 binary_st0
             binary_valid binary_init (run_nil ln_lin false binary_st0)). }
  assert (H1 : stim_selection binary_st0 = "min_entropy")
    by (vm_compute; reflexivity).
  assert (H2 : stim_cells binary_st0 <> [])
    by (vm_compute; discriminate).
  split; [exact H0|]. split; [exact H1|]. split; [exact H2|].
  exact (next_stim_minimises_expected_entropy ln_lin binary_st0 H0 H1 H2).
Defined.



Lemma zero_prior_init : __init__ match_pf zero_prior_cfg = OK zero_prior_st.
Proof.
  unfold zero_prior_st.
  destruct (__init__ match_pf zero_prior_cfg) eqn:E; [reflexivity|].
  vm_compute in E. discriminate.
Qed.







(** C5 at the binary grid configured with 'min_n_entropy' *)
Lemma min_n_entropy_is_rejected_witness :
  stim_selection min_n_st = "min_n_entropy" /\
  next_stim ln_lin min_n_st = (Raise ValueError, min_n_st).
Proof.
  assert (H : stim_selection min_n_st = "min_n_entropy")
    by (vm_compute; reflexivity).
  split; [exact H|].
  exact (min_n_entropy_is_rejected ln_lin min_n_st H).
Defined.

(** C6 as stated fails: a prior map that lists the parameter axes in
    another order is multiplied in by position, so its weights land on the
    wrong axes.  At (threshold 0, slope 1) the prior is 9/20, where the
    outer product by axis name is 1/20.  A prior map of zeros gives a prior
    of NaN, which does not sum to 1; and a prior map written with Python
    ints is rejected (TypeError). *)
Lemma prior_by_position_counterexample :
  ~ (forall c st pr,
        __init__ match_pf c = OK st ->
        cfg_prior c = Some pr ->
        forall idx, In idx (param_cells st) ->
          data (prior st) (bind_env env0 (keys (param_domain st)) idx)
          = Fin (outer (weights_of pr) (keys (param_domain st)) idx
                 / outer_total (weights_of pr) (param_domain st))) /\
  (__init__ match_pf zero_prior_cfg = OK zero_prior_st /\
   total (prior zero_prior_st) = NaN) /\
  __init__ match_pf int_prior_cfg = Raise TypeError.
Proof.
  split; [|split; [split|]].
  - intro H.
    assert (Hinit : __init__ match_pf swapped_cfg = OK swapped_st).
    { unfold swapped_st.
      destruct (__init__ match_pf swapped_cfg) eqn:E; [reflexivity|].
      vm_compute in E. discriminate. }
    specialize (H swapped_cfg swapped_st (floats swapped_prior) Hinit eq_refl
                  [0%nat; 1%nat]).
    assert (Hin : In [0%nat; 1%nat] (param_cells swapped_st))
      by (vm_compute; right; left; reflexivity).
    specialize (H Hin). apply num_eqb_eq in H. vm_compute in H. discriminate.
  - exact zero_prior_init.
  - vm_compute. reflexivity.
  - vm_compute. reflexivity.
Qed.

Lemma ordered_valid : valid_config ordered_cfg = true.
Proof. vm_compute. reflexivity. Qed.

Lemma ordered_buildable : buildable ordered_cfg = true.
Proof. vm_compute. reflexivity. Qed.

(** C6 at the engine with the prior map in the order of the axes *)
Lemma prior_construction_witness :
  __init__ match_pf ordered_cfg = OK ordered_st /\
  cfg_prior ordered_cfg = Some (floats ordered_prior) /\
  NoDup (keys (param_domain ordered_st)) /\
  keys (floats ordered_prior) = keys (param_domain ordered_st) /\
  prior_broadcasts (floats ordered_prior) = true /\
  outer_total (weights_of (floats ordered_prior)) (param_domain ordered_st)
  <> 0 /\
  total (prior ordered_st) = Fin 1 /\
  (forall idx, In idx (param_cells ordered_st) ->
     data (prior ordered_st)
          (bind_env env0 (keys (param_domain ordered_st)) idx)
     = Fin (outer (weights_of (floats ordered_prior))
                  (keys (param_domain ordered_st)) idx
            / outer_total (weights_of (floats ordered_prior))
                          (param_domain ordered_st))) /\
  (forall s stim outcome, prior (snd (update stim outcome s)) = prior s) /\
  (forall s, prior (snd (next_stim ln_lin s)) = prior s) /\
  (forall s, prior (snd (param_estimate s)) = prior s).
Proof.
  assert (Hinit : __init__ match_pf ordered_cfg = OK ordered_st)
    by apply (engine_of_init ordered_cfg ordered_buildable).
  assert (Hnd : NoDup (keys (param_domain ordered_st)))
    by (apply nodupb_NoDup; vm_compute; reflexivity).
  assert (Hk : keys (floats ordered_prior) = keys (param_domain ordered_st))
    by reflexivity.
  assert (Hb : prior_broadcasts (floats ordered_prior) = true)
    by reflexivity.
  assert (Ht : outer_total (weights_of (floats ordered_prior))
                           (param_domain ordered_st) <> 0)
    by (apply is_zero_false; vm_compute; reflexivity).
  pose proof (prior_construction ln_lin match_pf ordered_cfg ordered_st Hinit)
    as [_ [Hsome [Hu [Hn He]]]].
  destruct (Hsome (floats ordered_prior) eq_refl Hnd Hk Hb Ht) as [Ht1 Hcell].
  split; [exact Hinit|]. split; [reflexivity|]. split; [exact Hnd|].
  split; [exact Hk|]. split; [exact Hb|]. split; [exact Ht|].
  split; [exact Ht1|]. split; [exact Hcell|].
  split; [exact Hu|]. split; [exact Hn|exact He].
Defined.


(** C10 at the binary grid: after (intensity 0, correct) the trial
    (intensity 1, correct) is impossible *)
Lemma impossible_trial_gives_nan_witness :
  proper binary_st1 /\
  valid_call binary_st1 stim_hi correct = true /\
  (forall th, In th (param_cells binary_st1) ->
     let e := bind_env env0 (keys (param_domain binary_st1)) th in
     data (posterior binary_st1) e = Fin 0 \/
     data (likelihoods binary_st1)
          (slice_env (coords (likelihoods binary_st1)) (stim_hi ++ correct) e)
     = Fin 0) /\
  exists st',
    update stim_hi correct binary_st1 = (OK tt, st') /\
    Forall (eq NaN) (da_values (posterior st')) /\
    total (posterior st') <> Fin 1 /\
    resp_history st' = resp_history binary_st1 ++ [correct] /\
    stim_history st' = logged stim_hi (stim_history binary_st1) /\
    forall st'', trial_run ln_lin false st' st'' ->
                 Forall (eq NaN) (da_values (posterior st'')) /\
                 total (posterior st'') <> Fin 1.
Proof.
  assert (Hz : forall th, In th (param_cells binary_st1) ->
     let e := bind_env env0 (keys (param_domain binary_st1)) th in
     data (posterior binary_st1) e = Fin 0 \/
     data (likelihoods binary_st1)
          (slice_env (coords (likelihoods binary_st1)) (stim_hi ++ correct) e)
     = Fin 0).
  { intros th Hth. vm_compute in Hth.
    destruct Hth as [<-|[<-|[]]]; cbv zeta.
    - right. apply num_eqb_eq. vm_compute. reflexivity.
    - left. apply num_eqb_eq. vm_compute. reflexivity. }
  split; [exact binary_proper1|]. split; [exact binary_valid_hi|].
  split; [exact Hz|].
  exact (impossible_trial_gives_nan ln_lin binary_st1 stim_hi correct
           binary_proper1 binary_valid_hi Hz).
Defined.

(* ================================================================== *)
(** ** Further properties: the likelihood tensor and the constructor *)
(* ================================================================== *)

Section LikelihoodTensor.

Variable psychometric_function :
  string -> dict (list pyval) -> dict (list pyval) -> string -> DataArray.

Hypothesis provider : provider_ok psychometric_function.

(** X1.  Whenever [_gen_likelihoods] returns a tensor, its outcome axis is
    the first axis, with the first two labels of the first outcome-domain
    entry, and at every cell of the stimulus x parameter grid the two
    outcomes have probabilities p and 1 - p with 0 <= p <= 1: the
    likelihood sums to one over the outcome axis. *)
Theorem likelihoods_complementary (func scale : string)
        (sd pd od : dict (list pyval)) (L : DataArray) :
  _gen_likelihoods psychometric_function func scale sd pd od = OK L ->
  exists ok v0 v1 vs rest,
    od = (ok, v0 :: v1 :: vs) :: rest /\
    coords L = (ok, [v0; v1]) :: sd ++ pd /\
    forall e, exists p,
      0 <= p /\ p <= 1 /\
      data L (upd e ok 0) = Fin p /\
      data L (upd e ok 1) = Fin (1 - p) /\
      nadd (data L (upd e ok 0)) (data L (upd e ok 1)) = Fin 1.
Proof.
  unfold _gen_likelihoods. intros H.
  destruct od as [|[ok vs] rest]; [discriminate|].
  cbn [keys values map fst snd rbind] in H.
  destruct (mem func ["weibull"; "csf"; "norm_cdf"; "norm_cdf_2"]);
    [|discriminate].
  destruct (provider_kwargs sd pd) as [[]|]; [|discriminate].
  cbn [rbind] in H.
  destruct vs as [|v0 [|v1 vs]]; try discriminate.
  cbn [nth_error rbind] in H.
  destruct (provider func sd pd scale) as [Hc [Hloc Hval]].
  destruct (mem ok (dims (psychometric_function func sd pd scale))) eqn:Hm;
    [discriminate|].
  destruct rest; [|discriminate].
  injection H as <-. exists ok, v0, v1, vs, [].
  split; [reflexivity|]. split; [cbn [coords]; now rewrite Hc|].
  intros e. destruct (Hval (upd e ok 0%nat)) as [p [Hp [Hp0 Hp1]]].
  assert (E : data (psychometric_function func sd pd scale) (upd e ok 1%nat)
              = Fin p).
  { rewrite <- Hp. apply Hloc. intros k Hk.
    apply mem_notIn in Hm.
    assert (k <> ok) by (intros ->; contradiction).
    now rewrite !upd_other. }
  exists p. cbn [data]. rewrite !upd_same. cbn [da_map data].
  rewrite Hp, E. cbn [nsub nneg nadd].
  repeat split; auto. f_equal. ring.
Qed.

(** X2.  What the constructor rejects once the prior is built, in the
    order of the checks: an empty outcome domain is an IndexError; an
    unknown psychometric function name a ValueError; an axis name shared by
    the stimulus and the parameter domain, or an axis named 'scale', a
    TypeError (the axes are passed to the psychometric function as keyword
    arguments, next to [scale]); then a first outcome axis with fewer than
    two labels is an IndexError; and an outcome axis named like a stimulus
    or parameter axis, or a second outcome axis, a ValueError. *)
Theorem init_rejects (c : Config) (p : DataArray) :
  _gen_prior (_ensure_ndarray (cfg_param_domain c)) (cfg_prior c) = OK p ->
  let sd := _ensure_ndarray (cfg_stim_domain c) in
  let pd := _ensure_ndarray (cfg_param_domain c) in
  (cfg_outcome_domain c = [] ->
   __init__ psychometric_function c = Raise IndexError) /\
  (cfg_outcome_domain c <> [] ->
   supported_func (cfg_func c) = false ->
   __init__ psychometric_function c = Raise ValueError) /\
  (cfg_outcome_domain c <> [] ->
   supported_func (cfg_func c) = true ->
   (exists k, In k (keys sd) /\ In k (keys pd))
   \/ In "scale" (keys sd ++ keys pd) ->
   __init__ psychometric_function c = Raise TypeError) /\
  (forall k vs rest,
     _ensure_ndarray (cfg_outcome_domain c) = (k, vs) :: rest ->
     supported_func (cfg_func c) = true ->
     (forall k', In k' (keys pd) -> ~ In k' (keys sd)) ->
     ~ In "scale" (keys sd ++ keys pd) ->
     ((List.length vs < 2)%nat ->
      __init__ psychometric_function c = Raise IndexError) /\
     ((2 <= List.length vs)%nat ->
      In k (keys sd ++ keys pd) \/ rest <> [] ->
      __init__ psychometric_function c = Raise ValueError)).
Proof.
  intros Hp sd pd. unfold __init__. rewrite Hp. cbn [rbind].
  fold sd pd. unfold _gen_likelihoods, supported_func.
  split; [|split; [|split]].
  - intros ->. reflexivity.
  - intros Hne Hf. destruct (cfg_outcome_domain c) as [|[k v] r];
      [congruence|].
    cbn [_ensure_ndarray map keys values fst snd rbind]. now rewrite Hf.
  - intros Hne Hf Hclash. destruct (cfg_outcome_domain c) as [|[k v] r];
      [congruence|].
    cbn [_ensure_ndarray map keys values fst snd rbind]. rewrite Hf.
    destruct (provider_kwargs sd pd) as [u|e] eqn:E.
    + exfalso. destruct (provider_kwargs_inv sd pd u E) as [Hd Hs].
      destruct Hclash as [[k' [H1 H2]]|H]; [now apply (Hd k')|tauto].
    + now rewrite (provider_kwargs_error sd pd e E).
  - intros k vs rest -> Hf Hd Hs.
    cbn [keys values map fst snd rbind]. rewrite Hf.
    rewrite (provider_kwargs_ok sd pd Hd Hs). cbn [rbind].
    split.
    + intro Hlen. destruct vs as [|v0 [|v1 vs]]; cbn in *; try reflexivity.
      lia.
    + intros Hlen Hbad. destruct vs as [|v0 [|v1 vs]]; cbn in Hlen; try lia.
      cbn [nth_error rbind].
      destruct (provider (cfg_func c) sd pd (cfg_stim_scale c)) as [Hc _].
      destruct (mem k (dims (psychometric_function (cfg_func c) sd pd
                               (cfg_stim_scale c)))) eqn:Hm; [reflexivity|].
      destruct Hbad as [Hin|Hrest].
      * exfalso. apply mem_notIn in Hm. apply Hm. unfold dims.
        now rewrite Hc, keys_app.
      * destruct rest; [congruence|reflexivity].
Qed.

End LikelihoodTensor.

Lemma likelihoods_complementary_witness :
  provider_ok match_pf /\
  _gen_likelihoods match_pf "weibull" "log10"
    (stim_domain binary_st0) (param_domain binary_st0)
    (outcome_domain binary_st0) = OK (likelihoods binary_st0) /\
  exists ok v0 v1 vs rest,
    outcome_domain binary_st0 = (ok, v0 :: v1 :: vs) :: rest /\
    coords (likelihoods binary_st0)
    = (ok, [v0; v1]) :: stim_domain binary_st0 ++ param_domain binary_st0 /\
    forall e, exists p,
      0 <= p /\ p <= 1 /\
      data (likelihoods binary_st0) (upd e ok 0) = Fin p /\
      data (likelihoods binary_st0) (upd e ok 1) = Fin (1 - p) /\
      nadd (data (likelihoods binary_st0) (upd e ok 0))
           (data (likelihoods binary_st0) (upd e ok 1)) = Fin 1.
Proof.
  split; [exact match_pf_ok|]. split; [reflexivity|].
  apply (likelihoods_complementary match_pf match_pf_ok "weibull" "log10").
  reflexivity.
Defined.

(** X2 at the binary grid with one label only, and with a parameter axis
    named 'scale' *)
Lemma init_rejects_witness :
  _gen_prior (_ensure_ndarray (cfg_param_domain single_label_cfg))
             (cfg_prior single_label_cfg) = OK (prior binary_st0) /\
  __init__ match_pf single_label_cfg = Raise IndexError /\
  __init__ match_pf scale_axis_cfg = Raise TypeError /\
  __init__ match_pf shared_axis_cfg = Raise TypeError.
Proof.
  split; [reflexivity|]. split; [|split].
  - apply (proj2 (proj2 (proj2 (init_rejects match_pf match_pf_ok
                                   single_label_cfg (prior binary_st0)
                                   eq_refl)))
             "response" [VStr "correct"] []);
      [reflexivity|reflexivity| |intros [H|[H|[]]]; discriminate|cbn; lia].
    intros k' [<-|[]] [H|[]]. discriminate.
  - assert (Hp : exists p,
              _gen_prior (_ensure_ndarray (cfg_param_domain scale_axis_cfg))
                         (cfg_prior scale_axis_cfg) = OK p)
      by (eexists; reflexivity).
    destruct Hp as [p Hp].
    apply (proj1 (proj2 (proj2 (init_rejects match_pf match_pf_ok
                                   scale_axis_cfg p Hp))));
      [discriminate|reflexivity|].
    right. right. now left.
  - assert (Hp : exists p,
              _gen_prior (_ensure_ndarray (cfg_param_domain shared_axis_cfg))
                         (cfg_prior shared_axis_cfg) = OK p)
      by (eexists; reflexivity).
    destruct Hp as [p Hp].
    apply (proj1 (proj2 (proj2 (init_rejects match_pf match_pf_ok
                                   shared_axis_cfg p Hp))));
      [discriminate|reflexivity|].
    left. exists "intensity". split; now left.
Defined.

(* ================================================================== *)
(** ** Further properties: calls of [update] outside the protocol *)
(* ================================================================== *)


Lemma In_keys {V} (d : dict V) (k : string) (v : V) :
  In (k, v) d -> In k (keys d).
Proof. intros H. change k with (fst (k, v)). now apply in_map. Qed.





Lemma three_label_valid : valid_config three_label_cfg = true.
Proof. vm_compute. reflexivity. Qed.





(* ================================================================== *)
(** ** Further properties: sessions of trials *)
(* ================================================================== *)

Lemma update_static (st : QuestPlus) (stim outcome : dict pyval) :
  well_formed st -> valid_call st stim outcome = true ->
  let st' := snd (update stim outcome st) in
  stim_domain st' = stim_domain st /\
  param_domain st' = param_domain st /\
  outcome_domain st' = outcome_domain st /\
  likelihoods st' = likelihoods st /\
  posterior st' = bayes st stim outcome /\
  stim_selection st' = stim_selection st /\
  param_estimation_method st' = param_estimation_method st.
Proof.
  intros Hwf Hv. rewrite (update_ok st stim outcome Hwf Hv). cbn.
  repeat split.
Qed.





Lemma post_fin (st : QuestPlus) (e : env) :
  proper st ->
  data (posterior st) e = Fin (qval (data (posterior st) e)) /\
  0 <= qval (data (posterior st) e).
Proof. intros [_ Hp _]. destruct (Hp e) as [p [-> Hp0]]. now split. Qed.


Lemma qsum_map_ext {A} (f g : A -> Qc) (l : list A) :
  (forall x, In x l -> f x = g x) -> qsum (map f l) = qsum (map g l).
Proof. intros H. f_equal. now apply map_ext_in. Qed.











Section SessionStates.

Variable ln : Qc -> Qc.

Variable psychometric_function :
  string -> dict (list pyval) -> dict (list pyval) -> string -> DataArray.

Hypothesis provider : provider_ok psychometric_function.




End SessionStates.



(* ================================================================== *)
(** ** Further properties: stimulus selection *)
(* ================================================================== *)

Section SelectionProperties.

Variable ln : Qc -> Qc.

(** the stimulus [next_stim] returns, when every cell of
    Posterior x LikelihoodTensor is a non-negative number or NaN *)
Lemma next_stim_by_cells (st : QuestPlus) :
  well_formed st ->
  (forall s o th,
     In th (param_cells st) ->
     (J_data st (cell st s o th) = Fin (joint st s o th) \/
      (J_data st (cell st s o th) = NaN /\ joint st s o th = 0)) /\
     0 <= joint st s o th) ->
  stim_selection st = "min_entropy" ->
  stim_cells st <> [] ->
  exists i s,
    nth_error (stim_cells st) i = Some s /\
    first_min (map (EH_spec ln st) (stim_cells st)) i /\
    next_stim ln st =
    (OK (nth i (grid (stim_domain st)) []),
     set_entropy st (Fin (EH_spec ln st s))).
Proof.
  intros Hwf HJ Hsel Hne.
  destruct (nanargmin_fin (map (EH_spec ln st) (stim_cells st)))
    as [i [Harg [Hmin Hval]]].
  { destruct (stim_cells st); [congruence|discriminate]. }
  assert (Hi : (i < size_of (axis_shape (stim_domain st)))%nat).
  { destruct Hmin as [Hi _]. rewrite length_map in Hi.
    unfold stim_cells in Hi. now rewrite length_indices in Hi. }
  exists i, (unravel i (axis_shape (stim_domain st))).
  assert (Hs : nth_error (stim_cells st) i
               = Some (unravel i (axis_shape (stim_domain st))))
    by now apply nth_error_indices.
  split; [exact Hs|]. split; [exact Hmin|].
  rewrite (next_stim_unfold ln st Hwf), Hsel.
  cbn [String.eqb Ascii.eqb Bool.eqb andb].
  unfold da_argmin, da_min.
  rewrite (EH_values ln st HJ).
  rewrite <- (map_map (EH_spec ln st) Fin), Harg, Hval.
  unfold np_unravel_index, shape. cbn [coords EH_array].
  fold (axis_shape (stim_domain st)).
  replace (i <? size_of (axis_shape (stim_domain st)))%nat with true
    by (symmetry; now apply Nat.ltb_lt).
  rewrite (proj1 (coords_at_grid (stim_domain st) i Hi)).
  now rewrite (nth_map_in _ _ _ _ Hs).
Qed.

(** the stimulus [next_stim] returns, in a state of a run *)
Lemma next_stim_first_min (st : QuestPlus) :
  run_state st ->
  stim_selection st = "min_entropy" ->
  stim_cells st <> [] ->
  exists i s,
    nth_error (stim_cells st) i = Some s /\
    first_min (map (EH_spec ln st) (stim_cells st)) i /\
    next_stim ln st =
    (OK (nth i (grid (stim_domain st)) []),
     set_entropy st (Fin (EH_spec ln st s))).
Proof.
  intros Hp. apply next_stim_by_cells; [now apply run_state_wf|].
  intros s o th. now apply run_state_joint.
Qed.

(** when every stimulus has the same expected entropy, the first stimulus of
    the grid is returned *)
Lemma next_stim_constant_cells (st : QuestPlus) (c : Qc) :
  well_formed st ->
  (forall s o th,
     In th (param_cells st) ->
     (J_data st (cell st s o th) = Fin (joint st s o th) \/
      (J_data st (cell st s o th) = NaN /\ joint st s o th = 0)) /\
     0 <= joint st s o th) ->
  stim_selection st = "min_entropy" ->
  stim_cells st <> [] ->
  (forall s, In s (stim_cells st) -> EH_spec ln st s = c) ->
  next_stim ln st =
  (OK (nth 0 (grid (stim_domain st)) []), set_entropy st (Fin c)).
Proof.
  intros Hwf HJ Hsel Hne Hc.
  destruct (next_stim_by_cells st Hwf HJ Hsel Hne) as [i [s [Hs [Hmin Hn]]]].
  assert (Hall : forall j, (j < List.length (stim_cells st))%nat ->
                   nth j (map (EH_spec ln st) (stim_cells st)) 0 = c).
  { intros j Hj. destruct (nth_error (stim_cells st) j) as [x|] eqn:E.
    - rewrite (nth_map_in _ _ _ _ E). apply Hc. eapply nth_error_In; eauto.
    - apply nth_error_None in E. lia. }
  assert (Hi0 : i = 0%nat).
  { destruct Hmin as [Hi [_ Hfirst]]. rewrite length_map in Hi.
    destruct i as [|i]; [reflexivity|]. exfalso.
    specialize (Hfirst 0%nat ltac:(lia)).
    rewrite (Hall (S i) Hi), (Hall 0%nat ltac:(lia)) in Hfirst.
    now apply Qclt_not_le in Hfirst; apply Hfirst, Qcle_refl. }
  subst i. rewrite Hn. do 2 f_equal. f_equal. apply Hc.
  eapply nth_error_In; eauto.
Qed.

Lemma next_stim_constant (st : QuestPlus) (c : Qc) :
  run_state st ->
  stim_selection st = "min_entropy" ->
  stim_cells st <> [] ->
  (forall s, In s (stim_cells st) -> EH_spec ln st s = c) ->
  next_stim ln st =
  (OK (nth 0 (grid (stim_domain st)) []), set_entropy st (Fin c)).
Proof.
  intros Hp. apply next_stim_constant_cells; [now apply run_state_wf|].
  intros s o th. now apply run_state_joint.
Qed.

Lemma nan_posterior_cell (st : QuestPlus) (s : list nat) (o : nat)
      (th : list nat) :
  well_formed st -> In th (param_cells st) ->
  data (posterior st) (cell st s o th)
  = data (posterior st) (bind_env env0 (keys (param_domain st)) th).
Proof.
  intros Hwf Hth. unfold cell. apply local_bind.
  - apply (wf_local_post st Hwf).
  - rewrite (indices_length _ _ Hth). unfold axis_shape, keys, values.
    now rewrite !length_map.
  - intros k Hk. left. unfold dims in Hk. now rewrite (wf_post st Hwf) in Hk.
Qed.

Lemma EH_spec_no_joint (st : QuestPlus) (s : list nat) :
  (forall o th, In th (param_cells st) -> joint st s o th = 0) ->
  EH_spec ln st s = 0.
Proof.
  intros H. unfold EH_spec.
  assert (Hpk : forall o, pk_spec st s o = 0).
  { intros o. unfold pk_spec.
    rewrite (map_ext_in _ (fun _ => 0)); [apply qsum_zeros|].
    intros th Hth. now apply H. }
  cbn [seq map qsum]. rewrite !Hpk. cbn. ring.
Qed.

(** X9.  After an impossible trial the engine does not stop working: with
    the NaN posterior every stimulus has expected entropy 0, and
    [next_stim] returns the first stimulus of the grid, without an
    exception; the entropy scalar of the engine is 0 afterwards, and the
    posterior is still the NaN posterior. *)
Theorem next_stim_on_nan_posterior (st : QuestPlus) :
  nan_posterior st ->
  stim_selection st = "min_entropy" ->
  stim_cells st <> [] ->
  fst (next_stim ln st) = OK (nth 0 (grid (stim_domain st)) []) /\
  entropy (snd (next_stim ln st)) = Fin 0 /\
  posterior (snd (next_stim ln st)) = posterior st.
Proof.
  intros Hn Hsel Hne.
  rewrite (next_stim_constant st 0); [repeat split|now right|assumption|
                                      assumption|].
  intros s _. apply EH_spec_no_joint. intros o th Hth.
  destruct Hn as [Hwf [_ Hnan]]. unfold joint.
  rewrite (nan_posterior_cell st s o th Hwf Hth).
  rewrite (da_values_posterior st (wf_post st Hwf)) in Hnan.
  rewrite Forall_map, Forall_forall in Hnan.
  rewrite <- (Hnan th Hth). cbn [qval]. ring.
Qed.

Lemma NoDup_flat_map {A B} (f : A -> list B) (l : list A) :
  NoDup l -> (forall x, NoDup (f x)) ->
  (forall x y z, x <> y -> In z (f x) -> ~ In z (f y)) ->
  NoDup (flat_map f l).
Proof.
  intros Hl Hf Hd. induction Hl as [|x l Hx Hl IH]; cbn; [constructor|].
  apply NoDup_app; [apply Hf|exact IH|].
  intros z Hz Hz'. apply in_flat_map in Hz'. destruct Hz' as [y [Hy Hzy]].
  apply (Hd x y z); [|assumption|assumption]. intros ->. contradiction.
Qed.

Lemma NoDup_indices (shape : list nat) : NoDup (indices shape).
Proof.
  induction shape as [|n s IH]; cbn [indices].
  - constructor; [intros []|constructor].
  - apply NoDup_flat_map.
    + apply seq_NoDup.
    + intros i. clear -IH. induction IH as [|x l Hx Hl IH']; cbn;
        constructor; [|exact IH'].
      intros H. apply in_map_iff in H. destruct H as [y [E Hy]].
      injection E as ->. contradiction.
    + intros i j z Hij Hz Hz'. apply in_map_iff in Hz, Hz'.
      destruct Hz as [a [<- _]]. destruct Hz' as [b [E _]].
      injection E as E _. congruence.
Qed.

Lemma qsum_single {A} (f : A -> Qc) (l : list A) (x0 : A) :
  NoDup l -> In x0 l ->
  (forall x, In x l -> x <> x0 -> f x = 0) ->
  qsum (map f l) = f x0.
Proof.
  intros Hnd. induction Hnd as [|x l Hx Hnd IH]; intros Hin Hz; [destruct Hin|].
  cbn [map qsum]. destruct Hin as [->|Hin].
  - rewrite (map_ext_in _ (fun _ => 0)).
    + rewrite qsum_zeros. ring.
    + intros y Hy. apply Hz; [now right|]. intros ->. contradiction.
  - rewrite IH; [|assumption|intros y Hy; apply Hz; now right].
    rewrite (Hz x); [ring|now left|]. intros ->. contradiction.
Qed.

(** X10.  Once the posterior has all its mass on one parameter cell, no
    stimulus can teach anything: every stimulus has expected entropy 0
    (with log 1 = 0), and [next_stim] returns the first stimulus of the
    grid, whatever the likelihoods are; the entropy scalar of the engine is
    0 afterwards. *)
Theorem next_stim_on_certain_posterior (st : QuestPlus) (th0 : list nat) :
  ln 1 = 0 ->
  proper st ->
  certain st th0 ->
  stim_selection st = "min_entropy" ->
  stim_cells st <> [] ->
  fst (next_stim ln st) = OK (nth 0 (grid (stim_domain st)) []) /\
  entropy (snd (next_stim ln st)) = Fin 0 /\
  posterior (snd (next_stim ln st)) = posterior st.
Proof.
  intros Hln Hp [Hth0 Hz] Hsel Hne. pose proof (proper_wf st Hp) as Hwf.
  rewrite (next_stim_constant st 0); [repeat split|now left|assumption|
                                      assumption|].
  intros s _.
  assert (Hj : forall o th, In th (param_cells st) -> th <> th0 ->
                 joint st s o th = 0).
  { intros o th Hth Hneq. unfold joint.
    rewrite (nan_posterior_cell st s o th Hwf Hth), (Hz th Hth Hneq).
    cbn [qval]. ring. }
  assert (Hpk : forall o, pk_spec st s o = joint st s o th0).
  { intros o. unfold pk_spec. apply qsum_single.
    - apply NoDup_indices.
    - exact Hth0.
    - intros th Hth Hneq. now apply Hj. }
  assert (HH : forall o, pk_spec st s o <> 0 -> H_spec ln st s o = 0).
  { intros o Hpo. unfold H_spec.
    rewrite (map_ext_in _ (fun _ => 0)).
    - rewrite qsum_zeros. ring.
    - intros th Hth. destruct (list_eq_dec Nat.eq_dec th th0) as [->|Hneq].
      + rewrite Hpk. rewrite Hpk in Hpo.
        replace (joint st s o th0 / joint st s o th0) with 1
          by (field; exact Hpo).
        unfold plogp. cbn [is_zero]. rewrite Hln.
        replace (is_zero 1) with false by reflexivity. ring.
      + rewrite (Hj o th Hth Hneq). apply plogp_zero. }
  unfold EH_spec. cbn [seq map qsum].
  assert (Ht : forall o, (if is_zero (pk_spec st s o) then 0
                          else pk_spec st s o * H_spec ln st s o) = 0).
  { intros o. destruct (is_zero (pk_spec st s o)) eqn:E; [reflexivity|].
    apply is_zero_false in E. rewrite (HH o E). ring. }
  rewrite !Ht. ring.
Qed.

Lemma qsum_ge_elem (l : list Qc) (x : Qc) :
  Forall (Qcle 0) l -> In x l -> x <= qsum l.
Proof.
  induction l as [|y l IH]; intros Hl Hx; [destruct Hx|].
  inversion Hl as [|? ? Hy Hl']. subst. cbn [qsum]. destruct Hx as [->|Hx].
  - rewrite <- (Qcplus_0_r x) at 1. apply Qcplus_le_compat;
      [apply Qcle_refl|now apply qsum_nonneg].
  - rewrite <- (Qcplus_0_l x). apply Qcplus_le_compat; [assumption|now apply IH].
Qed.

Lemma qsum_nonpos (l : list Qc) : Forall (fun x => x <= 0) l -> qsum l <= 0.
Proof.
  induction 1 as [|x l Hx Hl IH]; cbn [qsum]; [apply Qcle_refl|].
  rewrite <- (Qcplus_0_l 0). now apply Qcplus_le_compat.
Qed.

Lemma Qc_opp_nonneg (x : Qc) : x <= 0 -> 0 <= - x.
Proof. intros H. apply Qcopp_le_compat in H. exact H. Qed.

Lemma Qc_mult_nonneg_nonpos (x y : Qc) : 0 <= x -> y <= 0 -> x * y <= 0.
Proof.
  intros Hx Hy. apply Qc_opp_nonneg in Hy.
  pose proof (Qc_mult_nonneg x (- y) Hx Hy) as H.
  apply Qcopp_le_compat in H.
  replace (- (x * - y)) with (x * y) in H by ring. exact H.
Qed.

Lemma Qc_div_le_1 (a b : Qc) : 0 <= a -> a <= b -> b <> 0 -> a / b <= 1.
Proof.
  intros Ha Hab Hb.
  assert (Hb0 : 0 < b).
  { destruct (Qcle_lt_or_eq 0 b) as [H|H].
    - eapply Qcle_trans; eauto.
    - assumption.
    - congruence. }
  apply (Qcmult_lt_0_le_reg_r _ _ b Hb0).
  replace (a / b * b) with a by (field; exact Hb). now rewrite Qcmult_1_l.
Qed.

Hypothesis ln_nonpos : forall x, 0 < x -> x <= 1 -> ln x <= 0.

Lemma plogp_nonpos (x : Qc) : 0 <= x -> x <= 1 -> plogp ln x <= 0.
Proof.
  intros H0 H1. unfold plogp. destruct (is_zero x) eqn:E; [apply Qcle_refl|].
  apply is_zero_false in E.
  apply Qc_mult_nonneg_nonpos; [assumption|]. apply ln_nonpos; [|assumption].
  destruct (Qcle_lt_or_eq 0 x H0) as [H|H]; [assumption|congruence].
Qed.

Lemma EH_spec_nonneg (st : QuestPlus) (s : list nat) :
  run_state st -> 0 <= EH_spec ln st s.
Proof.
  intros Hr. unfold EH_spec. apply qsum_nonneg, Forall_forall.
  intros x Hx. apply in_map_iff in Hx. destruct Hx as [o [<- _]].
  destruct (is_zero (pk_spec st s o)) eqn:E; [apply Qcle_refl|].
  apply is_zero_false in E.
  assert (Hj : Forall (Qcle 0) (map (joint st s o) (param_cells st))).
  { apply Forall_forall. intros y Hy. apply in_map_iff in Hy.
    destruct Hy as [th [<- Hth]]. now apply (run_state_joint st s o th Hr). }
  apply Qc_mult_nonneg; [now apply qsum_nonneg|].
  unfold H_spec. apply Qc_opp_nonneg, qsum_nonpos, Forall_forall.
  intros y Hy. apply in_map_iff in Hy. destruct Hy as [th [<- Hth]].
  rewrite Forall_forall in Hj.
  assert (Hin : In (joint st s o th) (map (joint st s o) (param_cells st)))
    by now apply in_map.
  apply plogp_nonpos.
  - apply Qc_div_nonneg; [now apply Hj|]. apply qsum_nonneg.
    now apply Forall_forall.
  - apply Qc_div_le_1; [now apply Hj| |exact E].
    apply qsum_ge_elem; [now apply Forall_forall|assumption].
Qed.

(** X11.  The entropy scalar of the engine after [next_stim] is never
    negative (for a logarithm that is non-positive on (0, 1], as the natural
    logarithm is): it is the expected entropy of the returned stimulus, a
    rational q >= 0. *)
Theorem next_stim_entropy_nonneg (st : QuestPlus) :
  run_state st ->
  stim_selection st = "min_entropy" ->
  stim_cells st <> [] ->
  exists stim s q,
    fst (next_stim ln st) = OK stim /\
    In s (stim_cells st) /\
    q = EH_spec ln st s /\
    entropy (snd (next_stim ln st)) = Fin q /\ 0 <= q.
Proof.
  intros Hr Hsel Hne.
  destruct (next_stim_first_min st Hr Hsel Hne) as [i [s [Hs [_ Hn]]]].
  eexists. exists s. eexists. rewrite Hn. cbn [fst snd entropy set_entropy].
  split; [reflexivity|]. split; [eapply nth_error_In; eauto|].
  split; [reflexivity|]. split; [reflexivity|]. now apply EH_spec_nonneg.
Qed.

End SelectionProperties.

Section SelectionMethod.

Variable ln : Qc -> Qc.

Variable psychometric_function :
  string -> dict (list pyval) -> dict (list pyval) -> string -> DataArray.

Hypothesis provider : provider_ok psychometric_function.

Lemma init_fields (c : Config) (st : QuestPlus) :
  __init__ psychometric_function c = OK st ->
  stim_selection st = cfg_stim_selection_method c /\
  param_estimation_method st = cfg_param_estimation_method c /\
  param_domain st = _ensure_ndarray (cfg_param_domain c) /\
  stim_domain st = _ensure_ndarray (cfg_stim_domain c).
Proof.
  unfold __init__. intros H.
  destruct (_gen_prior _ _); [|discriminate]. cbn [rbind] in H.
  destruct (_gen_likelihoods _ _ _ _ _ _); [|discriminate].
  cbn [rbind] in H. injection H as <-. cbn. repeat split.
Qed.

Lemma run_static (b : bool) (st st' : QuestPlus) :
  well_formed st -> trial_run ln b st st' ->
  stim_selection st' = stim_selection st /\
  param_estimation_method st' = param_estimation_method st /\
  param_domain st' = param_domain st /\
  stim_domain st' = stim_domain st.
Proof.
  intros Hwf Hr. induction Hr as [| |s s1 stim outcome Hr IH Hv _].
  - repeat split.
  - rewrite next_stim_frame. cbn. now apply IHHr.
  - pose proof (run_wf ln b s s1 Hwf Hr) as Hwf1.
    destruct (update_static s1 stim outcome Hwf1 Hv)
      as [E1 [E2 [_ [_ [_ [E3 E4]]]]]].
    cbv zeta in E1, E2, E3, E4. rewrite E1, E2, E3, E4. now apply IH.
Qed.

Lemma next_stim_unknown_method (st : QuestPlus) :
  String.eqb (stim_selection st) "min_entropy" = false ->
  next_stim ln st = (Raise ValueError, st).
Proof.
  intro H. unfold next_stim, bind, read, lift, write, ret. rewrite H.
  unfold da_sum.
  repeat match goal with
         | |- context [if forallb ?f ?l then _ else _] =>
             destruct (forallb f l); cbn
         end; reflexivity.
Qed.

(** X12.  The constructor does not check the stimulus selection method.
    With any method name other than "min_entropy" the engine is built (from
    a valid configuration that the constructor accepts: the prior map, if
    any, not one of Python ints, and no axis named 'scale'), and trials can
    be recorded; but every call of [next_stim], in every state of the
    session, raises ValueError and changes nothing. *)
Theorem selection_method_unchecked (c : Config) :
  buildable c = true ->
  String.eqb (cfg_stim_selection_method c) "min_entropy" = false ->
  exists st0,
    __init__ psychometric_function c = OK st0 /\
    forall st, trial_run ln false st0 st ->
               next_stim ln st = (Raise ValueError, st).
Proof.
  intros Hv Hm.
  destruct (init_ok psychometric_function provider c Hv)
    as [st0 [Hinit [Hp _]]].
  exists st0. split; [exact Hinit|]. intros st Hr.
  apply next_stim_unknown_method.
  destruct (run_static false st0 st (proper_wf _ Hp) Hr) as [-> _].
  destruct (init_fields c st0 Hinit) as [-> _]. exact Hm.
Qed.

End SelectionMethod.

Lemma nan_binary_st2 : nan_posterior binary_st2.
Proof.
  apply (update_impossible binary_st1 stim_hi correct binary_proper1
           binary_valid_hi).
  reflexivity.
Qed.

Lemma next_stim_on_nan_posterior_witness :
  nan_posterior binary_st2 /\
  stim_selection binary_st2 = "min_entropy" /\
  stim_cells binary_st2 <> [] /\
  fst (next_stim ln_lin binary_st2)
  = OK (nth 0 (grid (stim_domain binary_st2)) []) /\
  entropy (snd (next_stim ln_lin binary_st2)) = Fin 0 /\
  posterior (snd (next_stim ln_lin binary_st2)) = posterior binary_st2.
Proof.
  assert (Hne : stim_cells binary_st2 <> []) by discriminate.
  split; [exact nan_binary_st2|]. split; [reflexivity|]. split; [exact Hne|].
  exact (next_stim_on_nan_posterior ln_lin binary_st2 nan_binary_st2
           eq_refl Hne).
Defined.

Lemma ln_lin_1 : ln_lin 1 = 0.
Proof. unfold ln_lin. ring. Qed.

Lemma certain_binary_st1 : certain binary_st1 [0%nat].
Proof.
  split; [now left|]. intros th [<-|[<-|[]]] Hneq; [congruence|].
  apply num_eqb_eq. vm_compute. reflexivity.
Qed.

Lemma next_stim_on_certain_posterior_witness :
  ln_lin 1 = 0 /\
  proper binary_st1 /\
  certain binary_st1 [0%nat] /\
  stim_selection binary_st1 = "min_entropy" /\
  stim_cells binary_st1 <> [] /\
  fst (next_stim ln_lin binary_st1)
  = OK (nth 0 (grid (stim_domain binary_st1)) []) /\
  entropy (snd (next_stim ln_lin binary_st1)) = Fin 0 /\
  posterior (snd (next_stim ln_lin binary_st1)) = posterior binary_st1.
Proof.
  assert (Hne : stim_cells binary_st1 <> []) by discriminate.
  split; [exact ln_lin_1|]. split; [exact binary_proper1|].
  split; [exact certain_binary_st1|]. split; [reflexivity|].
  split; [exact Hne|].
  exact (next_stim_on_certain_posterior ln_lin binary_st1 [0%nat] ln_lin_1
           binary_proper1 certain_binary_st1 eq_refl Hne).
Defined.

Lemma ln_lin_nonpos (x : Qc) : 0 < x -> x <= 1 -> ln_lin x <= 0.
Proof.
  intros _ H. unfold ln_lin. apply Qcle_minus_iff.
  apply Qcle_minus_iff in H.
  replace (0 + - (x - 1)) with (1 + - x) by ring. exact H.
Qed.

Lemma next_stim_entropy_nonneg_witness :
  (forall x, 0 < x -> x <= 1 -> ln_lin x <= 0) /\
  run_state binary_st0 /\
  stim_selection binary_st0 = "min_entropy" /\
  stim_cells binary_st0 <> [] /\
  exists stim s q,
    fst (next_stim ln_lin binary_st0) = OK stim /\
    In s (stim_cells binary_st0) /\
    q = EH_spec ln_lin binary_st0 s /\
    entropy (snd (next_stim ln_lin binary_st0)) = Fin q /\ 0 <= q.
Proof.
  assert (Hne : stim_cells binary_st0 <> []) by discriminate.
  split; [exact ln_lin_nonpos|]. split; [left; exact binary_proper|].
  split; [reflexivity|]. split; [exact Hne|].
  exact (next_stim_entropy_nonneg ln_lin ln_lin_nonpos binary_st0
           (or_introl binary_proper) eq_refl Hne).
Defined.

Lemma min_n_valid : buildable min_n_cfg = true.
Proof. vm_compute. reflexivity. Qed.

Lemma selection_method_unchecked_witness :
  provider_ok match_pf /\
  buildable min_n_cfg = true /\
  String.eqb (cfg_stim_selection_method min_n_cfg) "min_entropy" = false /\
  exists st0,
    __init__ match_pf min_n_cfg = OK st0 /\
    forall st, trial_run ln_lin false st0 st ->
               next_stim ln_lin st = (Raise ValueError, st).
Proof.
  split; [exact match_pf_ok|]. split; [exact min_n_valid|].
  split; [reflexivity|].
  exact (selection_method_unchecked ln_lin match_pf match_pf_ok min_n_cfg
           min_n_valid eq_refl).
Defined.

(* ================================================================== *)
(** ** Further properties: [param_estimate] *)
(* ================================================================== *)

Lemma dict_set_new {V} (d : dict V) (k : string) (v : V) :
  ~ In k (keys d) -> dict_set d k v = d ++ [(k, v)].
Proof.
  induction d as [|[k' v'] d IH]; cbn; intros Hk; [reflexivity|].
  destruct (String.eqb k k') eqn:E.
  - apply String.eqb_eq in E. subst. tauto.
  - rewrite IH; [reflexivity|tauto].
Qed.

Lemma estimate_params_ok (st : QuestPlus) (m : string)
      (f : string -> estimate) (names : list string) :
  forall acc : dict estimate,
    NoDup names ->
    (forall k, In k names -> ~ In k (keys acc)) ->
    (forall k, In k names -> estimate_param st m k = OK (f k)) ->
    estimate_params st m names acc
    = OK (acc ++ map (fun k => (k, f k)) names).
Proof.
  induction names as [|k names IH]; intros acc Hnd Hacc Hf; cbn.
  - now rewrite app_nil_r.
  - inversion Hnd as [|? ? Hk Hnd']. subst.
    rewrite (Hf k (or_introl eq_refl)). cbn [rbind].
    rewrite dict_set_new by (apply Hacc; now left).
    rewrite IH.
    + now rewrite <- app_assoc.
    + assumption.
    + intros k' Hk'. rewrite keys_app, in_app_iff. cbn.
      intros [H|[H|[]]].
      * apply (Hacc k'); [now right|assumption].
      * congruence.
    + intros k' Hk'. apply Hf. now right.
Qed.

Lemma estimate_params_raise (st : QuestPlus) (m : string) (e : exn)
      (names : list string) (acc : dict estimate) :
  names <> [] ->
  (forall k, In k names -> estimate_param st m k = Raise e) ->
  estimate_params st m names acc = Raise e.
Proof.
  destruct names as [|k names]; [congruence|]. intros _ H. cbn.
  now rewrite (H k (or_introl eq_refl)).
Qed.

(** the first maximum of a list of finite numbers *)
Lemma argmax_from_spec (l : list Qc) :
  forall (pre : list Qc) (best : nat),
    first_max pre best ->
    first_max (pre ++ l)
      (argmax_from best (Fin (nth best pre 0)) (List.length pre) (map Fin l)).
Proof.
  induction l as [|x l IH]; intros pre best [Hb [Hmax Hfirst]].
  - cbn. rewrite app_nil_r. repeat split; auto.
  - cbn [map argmax_from nltb].
    assert (Hpre : forall j, (j < List.length pre)%nat ->
                     nth j (pre ++ [x]) 0 = nth j pre 0)
      by (intros; now apply app_nth1).
    assert (Hx : nth (List.length pre) (pre ++ [x]) 0 = x)
      by (rewrite app_nth2, Nat.sub_diag by lia; reflexivity).
    assert (Hlen : List.length (pre ++ [x]) = S (List.length pre))
      by (rewrite length_app; cbn; lia).
    destruct (Qc_ltb (nth best pre 0) x) eqn:E.
    + apply Qc_ltb_lt in E.
      specialize (IH (pre ++ [x]) (List.length pre)).
      rewrite Hlen, Hx, <- app_assoc in IH. apply IH.
      unfold first_max. rewrite Hlen, Hx. split; [lia|]. split.
      * intros j Hj. destruct (Nat.eq_dec j (List.length pre)) as [->|Hne].
        -- rewrite Hx. apply Qcle_refl.
        -- rewrite Hpre by lia. apply Qclt_le_weak.
           eapply Qcle_lt_trans; [|exact E]. apply Hmax. lia.
      * intros j Hj. rewrite Hpre by lia.
        eapply Qcle_lt_trans; [|exact E]. apply Hmax. lia.
    + apply Qc_ltb_ge in E.
      specialize (IH (pre ++ [x]) best).
      rewrite Hlen, (Hpre best Hb), <- app_assoc in IH. apply IH.
      unfold first_max. rewrite Hlen, (Hpre best Hb). split; [lia|]. split.
      * intros j Hj. destruct (Nat.eq_dec j (List.length pre)) as [->|Hne].
        -- now rewrite Hx.
        -- rewrite Hpre by lia. apply Hmax. lia.
      * intros j Hj. rewrite Hpre by lia. now apply Hfirst.
Qed.

Lemma map_nan_to_ninf_fin (qs : list Qc) :
  map nan_to_ninf (map Fin qs) = map Fin qs.
Proof. rewrite map_map. now apply map_ext. Qed.

Lemma nanargmax_fin (qs : list Qc) :
  qs <> [] ->
  exists i, np_nanargmax (map Fin qs) = Some i /\ first_max qs i.
Proof.
  destruct qs as [|x qs]; [congruence|]. intros _.
  unfold np_nanargmax. rewrite map_nan_to_ninf_fin.
  cbn [map all_nan forallb isnan andb np_argmax].
  assert (H0 : first_max [x] 0).
  { unfold first_max. cbn. split; [lia|]. split.
    - intros j Hj. replace j with 0%nat by lia. apply Qcle_refl.
    - intros j Hj. lia. }
  pose proof (argmax_from_spec qs [x] 0%nat H0) as H1.
  cbn [nth List.length app] in H1.
  eexists. split; [reflexivity|assumption].
Qed.

Lemma nanargmax_all_nan (l : list num) :
  Forall (eq NaN) l -> np_nanargmax l = None.
Proof.
  intros H. unfold np_nanargmax.
  replace (all_nan l) with true; [reflexivity|].
  symmetry. unfold all_nan. apply forallb_forall. intros x Hx.
  rewrite Forall_forall in H. now rewrite <- (H x Hx).
Qed.

Lemma keys_grid (d : dict (list pyval)) (entry : dict pyval) :
  In entry (grid d) -> keys entry = keys d.
Proof.
  revert entry. induction d as [|[k l] d IH]; cbn [grid]; intros entry H.
  - destruct H as [<-|[]]. reflexivity.
  - apply in_flat_map in H. destruct H as [v [_ H]].
    apply in_map_iff in H. destruct H as [r [<- Hr]].
    cbn. f_equal. now apply IH.
Qed.

Lemma map_keys_get {V W} (g : option V -> W) (d : dict V) :
  NoDup (keys d) ->
  map (fun k => (k, g (get d k))) (keys d)
  = map (fun kv => (fst kv, g (Some (snd kv)))) d.
Proof.
  induction d as [|[k v] d IH]; intros Hnd; [reflexivity|].
  cbn [keys map fst snd get] in *. inversion Hnd as [|? ? Hk Hnd']. subst.
  rewrite String.eqb_refl. f_equal. rewrite <- IH by assumption.
  apply map_ext_in. intros k' Hk'.
  destruct (String.eqb k' k) eqn:E; [|reflexivity].
  apply String.eqb_eq in E. subst. contradiction.
Qed.

Lemma param_estimate_unfold (st : QuestPlus) :
  param_estimate st =
  (estimate_params st (param_estimation_method st)
                   (keys (param_domain st)) [], st).
Proof. reflexivity. Qed.

(** X13.  The mode estimate lies on the parameter grid.  With method
    "mode" and a finite posterior over a non-empty grid, [param_estimate]
    returns, for every parameter axis, the value that axis has at the
    parameter cell of the FIRST maximum of the posterior (in the row-major
    order of the grid); the engine is not changed. *)
Theorem mode_estimate_on_grid (st : QuestPlus) :
  proper st ->
  param_estimation_method st = "mode" ->
  param_cells st <> [] ->
  exists i,
    first_max (map (fun th => qval (data (posterior st)
                        (bind_env env0 (keys (param_domain st)) th)))
                   (param_cells st)) i /\
    In (nth i (grid (param_domain st)) []) (grid (param_domain st)) /\
    param_estimate st =
    (OK (map (fun kv => (fst kv, EstCoord (snd kv)))
             (nth i (grid (param_domain st)) [])), st).
Proof.
  intros Hp Hm Hne. pose proof (proper_wf st Hp) as Hwf.
  destruct (wf_axes st Hwf) as [ok [ol [_ [_ [_ [Hnp _]]]]]].
  set (qs := map (fun th => qval (data (posterior st)
                     (bind_env env0 (keys (param_domain st)) th)))
                 (param_cells st)).
  assert (Hvals : da_values (posterior st) = map Fin qs).
  { rewrite (da_values_posterior st (wf_post st Hwf)). unfold qs.
    rewrite map_map. apply map_ext. intros th.
    apply (post_fin st _ Hp). }
  destruct (nanargmax_fin qs) as [i [Harg Hmax]].
  { unfold qs. destruct (param_cells st); [congruence|discriminate]. }
  assert (Hi : (i < size_of (axis_shape (param_domain st)))%nat).
  { destruct Hmax as [Hi _]. unfold qs in Hi. rewrite length_map in Hi.
    unfold param_cells in Hi. now rewrite length_indices in Hi. }
  destruct (coords_at_grid (param_domain st) i Hi) as [Hat Hnth].
  set (entry := nth i (grid (param_domain st)) []) in *.
  assert (Hin : In entry (grid (param_domain st)))
    by (eapply nth_error_In; eauto).
  exists i. split; [exact Hmax|]. split; [exact Hin|].
  rewrite param_estimate_unfold, Hm. f_equal.
  rewrite (estimate_params_ok st "mode"
             (fun k => match get entry k with
                       | Some v => EstCoord v
                       | None => EstCoord (VNum 0)
                       end)).
  - cbn [app]. rewrite <- (keys_grid _ _ Hin).
    rewrite (map_keys_get (fun o => match o with
                                    | Some v => EstCoord v
                                    | None => EstCoord (VNum 0)
                                    end)); [reflexivity|].
    now rewrite (keys_grid _ _ Hin).
  - exact Hnp.
  - intros k _ [].
  - intros k Hk. unfold estimate_param.
    cbn [String.eqb Ascii.eqb Bool.eqb andb].
    unfold da_argmax. rewrite Hvals, Harg. cbn [rbind].
    unfold np_unravel_index, shape. rewrite (wf_post st Hwf).
    fold (axis_shape (param_domain st)).
    replace (i <? size_of (axis_shape (param_domain st)))%nat with true
      by (symmetry; now apply Nat.ltb_lt).
    cbn [rbind]. rewrite Hat. cbn [rbind].
    rewrite <- (keys_grid _ _ Hin) in Hk. apply get_In_keys in Hk.
    destruct Hk as [v Hv]. now rewrite Hv.
Qed.

Lemma mode_on_nan_posterior (st : QuestPlus) :
  nan_posterior st ->
  param_estimation_method st = "mode" ->
  param_domain st <> [] ->
  param_estimate st = (Raise ValueError, st).
Proof.
  intros [Hwf [_ Hnan]] Hm Hne. rewrite param_estimate_unfold, Hm. f_equal.
  apply estimate_params_raise.
  - destruct (param_domain st); [congruence|discriminate].
  - intros k _. unfold estimate_param.
    cbn [String.eqb Ascii.eqb Bool.eqb andb].
    unfold da_argmax. now rewrite (nanargmax_all_nan _ Hnan).
Qed.

Section EstimationMethod.

Variable ln : Qc -> Qc.

Variable psychometric_function :
  string -> dict (list pyval) -> dict (list pyval) -> string -> DataArray.

Hypothesis provider : provider_ok psychometric_function.

(** X14.  The constructor does not check the estimation method either (the
    engine is built from every valid configuration that the constructor
    accepts: the prior map, if any, not one of Python ints, and no axis named
    'scale'), and [param_estimate] checks it inside its loop over the
    parameter axes: with a method other than "mean" and "mode" it raises
    ValueError in every state of the session if there is a parameter axis,
    and returns the empty dictionary if there is none. *)
Theorem estimation_method_unchecked (c : Config) :
  buildable c = true ->
  String.eqb (cfg_param_estimation_method c) "mean" = false ->
  String.eqb (cfg_param_estimation_method c) "mode" = false ->
  exists st0,
    __init__ psychometric_function c = OK st0 /\
    forall st, trial_run ln false st0 st ->
      param_estimate st =
      (match cfg_param_domain c with
       | [] => OK []
       | _ :: _ => Raise ValueError
       end, st).
Proof.
  intros Hv Hmean Hmode.
  destruct (init_ok psychometric_function provider c Hv)
    as [st0 [Hinit [Hp _]]].
  exists st0. split; [exact Hinit|]. intros st Hr.
  destruct (run_static ln false st0 st (proper_wf _ Hp) Hr)
    as [_ [Em [Ed _]]].
  destruct (init_fields psychometric_function c st0 Hinit)
    as [_ [Em0 [Ed0 _]]].
  rewrite param_estimate_unfold, Em, Em0, Ed, Ed0. f_equal.
  destruct (cfg_param_domain c) as [|[k v] r]; [reflexivity|].
  cbn. unfold estimate_param. now rewrite Hmean, Hmode.
Qed.

End EstimationMethod.

Lemma mode_estimate_on_grid_witness :
  proper binary_st1 /\
  param_estimation_method binary_st1 = "mode" /\
  param_cells binary_st1 <> [] /\
  exists i,
    first_max (map (fun th => qval (data (posterior binary_st1)
                        (bind_env env0 (keys (param_domain binary_st1)) th)))
                   (param_cells binary_st1)) i /\
    In (nth i (grid (param_domain binary_st1)) [])
       (grid (param_domain binary_st1)) /\
    param_estimate binary_st1 =
    (OK (map (fun kv => (fst kv, EstCoord (snd kv)))
             (nth i (grid (param_domain binary_st1)) [])), binary_st1).
Proof.
  assert (Hne : param_cells binary_st1 <> []) by discriminate.
  split; [exact binary_proper1|]. split; [reflexivity|]. split; [exact Hne|].
  exact (mode_estimate_on_grid binary_st1 binary_proper1 eq_refl Hne).
Defined.

Lemma median_valid : buildable median_cfg = true.
Proof. vm_compute. reflexivity. Qed.

Lemma estimation_method_unchecked_witness :
  provider_ok match_pf /\
  buildable median_cfg = true /\
  String.eqb (cfg_param_estimation_method median_cfg) "mean" = false /\
  String.eqb (cfg_param_estimation_method median_cfg) "mode" = false /\
  exists st0,
    __init__ match_pf median_cfg = OK st0 /\
    forall st, trial_run ln_lin false st0 st ->
      param_estimate st =
      (match cfg_param_domain median_cfg with
       | [] => OK []
       | _ :: _ => Raise ValueError
       end, st).
Proof.
  split; [exact match_pf_ok|]. split; [exact median_valid|].
  split; [reflexivity|]. split; [reflexivity|].
  exact (estimation_method_unchecked ln_lin match_pf match_pf_ok median_cfg
           median_valid eq_refl eq_refl).
Defined.

(* ================================================================== *)
(** ** Further properties: the mean estimate *)
(* ================================================================== *)

Lemma qsum_flat_map {A B} (G : B -> Qc) (f : A -> list B) (l : list A) :
  qsum (map G (flat_map f l)) = qsum (map (fun x => qsum (map G (f x))) l).
Proof.
  induction l as [|x l IH]; [reflexivity|].
  cbn [flat_map map qsum]. now rewrite map_app, qsum_app, IH.
Qed.

Lemma qsum_plus {A} (f g : A -> Qc) (l : list A) :
  qsum (map (fun x => f x + g x) l) = qsum (map f l) + qsum (map g l).
Proof.
  induction l as [|x l IH]; cbn [map qsum]; [ring|]. rewrite IH. ring.
Qed.

Lemma qsum_swap {A B} (F : A -> B -> Qc) (la : list A) (lb : list B) :
  qsum (map (fun x => qsum (map (F x) lb)) la)
  = qsum (map (fun y => qsum (map (fun x => F x y) la)) lb).
Proof.
  induction la as [|x la IH]; cbn [map qsum].
  - now rewrite qsum_zeros.
  - rewrite IH. now rewrite <- qsum_plus.
Qed.

(** a sum over an index space, one axis taken out *)
Lemma qsum_indices_insert (s2 : list nat) (n : nat) (s1 : list nat) :
  forall G : list nat -> Qc,
    qsum (map G (indices (s1 ++ n :: s2)))
    = qsum (map (fun i =>
                   qsum (map (fun idx => G (insert_at (List.length s1) i idx))
                             (indices (s1 ++ s2))))
                (seq 0 n)).
Proof.
  induction s1 as [|a s1 IH]; intros G.
  - cbn [app indices List.length]. rewrite qsum_flat_map.
    apply qsum_map_ext. intros i _. now rewrite map_map.
  - cbn [app indices List.length]. rewrite qsum_flat_map.
    rewrite (qsum_map_ext _
               (fun x => qsum (map (fun i =>
                    qsum (map (fun idx =>
                                 G (x :: insert_at (List.length s1) i idx))
                              (indices (s1 ++ s2))))
                  (seq 0 n)))).
    + rewrite qsum_swap. apply qsum_map_ext. intros i _.
      rewrite qsum_flat_map. apply qsum_map_ext. intros x _.
      now rewrite map_map.
    + intros x _. rewrite map_map. apply (IH (fun idx => G (x :: idx))).
Qed.

Lemma bind_env_app (e : env) (ks2 : list string) (idx2 : list nat)
      (ks1 : list string) :
  forall idx1 : list nat,
    List.length idx1 = List.length ks1 ->
    bind_env e (ks1 ++ ks2) (idx1 ++ idx2)
    = bind_env (bind_env e ks2 idx2) ks1 idx1.
Proof.
  induction ks1 as [|k ks1 IH]; intros [|i idx1] H; try discriminate.
  - reflexivity.
  - cbn. rewrite IH; [reflexivity|]. cbn in H. lia.
Qed.

(** fixing the axis [k] first, or binding it in its place, is the same *)
Lemma bind_env_insert (ks1 ks2 : list string) (k : string) (i : nat)
      (idx : list nat) (x : string) :
  ~ In k ks2 ->
  (List.length ks1 <= List.length idx)%nat ->
  bind_env (upd env0 k i) (ks1 ++ ks2) idx x
  = bind_env env0 (ks1 ++ k :: ks2) (insert_at (List.length ks1) i idx) x.
Proof.
  intros Hk Hlen. unfold insert_at.
  rewrite <- (firstn_skipn (List.length ks1) idx) at 1.
  assert (Hl : List.length (firstn (List.length ks1) idx) = List.length ks1)
    by (rewrite length_firstn; lia).
  rewrite !bind_env_app by exact Hl.
  apply bind_env_agree. right. cbn [bind_env].
  destruct (String.eqb x k) eqn:E.
  - apply String.eqb_eq in E. subst x.
    rewrite bind_env_notin by assumption. now rewrite !upd_same.
  - apply String.eqb_neq in E. rewrite (upd_other _ _ _ _ E).
    apply bind_env_agree. right. now rewrite upd_other.
Qed.

Lemma insert_at_indices (s1 s2 : list nat) (n i : nat) (idx : list nat) :
  In idx (indices (s1 ++ s2)) -> (i < n)%nat ->
  In (insert_at (List.length s1) i idx) (indices (s1 ++ n :: s2)).
Proof.
  intros H Hi. apply In_indices. apply In_indices in H.
  apply Forall2_app_inv_r in H. destruct H as [l1 [l2 [H1 [H2 ->]]]].
  pose proof (Forall2_length H1) as Hl. unfold insert_at.
  rewrite <- Hl, firstn_app, skipn_app, Nat.sub_diag, firstn_all, skipn_all.
  cbn. rewrite app_nil_r. apply Forall2_app; [assumption|].
  now constructor.
Qed.

Lemma list_remove_split (k : string) (ks1 ks2 : list string) :
  ~ In k ks1 -> list_remove k (ks1 ++ k :: ks2) = ks1 ++ ks2.
Proof.
  induction ks1 as [|x ks1 IH]; cbn; intros H.
  - now rewrite String.eqb_refl.
  - destruct (String.eqb x k) eqn:E.
    + apply String.eqb_eq in E. tauto.
    + rewrite IH; [reflexivity|tauto].
Qed.

Lemma indices_one (n : nat) : indices [n] = map (fun i => [i]) (seq 0 n).
Proof.
  cbn [indices map]. induction (seq 0 n) as [|i l IH]; [reflexivity|].
  cbn [flat_map map app]. now rewrite IH.
Qed.

Lemma as_floats_num (qs : list Qc) : as_floats (map VNum qs) = OK (map Fin qs).
Proof. induction qs as [|q qs IH]; cbn; [reflexivity|]. now rewrite IH. Qed.

(** the shape of the parameter domain around one of its axes *)
Lemma domain_split (pd : dict (list pyval)) (k : string) (l : list pyval) :
  NoDup (keys pd) -> get pd k = Some l ->
  exists pd1 pd2,
    pd = pd1 ++ (k, l) :: pd2 /\
    ~ In k (keys pd1) /\ ~ In k (keys pd2) /\
    (forall x, In x (keys pd1) -> ~ In x (keys pd2)).
Proof.
  intros Hnd Hg. apply get_In in Hg. apply in_split in Hg.
  destruct Hg as [pd1 [pd2 ->]]. exists pd1, pd2.
  rewrite keys_app in Hnd. cbn [keys map fst] in Hnd.
  fold (keys pd2) in Hnd. fold (keys pd1) in Hnd.
  pose proof (NoDup_remove_2 _ _ _ Hnd) as Hk.
  pose proof (NoDup_remove_1 _ _ _ Hnd) as Hnd'.
  rewrite in_app_iff in Hk. repeat split; try tauto.
  intros x H1 H2. eapply NoDup_app_disjoint; eauto.
Qed.

Lemma axis_sizes_split (a : DataArray) (pd1 pd2 : dict (list pyval))
      (k : string) (l : list pyval) :
  coords a = pd1 ++ (k, l) :: pd2 ->
  NoDup (keys (pd1 ++ (k, l) :: pd2)) ->
  axis_sizes a (keys pd1 ++ keys pd2) = axis_shape pd1 ++ axis_shape pd2.
Proof.
  intros Hc Hnd. unfold axis_sizes. rewrite Hc, map_app.
  rewrite keys_app in Hnd. cbn [keys map fst] in Hnd.
  fold (keys pd2) in Hnd. fold (keys pd1) in Hnd.
  f_equal.
  - apply axis_sizes_self. eapply NoDup_app_remove_r; eauto.
  - pose proof (NoDup_app_remove_l _ _ Hnd) as Hnd2.
    inversion Hnd2 as [|? ? Hk2 Hnd2']. subst.
    rewrite <- (axis_sizes_self pd2 [] Hnd2'). rewrite app_nil_r.
    apply map_ext_in. intros x Hx.
    rewrite get_app_r.
    + cbn [get]. destruct (String.eqb x k) eqn:E; [|reflexivity].
      apply String.eqb_eq in E. subst. contradiction.
    + intros H. eapply NoDup_app_disjoint; [exact Hnd| |exact H].
      now right.
Qed.

Lemma filter_split (pd1 pd2 : dict (list pyval)) (k : string)
      (l : list pyval) :
  ~ In k (keys pd1) -> ~ In k (keys pd2) ->
  filter (fun kv => negb (mem (fst kv) (keys pd1 ++ keys pd2)))
         (pd1 ++ (k, l) :: pd2) = [(k, l)].
Proof.
  intros H1 H2. rewrite filter_app. cbn [filter fst].
  rewrite (filter_none _ pd1), (filter_none _ pd2).
  - replace (mem k (keys pd1 ++ keys pd2)) with false; [reflexivity|].
    symmetry. apply mem_notIn. rewrite in_app_iff. tauto.
  - intros [x v] Hx. apply negb_false_iff, mem_In, in_app_iff. right.
    eapply In_keys; eauto.
  - intros [x v] Hx. apply negb_false_iff, mem_In, in_app_iff. left.
    eapply In_keys; eauto.
Qed.

(** the mean branch of the loop, for a numeric axis of a well-formed
    engine *)
Lemma estimate_param_mean (st : QuestPlus) (k : string) (qs : list Qc) :
  well_formed st ->
  get (param_domain st) k = Some (map VNum qs) ->
  estimate_param st "mean" k =
  OK (EstFloat
        (nansum
           (map (fun i =>
                   nmul (nansum
                           (map (fun idx =>
                                   data (posterior st)
                                     (bind_env (upd env0 k i)
                                        (list_remove k (keys (param_domain st)))
                                        idx))
                                (indices
                                   (axis_sizes (posterior st)
                                      (list_remove k
                                         (keys (param_domain st)))))))
                        (Fin (nth i qs 0)))
                (seq 0 (List.length qs))))).
Proof.
  intros Hwf Hg.
  destruct (wf_axes st Hwf) as [ok [ol [_ [_ [_ [Hnp _]]]]]].
  destruct (domain_split _ k _ Hnp Hg) as [pd1 [pd2 [Hpd [Hk1 [Hk2 Hd]]]]].
  unfold estimate_param. cbn [String.eqb Ascii.eqb Bool.eqb andb].
  assert (Hrm : list_remove k (keys (param_domain st)) = keys pd1 ++ keys pd2).
  { rewrite Hpd, keys_app. cbn [keys map fst]. now apply list_remove_split. }
  rewrite Hrm. rewrite da_sum_ok.
  - cbn [rbind]. rewrite Hg. cbn [rbind]. rewrite as_floats_num.
    cbn [rbind]. unfold da_mul_array. cbn [coords].
    rewrite (wf_post st Hwf).
    assert (Hf : filter (fun kv => negb (mem (fst kv) (keys pd1 ++ keys pd2)))
                        (param_domain st) = [(k, map VNum qs)])
      by (rewrite Hpd; now apply filter_split).
    rewrite !Hf. cbn [rev app].
    rewrite !length_map, Nat.eqb_refl. cbn [rbind]. do 2 f_equal.
    unfold da_sum_all, dims, shape. cbn [coords data keys values map fst snd].
    rewrite length_map, indices_one, map_map.
    apply f_equal. apply map_ext_in. intros i Hi. apply in_seq in Hi.
    cbn [bind_env]. rewrite upd_same. f_equal.
    rewrite (nth_indep _ NaN (Fin 0)) by (rewrite length_map; lia).
    apply nth_map_Fin.
  - intros x Hx. unfold dims. rewrite (wf_post st Hwf), Hpd, keys_app.
    cbn [keys map fst]. rewrite in_app_iff in *. cbn. tauto.
Qed.

Lemma numeric_axis (d : dict (list pyval)) (k : string) (l : list pyval) :
  numeric_axes d = true -> In (k, l) d -> l = map VNum (axis_nums l).
Proof.
  unfold numeric_axes. rewrite forallb_forall. intros H Hin.
  assert (Hl : In l (values d))
    by (change l with (snd (k, l)); now apply in_map).
  specialize (H l Hl). clear -H. induction l as [|v l IH]; [reflexivity|].
  cbn in H. apply andb_true_iff in H. destruct H as [Hv H].
  destruct v; [|discriminate]. unfold axis_nums in *. cbn [map].
  f_equal. now apply IH.
Qed.

Lemma axis_nums_num (qs : list Qc) : axis_nums (map VNum qs) = qs.
Proof. unfold axis_nums. rewrite map_map. apply map_id. Qed.

Lemma axis_shape_split (pd1 pd2 : dict (list pyval)) (k : string)
      (l : list pyval) :
  axis_shape (pd1 ++ (k, l) :: pd2)
  = axis_shape pd1 ++ List.length l :: axis_shape pd2.
Proof. unfold axis_shape, values. now rewrite !map_app. Qed.

Lemma length_axis_shape (d : dict (list pyval)) :
  List.length (axis_shape d) = List.length (keys d).
Proof. unfold axis_shape, values, keys. now rewrite !length_map. Qed.

(** a cell of the marginal is a cell of the posterior *)
Lemma marginal_cell (st : QuestPlus) (pd1 pd2 : dict (list pyval))
      (k : string) (l : list pyval) (i : nat) (idx : list nat) :
  well_formed st ->
  param_domain st = pd1 ++ (k, l) :: pd2 ->
  ~ In k (keys pd2) ->
  In idx (indices (axis_shape pd1 ++ axis_shape pd2)) ->
  data (posterior st) (bind_env (upd env0 k i) (keys pd1 ++ keys pd2) idx)
  = data (posterior st)
         (bind_env env0 (keys (param_domain st))
                   (insert_at (List.length (axis_shape pd1)) i idx)).
Proof.
  intros Hwf Hpd Hk2 Hidx. apply (wf_local_post st Hwf). intros x _.
  rewrite Hpd, keys_app. cbn [keys map fst]. rewrite length_axis_shape.
  apply bind_env_insert; [assumption|].
  rewrite (indices_length _ _ Hidx), length_app, length_axis_shape. lia.
Qed.

Lemma marginal_sizes (st : QuestPlus) (pd1 pd2 : dict (list pyval))
      (k : string) (l : list pyval) :
  well_formed st ->
  param_domain st = pd1 ++ (k, l) :: pd2 ->
  ~ In k (keys pd1) ->
  list_remove k (keys (param_domain st)) = keys pd1 ++ keys pd2 /\
  axis_sizes (posterior st) (keys pd1 ++ keys pd2)
  = axis_shape pd1 ++ axis_shape pd2.
Proof.
  intros Hwf Hpd Hk1.
  destruct (wf_axes st Hwf) as [ok [ol [_ [_ [_ [Hnp _]]]]]].
  split.
  - rewrite Hpd, keys_app. cbn [keys map fst]. now apply list_remove_split.
  - apply (axis_sizes_split _ pd1 pd2 k l).
    + now rewrite (wf_post st Hwf).
    + now rewrite <- Hpd.
Qed.

(** the marginal posterior of an axis is a distribution over its values *)
Lemma marginal_distribution (st : QuestPlus) (k : string) (l : list pyval) :
  proper st ->
  get (param_domain st) k = Some l ->
  (forall i, 0 <= marginal st k i) /\
  Fin (qsum (map (marginal st k) (seq 0 (List.length l))))
  = total (posterior st).
Proof.
  intros Hp Hg. pose proof (proper_wf st Hp) as Hwf.
  destruct (wf_axes st Hwf) as [ok [ol [_ [_ [_ [Hnp _]]]]]].
  destruct (domain_split _ k _ Hnp Hg) as [pd1 [pd2 [Hpd [Hk1 [Hk2 Hd]]]]].
  destruct (marginal_sizes st pd1 pd2 k l Hwf Hpd Hk1) as [Hrm Hsz].
  split.
  - intros i. unfold marginal. apply qsum_nonneg, Forall_forall.
    intros x Hx. apply in_map_iff in Hx. destruct Hx as [idx [<- _]].
    apply (post_fin st _ Hp).
  - unfold total. rewrite (da_values_posterior st (wf_post st Hwf)).
    rewrite (npsum_map_fin _
               (fun th => qval (data (posterior st)
                            (bind_env env0 (keys (param_domain st)) th))))
      by (intros th _; apply (post_fin st _ Hp)).
    f_equal.
    replace (axis_shape (param_domain st))
      with (axis_shape pd1 ++ List.length l :: axis_shape pd2)
      by (rewrite Hpd; symmetry; apply axis_shape_split).
    rewrite qsum_indices_insert. apply qsum_map_ext. intros i _.
    unfold marginal. cbv zeta. rewrite Hrm, Hsz.
    apply qsum_map_ext. intros idx Hidx. f_equal.
    now apply (marginal_cell st pd1 pd2 k l).
Qed.

Lemma qsum_map_le {A} (f g : A -> Qc) (l : list A) :
  (forall x, In x l -> f x <= g x) -> qsum (map f l) <= qsum (map g l).
Proof.
  induction l as [|x l IH]; intros H; cbn [map qsum]; [apply Qcle_refl|].
  apply Qcplus_le_compat; [apply H; now left|].
  apply IH. intros y Hy. apply H. now right.
Qed.

Lemma qsum_map_scale {A} (f : A -> Qc) (c : Qc) (l : list A) :
  qsum (map (fun x => f x * c) l) = qsum (map f l) * c.
Proof.
  induction l as [|x l IH]; cbn [map qsum]; [ring|]. rewrite IH. ring.
Qed.

(** a weighted average lies between the bounds of its values *)
Lemma average_bounds (w x : nat -> Qc) (n : nat) (lo hi : Qc) :
  (forall i, 0 <= w i) ->
  qsum (map w (seq 0 n)) = 1 ->
  (forall i, (i < n)%nat -> lo <= x i /\ x i <= hi) ->
  lo <= qsum (map (fun i => w i * x i) (seq 0 n)) /\
  qsum (map (fun i => w i * x i) (seq 0 n)) <= hi.
Proof.
  intros Hw H1 Hx. split.
  - replace lo with (qsum (map (fun i => w i * lo) (seq 0 n)))
      by (rewrite qsum_map_scale, H1; ring).
    apply qsum_map_le. intros i Hi. apply in_seq in Hi.
    rewrite !(Qcmult_comm (w i)). apply Qcmult_le_compat_r; [|apply Hw].
    apply Hx. lia.
  - replace hi with (qsum (map (fun i => w i * hi) (seq 0 n)))
      by (rewrite qsum_map_scale, H1; ring).
    apply qsum_map_le. intros i Hi. apply in_seq in Hi.
    rewrite !(Qcmult_comm (w i)). apply Qcmult_le_compat_r; [|apply Hw].
    apply Hx. lia.
Qed.

(** X15.  The mean estimate is a weighted average over the grid.  With
    method "mean", numeric parameter axes and a finite posterior of sum one,
    [param_estimate] returns for every parameter axis the sum of its values
    weighted by the marginal posterior of the axis.  The weights are
    non-negative and sum to one, so the estimate lies between the smallest
    and the largest value of the axis; the engine is not changed. *)
Theorem mean_estimate_is_average (st : QuestPlus) :
  proper st ->
  total (posterior st) = Fin 1 ->
  param_estimation_method st = "mean" ->
  numeric_axes (param_domain st) = true ->
  param_estimate st =
  (OK (map (fun k => (k, EstFloat (Fin (posterior_mean st k))))
           (keys (param_domain st))), st) /\
  forall k qs,
    get (param_domain st) k = Some (map VNum qs) ->
    posterior_mean st k
    = qsum (map (fun i => marginal st k i * nth i qs 0)
                (seq 0 (List.length qs))) /\
    (forall i, 0 <= marginal st k i) /\
    qsum (map (marginal st k) (seq 0 (List.length qs))) = 1 /\
    forall lo hi,
      (forall x, In x qs -> lo <= x /\ x <= hi) ->
      lo <= posterior_mean st k /\ posterior_mean st k <= hi.
Proof.
  intros Hp Ht Hm Hnum. pose proof (proper_wf st Hp) as Hwf.
  destruct (wf_axes st Hwf) as [ok [ol [_ [_ [_ [Hnp _]]]]]].
  split.
  - rewrite param_estimate_unfold, Hm. f_equal.
    rewrite (estimate_params_ok st "mean"
               (fun k => EstFloat (Fin (posterior_mean st k))));
      [reflexivity|exact Hnp|intros k _ []|].
    intros k Hk. apply get_In_keys in Hk. destruct Hk as [l Hg].
    pose proof (numeric_axis _ k l Hnum (get_In _ _ _ Hg)) as Hl.
    rewrite Hl in Hg.
    rewrite (estimate_param_mean st k (axis_nums l) Hwf Hg). do 2 f_equal.
    unfold posterior_mean. rewrite Hg, axis_nums_num.
    apply nansum_map_fin. intros i _.
    rewrite (nansum_map_fin _
               (fun idx => qval (data (posterior st)
                    (bind_env (upd env0 k i)
                       (list_remove k (keys (param_domain st))) idx))))
      by (intros idx _; apply (post_fin st _ Hp)).
    reflexivity.
  - intros k qs Hg.
    destruct (marginal_distribution st k _ Hp Hg) as [Hw Hs].
    rewrite Ht, length_map in Hs. injection Hs as Hs.
    assert (Hpm : posterior_mean st k
                  = qsum (map (fun i => marginal st k i * nth i qs 0)
                              (seq 0 (List.length qs))))
      by (unfold posterior_mean; now rewrite Hg, axis_nums_num).
    split; [exact Hpm|]. split; [exact Hw|]. split; [exact Hs|].
    intros lo hi Hb. rewrite Hpm.
    apply average_bounds; [exact Hw|exact Hs|].
    intros i Hi. apply Hb. now apply nth_In.
Qed.

(** the estimates after an impossible trial *)
Lemma mean_on_nan_posterior (st : QuestPlus) :
  nan_posterior st ->
  param_estimation_method st = "mean" ->
  numeric_axes (param_domain st) = true ->
  param_estimate st =
  (OK (map (fun k => (k, EstFloat (Fin 0))) (keys (param_domain st))), st).
Proof.
  intros [Hwf [_ Hnan]] Hm Hnum.
  destruct (wf_axes st Hwf) as [ok [ol [_ [_ [_ [Hnp _]]]]]].
  rewrite param_estimate_unfold, Hm. f_equal.
  rewrite (estimate_params_ok st "mean" (fun _ => EstFloat (Fin 0)));
    [reflexivity|exact Hnp|intros k _ []|].
  intros k Hk. apply get_In_keys in Hk. destruct Hk as [l Hg].
  pose proof (numeric_axis _ k l Hnum (get_In _ _ _ Hg)) as Hl.
  rewrite Hl in Hg.
  rewrite (estimate_param_mean st k (axis_nums l) Hwf Hg). do 2 f_equal.
  destruct (domain_split _ k _ Hnp Hg) as [pd1 [pd2 [Hpd [Hk1 [Hk2 Hd]]]]].
  destruct (marginal_sizes st pd1 pd2 k _ Hwf Hpd Hk1) as [Hrm Hsz].
  rewrite Hrm, Hsz.
  rewrite (nansum_map_fin _ (fun _ => 0)); [now rewrite qsum_zeros|].
  intros i Hi. apply in_seq in Hi.
  rewrite nansum_all_nan.
  - cbn [nmul]. f_equal. ring.
  - intros idx Hidx.
    rewrite (marginal_cell st pd1 pd2 k _ i idx Hwf Hpd Hk2 Hidx).
    rewrite (da_values_posterior st (wf_post st Hwf)) in Hnan.
    rewrite Forall_map, Forall_forall in Hnan. symmetry. apply Hnan.
    rewrite Hpd, axis_shape_split. apply insert_at_indices; [assumption|].
    rewrite length_map. lia.
Qed.

(** X16.  After an impossible trial [param_estimate] gives no usable
    estimate, and says so only for the mode: with method "mode" it raises
    ValueError (as soon as there is a parameter axis); with method "mean"
    and numeric axes it returns 0 for every parameter, without an
    exception. *)
Theorem param_estimate_on_nan_posterior (st : QuestPlus) :
  nan_posterior st ->
  (param_estimation_method st = "mode" ->
   param_domain st <> [] ->
   param_estimate st = (Raise ValueError, st)) /\
  (param_estimation_method st = "mean" ->
   numeric_axes (param_domain st) = true ->
   param_estimate st =
   (OK (map (fun k => (k, EstFloat (Fin 0))) (keys (param_domain st))), st)).
Proof.
  intros Hn. split.
  - now apply mode_on_nan_posterior.
  - now apply mean_on_nan_posterior.
Qed.

Lemma mean_valid : valid_config mean_cfg = true.
Proof. vm_compute. reflexivity. Qed.

Lemma mean_buildable : buildable mean_cfg = true.
Proof. vm_compute. reflexivity. Qed.

Lemma mean_total : total (posterior mean_st) = Fin 1.
Proof. apply num_eqb_eq. vm_compute. reflexivity. Qed.

Lemma mean_estimate_is_average_witness :
  proper mean_st /\
  total (posterior mean_st) = Fin 1 /\
  param_estimation_method mean_st = "mean" /\
  numeric_axes (param_domain mean_st) = true /\
  param_estimate mean_st =
  (OK (map (fun k => (k, EstFloat (Fin (posterior_mean mean_st k))))
           (keys (param_domain mean_st))), mean_st) /\
  forall k qs,
    get (param_domain mean_st) k = Some (map VNum qs) ->
    posterior_mean mean_st k
    = qsum (map (fun i => marginal mean_st k i * nth i qs 0)
                (seq 0 (List.length qs))) /\
    (forall i, 0 <= marginal mean_st k i) /\
    qsum (map (marginal mean_st k) (seq 0 (List.length qs))) = 1 /\
    forall lo hi,
      (forall x, In x qs -> lo <= x /\ x <= hi) ->
      lo <= posterior_mean mean_st k /\ posterior_mean mean_st k <= hi.
Proof.
  pose proof (proj2 (engine_of_init mean_cfg mean_buildable)) as Hp.
  split; [exact Hp|]. split; [exact mean_total|]. split; [reflexivity|].
  split; [reflexivity|].
  exact (mean_estimate_is_average mean_st Hp mean_total eq_refl eq_refl).
Defined.

Lemma param_estimate_on_nan_posterior_witness :
  nan_posterior binary_st2 /\
  param_estimation_method binary_st2 = "mode" /\
  param_domain binary_st2 <> [] /\
  param_estimate binary_st2 = (Raise ValueError, binary_st2).
Proof.
  assert (Hne : param_domain binary_st2 <> []) by discriminate.
  split; [exact nan_binary_st2|]. split; [reflexivity|]. split; [exact Hne|].
  exact (proj1 (param_estimate_on_nan_posterior binary_st2 nan_binary_st2)
               eq_refl Hne).
Defined.

(* ================================================================== *)
(** ** Further properties: the prior *)
(* ================================================================== *)

Section PriorShape.

Variable psychometric_function :
  string -> dict (list pyval) -> dict (list pyval) -> string -> DataArray.

(** X17.  What the constructor rejects in a prior map (over at least two
    axes, the first with more than one weight, the case in which numpy
    multiplies with broadcasting): a map written with Python ints only is a
    TypeError, whatever its shape, since the product of integers cannot be
    normalised in place; any other map whose numbers of weights are not the
    lengths of the parameter axes is a ValueError. *)
Theorem prior_of_wrong_shape_rejected (c : Config) (pr : dict (list pynum)) :
  cfg_prior c = Some pr ->
  prior_broadcasts pr = true ->
  (forallb int_array (values pr) = true ->
   __init__ psychometric_function c = Raise TypeError) /\
  (forallb int_array (values pr) = false ->
   shape_eqb (map (@List.length pynum) (values pr))
             (axis_shape (_ensure_ndarray (cfg_param_domain c))) = false ->
   __init__ psychometric_function c = Raise ValueError).
Proof.
  intros Hpr Hb. destruct (prior_broadcasts_inv pr Hb) as [Hl Hh].
  destruct (np_prod_meshgrid (fun _ => True) I any_product
              (values (weights_of pr))) as [r [Hr Hinv]];
    [assumption|assumption| |].
  { apply Forall_forall. intros w _. apply Forall_forall. auto. }
  assert (Hshape : nd_shape r = map (@List.length pynum) (values pr)).
  { rewrite (pi_shape _ _ _ _ Hinv), partial_shape_full.
    apply length_weights_of. }
  assert (Hne : nd_shape r <> []).
  { rewrite (pi_shape _ _ _ _ Hinv), partial_shape_full. intro E.
    apply map_eq_nil in E. rewrite E in Hl. cbn in Hl. lia. }
  unfold __init__, _gen_prior. rewrite Hpr, values_weights_of, Hr.
  cbn [rbind]. split.
  - intros Hint. rewrite Hint.
    destruct (nd_shape r); [congruence|reflexivity].
  - intros Hint Hs. rewrite Hint.
    match goal with
    | |- rbind (rbind ?m _) _ = _ =>
        replace m with (OK r) by (destruct (nd_shape r); reflexivity)
    end.
    cbn [rbind]. unfold DataArray_new. cbn [nd_normalize nd_shape].
    rewrite Hshape in *.
    fold (axis_shape (_ensure_ndarray (cfg_param_domain c))).
    destruct (map (@List.length pynum) (values pr)) as [|n s0];
      [congruence|].
    now rewrite Hs.
Qed.

End PriorShape.

(** X17 at a prior map with three weights for an axis of two values, and at
    a prior map of Python ints *)
Lemma prior_of_wrong_shape_rejected_witness :
  cfg_prior long_prior_cfg = Some (floats long_prior) /\
  prior_broadcasts (floats long_prior) = true /\
  __init__ match_pf long_prior_cfg = Raise ValueError /\
  cfg_prior int_prior_cfg = Some int_prior /\
  prior_broadcasts int_prior = true /\
  __init__ match_pf int_prior_cfg = Raise TypeError.
Proof.
  split; [reflexivity|]. split; [reflexivity|]. split; [|split; [|split]].
  - apply (prior_of_wrong_shape_rejected match_pf long_prior_cfg
             (floats long_prior) eq_refl eq_refl); reflexivity.
  - reflexivity.
  - reflexivity.
  - apply (prior_of_wrong_shape_rejected match_pf int_prior_cfg
             int_prior eq_refl eq_refl); reflexivity.
Defined.

Lemma prior_ok_intro (pd : dict (list pyval)) (pr : dict (list Qc)) :
  keys pr = keys pd ->
  map (@List.length Qc) (values pr) = axis_shape pd ->
  (2 <= List.length pr)%nat ->
  hd 0%nat (axis_shape pd) <> 1%nat ->
  Forall (Forall (Qcle 0)) (values pr) ->
  outer_total pr pd <> 0 ->
  prior_ok pd (Some pr) = true.
Proof.
  intros Hk Hs Hl Hh Hn Ht. unfold prior_ok. rewrite !andb_true_iff.
  repeat split.
  - destruct (list_eq_dec string_dec (keys pr) (keys pd)); congruence.
  - rewrite Hs. apply shape_eqb_refl.
  - now apply Nat.leb_le.
  - now apply negb_true_iff, Nat.eqb_neq.
  - apply forallb_forall. intros w Hw. apply forallb_forall. intros x Hx.
    apply negb_true_iff, Qc_ltb_ge.
    rewrite Forall_forall in Hn. specialize (Hn w Hw).
    rewrite Forall_forall in Hn. now apply Hn.
  - now apply negb_true_iff, is_zero_false.
Qed.

Lemma get_scale_prior (c : string -> Qc) (pr : dict (list Qc)) (k : string) :
  get (scale_prior c pr) k = option_map (map (Qcmult (c k))) (get pr k).
Proof.
  induction pr as [|[k' w] pr IH]; [reflexivity|].
  cbn [scale_prior map get fst snd]. destruct (String.eqb k k') eqn:E.
  - apply String.eqb_eq in E. now subst.
  - exact IH.
Qed.

Lemma nth_scale (c : Qc) (w : list Qc) :
  forall i, nth i (map (Qcmult c) w) 0 = c * nth i w 0.
Proof.
  induction w as [|x w IH]; intros [|i]; cbn [map nth].
  - ring.
  - ring.
  - reflexivity.
  - apply IH.
Qed.

Lemma weight_scale (c : string -> Qc) (pr : dict (list Qc)) (k : string)
      (i : nat) :
  weight (scale_prior c pr) k i = c k * weight pr k i.
Proof.
  unfold weight. rewrite get_scale_prior.
  destruct (get pr k) as [w|]; cbn [option_map]; [apply nth_scale|ring].
Qed.

Lemma qprod_mult {A} (f g : A -> Qc) (l : list A) :
  qprod (map (fun x => f x * g x) l) = qprod (map f l) * qprod (map g l).
Proof.
  induction l as [|x l IH]; cbn [map qprod]; [ring|]. rewrite IH. ring.
Qed.

Lemma map_fst_combine {A B} (l : list A) :
  forall l' : list B, List.length l' = List.length l ->
                      map fst (combine l l') = l.
Proof.
  induction l as [|x l IH]; intros [|y l'] H; try discriminate;
    [reflexivity|].
  cbn. f_equal. apply IH. cbn in H. lia.
Qed.

Lemma outer_scale (c : string -> Qc) (pr : dict (list Qc))
      (ks : list string) (idx : list nat) :
  List.length idx = List.length ks ->
  outer (scale_prior c pr) ks idx = qprod (map c ks) * outer pr ks idx.
Proof.
  intros Hl. unfold outer.
  rewrite (map_ext _ (fun ki => c (fst ki) * weight pr (fst ki) (snd ki)))
    by (intros ki; apply weight_scale).
  rewrite qprod_mult. f_equal.
  rewrite <- (map_map fst c). now rewrite map_fst_combine.
Qed.

Lemma qprod_neq_0 (l : list Qc) : Forall (fun x => x <> 0) l -> qprod l <> 0.
Proof.
  induction 1 as [|x l Hx Hl IH]; cbn [qprod]; [discriminate|].
  intros E. apply Qcmult_integral in E. tauto.
Qed.

Lemma qsum_map_scale_l {A} (f : A -> Qc) (c : Qc) (l : list A) :
  qsum (map (fun x => c * f x) l) = c * qsum (map f l).
Proof.
  induction l as [|x l IH]; cbn [map qsum]; [ring|]. rewrite IH. ring.
Qed.

Lemma outer_total_scale (c : string -> Qc) (pr : dict (list Qc))
      (pd : dict (list pyval)) :
  outer_total (scale_prior c pr) pd
  = qprod (map c (keys pd)) * outer_total pr pd.
Proof.
  unfold outer_total. rewrite <- qsum_map_scale_l.
  apply qsum_map_ext. intros idx Hidx. apply outer_scale.
  rewrite (indices_length _ _ Hidx). apply length_axis_shape.
Qed.

(** X18.  The prior weights need not be normalised, axis by axis:
    multiplying the weights of every axis by a positive factor of its own
    gives the same prior tensor, for prior maps that are not written with
    Python ints only (those are rejected, X17). *)
Theorem prior_scale_invariant (pd : dict (list pyval))
        (pr pr' : dict (list pynum)) (c : string -> Qc) :
  NoDup (keys pd) ->
  prior_ok pd (Some (weights_of pr)) = true ->
  (forall k, 0 < c k) ->
  weights_of pr' = scale_prior c (weights_of pr) ->
  forallb int_array (values pr) = false ->
  forallb int_array (values pr') = false ->
  exists p p',
    _gen_prior pd (Some pr) = OK p /\
    _gen_prior pd (Some pr') = OK p' /\
    coords p' = coords p /\
    forall idx, In idx (indices (axis_shape pd)) ->
      data p' (bind_env env0 (keys pd) idx)
      = data p (bind_env env0 (keys pd) idx).
Proof.
  intros Hnd Hok Hc Hw Hint Hint'.
  destruct (prior_ok_inv pd _ Hok) as [Hk [Hs [Hl [Hh [Hnn Ht]]]]].
  set (w := weights_of pr) in *.
  assert (HC : qprod (map c (keys pd)) <> 0).
  { apply qprod_neq_0, Forall_forall. intros x Hx.
    apply in_map_iff in Hx. destruct Hx as [k [<- _]].
    intros E. specialize (Hc k). rewrite E in Hc.
    now apply Qclt_not_le in Hc; apply Hc, Qcle_refl. }
  assert (Hok' : prior_ok pd (Some (weights_of pr')) = true).
  { rewrite Hw. apply prior_ok_intro.
    - rewrite <- Hk. unfold keys, scale_prior. rewrite map_map.
      now apply map_ext.
    - rewrite <- Hs. unfold values, scale_prior. rewrite !map_map.
      apply map_ext. intros kw. cbn [snd]. apply length_map.
    - unfold scale_prior. now rewrite length_map.
    - rewrite <- Hs. unfold axis_len in Hh.
      destruct (values w) as [|w0 ws] eqn:Ew; [|exact Hh].
      apply map_eq_nil in Ew. rewrite Ew in Hl. cbn in Hl. lia.
    - unfold values, scale_prior. rewrite map_map.
      apply Forall_forall. intros w1 Hw1. apply in_map_iff in Hw1.
      destruct Hw1 as [[k w0] [<- Hin]]. cbn [fst snd].
      apply Forall_forall. intros x Hx. apply in_map_iff in Hx.
      destruct Hx as [y [<- Hy]].
      apply Qc_mult_nonneg; [apply Qclt_le_weak, Hc|].
      rewrite Forall_forall in Hnn.
      assert (Hw0 : In w0 (values w))
        by (change w0 with (snd (k, w0)); now apply in_map).
      specialize (Hnn w0 Hw0). rewrite Forall_forall in Hnn. now apply Hnn.
    - rewrite outer_total_scale. intros E.
      apply Qcmult_integral in E. tauto. }
  destruct (gen_prior_outer pd pr Hnd Hok Hint)
    as [p [Hp [Hcp [_ [_ Hcell]]]]].
  destruct (gen_prior_outer pd pr' Hnd Hok' Hint')
    as [p' [Hp' [Hcp' [_ [_ Hcell']]]]].
  exists p, p'. split; [exact Hp|]. split; [exact Hp'|].
  split; [now rewrite Hcp, Hcp'|].
  intros idx Hidx. rewrite (Hcell idx Hidx), (Hcell' idx Hidx). f_equal.
  rewrite Hw. fold w. rewrite outer_total_scale, outer_scale.
  - field. split; assumption.
  - rewrite (indices_length _ _ Hidx). apply length_axis_shape.
Qed.

Lemma factors_pos (k : string) : 0 < factors k.
Proof. unfold factors. destruct (String.eqb k "threshold"); reflexivity. Qed.

Lemma scaled_prior_weights :
  weights_of scaled_prior
  = scale_prior factors (weights_of (floats ordered_prior)).
Proof.
  rewrite weights_of_floats. unfold scaled_prior, ordered_prior, scale_prior,
    weights_of, w_threshold, w_slope, factors.
  cbn [map fst snd qnum String.eqb Ascii.eqb Bool.eqb andb].
  repeat (f_equal; try (apply Qc_is_canon; vm_compute; reflexivity)).
Qed.

(** X18 at the prior of two axes, with the weights (1/2, 1/2) and
    (9/10, 1/10) written as (2.0, 2.0) and (9, 1) *)
Lemma prior_scale_invariant_witness :
  NoDup (keys (param_domain ordered_st)) /\
  prior_ok (param_domain ordered_st)
           (Some (weights_of (floats ordered_prior))) = true /\
  (forall k, 0 < factors k) /\
  weights_of scaled_prior
  = scale_prior factors (weights_of (floats ordered_prior)) /\
  forallb int_array (values (floats ordered_prior)) = false /\
  forallb int_array (values scaled_prior) = false /\
  exists p p',
    _gen_prior (param_domain ordered_st) (Some (floats ordered_prior)) = OK p /\
    _gen_prior (param_domain ordered_st) (Some scaled_prior) = OK p' /\
    coords p' = coords p /\
    forall idx, In idx (indices (axis_shape (param_domain ordered_st))) ->
      data p' (bind_env env0 (keys (param_domain ordered_st)) idx)
      = data p (bind_env env0 (keys (param_domain ordered_st)) idx).
Proof.
  assert (Hnd : NoDup (keys (param_domain ordered_st)))
    by (apply nodupb_NoDup; reflexivity).
  assert (Hok : prior_ok (param_domain ordered_st)
                         (Some (weights_of (floats ordered_prior))) = true)
    by (vm_compute; reflexivity).
  split; [exact Hnd|]. split; [exact Hok|]. split; [exact factors_pos|].
  split; [exact scaled_prior_weights|].
  split; [reflexivity|]. split; [reflexivity|].
  exact (prior_scale_invariant (param_domain ordered_st)
           (floats ordered_prior) scaled_prior factors
           Hnd Hok factors_pos scaled_prior_weights eq_refl eq_refl).
Defined.

(* ================================================================== *)
(** ** Further properties: the ways a call of [update] can end *)
(* ================================================================== *)

Lemma kwargs_error (stim outcome : dict pyval) (e : exn) :
  kwargs stim outcome = Raise e -> e = TypeError.
Proof.
  unfold kwargs.
  destruct (existsb (fun k => mem k (keys stim)) (keys outcome));
    congruence.
Qed.

Lemma da_sel_error (kw : dict pyval) :
  forall (a : DataArray) (e : exn),
    da_sel a kw = Raise e -> e = ValueError \/ e = KeyError.
Proof.
  induction kw as [|[k v] kw IH]; intros a e H; [discriminate|].
  cbn [da_sel] in H. unfold da_sel1 in H.
  destruct (get (coords a) k) as [l|]; cbn [rbind] in H;
    [|left; congruence].
  destruct (index_of v l); cbn [rbind] in H; [|right; congruence].
  eapply IH; eauto.
Qed.

Lemma dict_append_error (h : dict (list pyval)) (k : string) (v : pyval)
      (e : exn) :
  dict_append h k v = Raise e -> e = KeyError.
Proof.
  induction h as [|[k' l] h IH]; cbn; intros H; [congruence|].
  destruct (String.eqb k k'); [discriminate|].
  destruct (dict_append h k v); [discriminate|]. cbn in H.
  apply IH. congruence.
Qed.

Lemma log_stim_error (stim : dict pyval) :
  forall (st : QuestPlus) (e : exn),
    fst (log_stim stim st) = Raise e -> e = KeyError.
Proof.
  induction stim as [|[k v] stim IH]; intros st e H; [discriminate|].
  cbn [log_stim] in H. unfold bind, read, lift, write in H.
  destruct (dict_append (stim_history st) k v) eqn:E.
  - eapply IH; eauto.
  - cbn in H. injection H as <-. eapply dict_append_error; eauto.
Qed.

(** X19.  How a call of [update] can end, for ANY arguments and state.  It
    never touches the prior, the likelihood tensor, the domains or the
    entropy.  If it succeeds, the outcome is appended to [resp_history].
    If it fails, the exception is a TypeError, a ValueError or a KeyError,
    [resp_history] is as before, and unless the exception is a KeyError the
    whole engine is as before. *)
Theorem update_outcomes (st : QuestPlus) (stim outcome : dict pyval) :
  let r := fst (update stim outcome st) in
  let st' := snd (update stim outcome st) in
  (prior st' = prior st /\ likelihoods st' = likelihoods st /\
   stim_domain st' = stim_domain st /\ param_domain st' = param_domain st /\
   outcome_domain st' = outcome_domain st /\ entropy st' = entropy st) /\
  match r with
  | OK _ => resp_history st' = resp_history st ++ [outcome]
  | Raise e =>
      resp_history st' = resp_history st /\
      (e = TypeError \/ e = ValueError \/ e = KeyError) /\
      (e <> KeyError -> st' = st)
  end.
Proof.
  cbv zeta. unfold update, bind, lift, read, write.
  destruct (kwargs stim outcome) as [kw|e] eqn:Hkw.
  - destruct (da_sel (likelihoods st) kw) as [lik|e] eqn:Hsel.
    + cbn [posterior set_posterior].
      match goal with
      | |- context [log_stim stim ?s] =>
          pose proof (log_stim_frame stim s) as Hf;
          pose proof (log_stim_error stim s) as He;
          destruct (log_stim stim s) as [[u|e] s2]
      end; cbn [fst snd] in *.
      * rewrite Hf. cbn. repeat split.
      * rewrite Hf. cbn. repeat split.
        -- right. right. now apply He.
        -- intros Hne. exfalso. apply Hne. now apply He.
    + cbn [fst snd]. repeat split.
      destruct (da_sel_error _ _ _ Hsel); tauto.
  - cbn [fst snd]. repeat split. left. eapply kwargs_error; eauto.
Qed.


(* ================================================================== *)
(** ** Further properties: [next_stim] and [update] together *)
(* ================================================================== *)




Section SelectionAndUpdate.

Variable ln : Qc -> Qc.


End SelectionAndUpdate.





(* ================================================================== *)
(** ** Further properties: the support of the posterior *)
(* ================================================================== *)

Section Support.

Variable ln : Qc -> Qc.

Variable psychometric_function :
  string -> dict (list pyval) -> dict (list pyval) -> string -> DataArray.

Hypothesis provider : provider_ok psychometric_function.



End Support.




(* ================================================================== *)
(** ** Empty axes *)
(* ================================================================== *)

Section EmptyAxes.

Variable ln : Qc -> Qc.

Variable psychometric_function :
  string -> dict (list pyval) -> dict (list pyval) -> string -> DataArray.

Hypothesis provider : provider_ok psychometric_function.




End EmptyAxes.




